(** * GELF chunked writer: a shallow embedding of the three [graylog] clients

    The repository holds three successive versions of one log-shipping
    client ([package graylog]):

    - [reduce.go], first file: every [Write] allocates its own
      [bytes.Buffer] and [gzip.Writer]                    (module [Reduce]);
    - [reduce.go], second file: one buffer and one compressor live in the
      client, guarded by [writeMux]                        (module [Reuse]);
    - the third file: buffers and compressors are recycled through a
      [sync.Pool] of [message] values                      (module [Recycle]).

    Go library calls are embedded as follows.  [bytes.TrimFunc],
    [unicode.IsSpace] and the [unicode/utf8] decoder are transcribed from
    the Go standard library; [bytes.Buffer] is the list of its unread
    bytes; [compress/gzip] is an interface ([GzipCodec]) whose only assumed
    facts are stated where they are used; [net.PacketConn] is a log of
    [WriteTo] calls whose outcomes are drawn from an oracle; [rand.Read]
    is given by its result.

    A call that dereferences a nil compressor or a nil connection
    [Panics].  Calls run one at a time: the mutexes are not modelled, and
    the pool hands out the value put back last.  Lengths and loop indices
    are [int] values far from overflow and are kept in [Z]; the message
    counter is a [uint32] and wraps. *)

From Stdlib Require Import ZArith List Bool Lia Arith Sorted.
From Stdlib Require Import Strings.String Strings.Byte DecimalString.
Import ListNotations.

(** [String] also exports a [length]; the lists' one is meant throughout. *)
Abbreviation length := List.length.

Local Open Scope Z_scope.

(* ================================================================== *)
(** * Bytes and Go slices *)

Definition Zb (b : byte) : Z := Z.of_N (Byte.to_N b).

(** Go's [uint8(x)] / [byte(x)] conversion: truncation to eight bits. *)
Definition u8 (z : Z) : byte :=
  match Byte.of_N (Z.to_N (z mod 256)) with
  | Some b => b
  | None => x00
  end.

Definition len {A} (s : list A) : Z := Z.of_nat (List.length s).

(** [s[i]], [s[i:]] and [s[0:i]] for an index the program keeps in range. *)
Definition at_ (s : list byte) (i : Z) : byte := nth (Z.to_nat i) s x00.
Definition slice_from {A} (s : list A) (i : Z) : list A := skipn (Z.to_nat i) s.
Definition slice_to {A} (s : list A) (i : Z) : list A := firstn (Z.to_nat i) s.

(** [int32] wrap-around, used by the mask trick of [utf8.DecodeRune]. *)
Definition int32 (z : Z) : Z := (z + 2 ^ 31) mod 2 ^ 32 - 2 ^ 31.

(* ================================================================== *)
(** * [unicode/utf8] *)

Module utf8.

Definition RuneError : Z := 0xFFFD.
Definition RuneSelf : Z := 0x80.
Definition MaxRune : Z := 0x10FFFF.
Definition UTFMax : Z := 4.

Definition maskx : Z := 0x3F.
Definition mask2 : Z := 0x1F.
Definition mask3 : Z := 0x0F.
Definition mask4 : Z := 0x07.
Definition locb : Z := 0x80.
Definition hicb : Z := 0xBF.

(** Entries of the [first] table: [as_] ASCII, [xx] invalid, the others
    give the size in the low three bits and the accept range above. *)
Definition xx : Z := 0xF1.
Definition as_ : Z := 0xF0.
Definition s1 : Z := 0x02.
Definition s2 : Z := 0x13.
Definition s3 : Z := 0x03.
Definition s4 : Z := 0x23.
Definition s5 : Z := 0x34.
Definition s6 : Z := 0x04.
Definition s7 : Z := 0x44.

Definition first (b : byte) : Z :=
  let v := Zb b in
  if v <? 0x80 then as_
  else if v <? 0xC2 then xx
  else if v <? 0xE0 then s1
  else if v =? 0xE0 then s2
  else if v <? 0xED then s3
  else if v =? 0xED then s4
  else if v <? 0xF0 then s3
  else if v =? 0xF0 then s5
  else if v <? 0xF4 then s6
  else if v =? 0xF4 then s7
  else xx.

Definition acceptRanges (k : Z) : Z * Z :=
  if k =? 0 then (locb, hicb)
  else if k =? 1 then (0xA0, hicb)
  else if k =? 2 then (locb, 0x9F)
  else if k =? 3 then (0x90, hicb)
  else if k =? 4 then (locb, 0x8F)
  else (0, 0).

(** [func DecodeRune(p []byte) (r rune, size int)] *)
Definition DecodeRune (p : list byte) : Z * Z :=
  let n := len p in
  if n <? 1 then (RuneError, 0) else
  let p0 := at_ p 0 in
  let x := first p0 in
  if x >=? as_ then
    let mask := Z.shiftr (int32 (Z.shiftl x 31)) 31 in
    (Z.lor (Z.land (Zb p0) (Z.lnot mask)) (Z.land RuneError mask), 1)
  else
  let sz := Z.land x 7 in
  let '(lo, hi) := acceptRanges (Z.shiftr x 4) in
  if n <? sz then (RuneError, 1) else
  let b1 := Zb (at_ p 1) in
  if (b1 <? lo) || (hi <? b1) then (RuneError, 1) else
  if sz <=? 2 then
    (Z.lor (Z.shiftl (Z.land (Zb p0) mask2) 6) (Z.land b1 maskx), 2)
  else
  let b2 := Zb (at_ p 2) in
  if (b2 <? locb) || (hicb <? b2) then (RuneError, 1) else
  if sz <=? 3 then
    (Z.lor (Z.lor (Z.shiftl (Z.land (Zb p0) mask3) 12)
                  (Z.shiftl (Z.land b1 maskx) 6))
           (Z.land b2 maskx), 3)
  else
  let b3 := Zb (at_ p 3) in
  if (b3 <? locb) || (hicb <? b3) then (RuneError, 1) else
  (Z.lor (Z.lor (Z.lor (Z.shiftl (Z.land (Zb p0) mask4) 18)
                       (Z.shiftl (Z.land b1 maskx) 12))
                (Z.shiftl (Z.land b2 maskx) 6))
         (Z.land b3 maskx), 4).

(** [func RuneStart(b byte) bool { return b&0xC0 != 0x80 }] *)
Definition RuneStart (b : byte) : bool := negb (Z.land (Zb b) 0xC0 =? 0x80).

(** The backward scan of [DecodeLastRune]:
    [for start--; start >= lim; start-- { if RuneStart(p[start]) { break } }],
    entered after the decrement.  It runs at most [UTFMax - 1] times. *)
Fixpoint scanBack (fuel : nat) (p : list byte) (start lim : Z) : Z :=
  match fuel with
  | O => start
  | S k =>
      if start <? lim then start
      else if RuneStart (at_ p start) then start
      else scanBack k p (start - 1) lim
  end.

(** [func DecodeLastRune(p []byte) (r rune, size int)] *)
Definition DecodeLastRune (p : list byte) : Z * Z :=
  let end_ := len p in
  if end_ =? 0 then (RuneError, 0) else
  let start := end_ - 1 in
  let r := Zb (at_ p start) in
  if r <? RuneSelf then (r, 1) else
  let lim := Z.max 0 (end_ - UTFMax) in
  let start := scanBack (Z.to_nat UTFMax) p (start - 1) lim in
  let start := Z.max 0 start in
  let '(r, size) := DecodeRune (slice_to (slice_from p start) (end_ - start)) in
  if negb (start + size =? end_) then (RuneError, 1) else (r, size).

(** The encoder is not called by the clients; it is used to say which byte
    strings spell a given sequence of code points
    ([func EncodeRune(p []byte, r rune) int]). *)
Definition EncodeRune (r : Z) : list byte :=
  if (0 <=? r) && (r <=? 0x7F) then [u8 r]
  else if (0 <=? r) && (r <=? 0x7FF) then
    [u8 (Z.lor 0xC0 (Z.shiftr r 6)); u8 (Z.lor 0x80 (Z.land r maskx))]
  else
    let r := if (r <? 0) || (MaxRune <? r) || ((0xD800 <=? r) && (r <=? 0xDFFF))
             then RuneError else r in
    if r <=? 0xFFFF then
      [u8 (Z.lor 0xE0 (Z.shiftr r 12));
       u8 (Z.lor 0x80 (Z.land (Z.shiftr r 6) maskx));
       u8 (Z.lor 0x80 (Z.land r maskx))]
    else
      [u8 (Z.lor 0xF0 (Z.shiftr r 18));
       u8 (Z.lor 0x80 (Z.land (Z.shiftr r 12) maskx));
       u8 (Z.lor 0x80 (Z.land (Z.shiftr r 6) maskx));
       u8 (Z.lor 0x80 (Z.land r maskx))].

End utf8.

(* ================================================================== *)
(** * [unicode.IsSpace] *)

Module unicode.

Definition MaxLatin1 : Z := 0xFF.

(** The part of the [White_Space] range table above Latin-1. *)
Definition White_Space_excludingLatin (r : Z) : bool :=
  (r =? 0x1680)
  || ((0x2000 <=? r) && (r <=? 0x200A))
  || ((0x2028 <=? r) && (r <=? 0x2029))
  || (r =? 0x202F) || (r =? 0x205F) || (r =? 0x3000).

(** [func IsSpace(r rune) bool]; [uint32(r) <= MaxLatin1] excludes the
    negative runes, which convert to large unsigned values. *)
Definition IsSpace (r : Z) : bool :=
  if (0 <=? r) && (r <=? MaxLatin1) then
    (r =? 0x09) || (r =? 0x0A) || (r =? 0x0B) || (r =? 0x0C) || (r =? 0x0D)
    || (r =? 0x20) || (r =? 0x85) || (r =? 0xA0)
  else White_Space_excludingLatin r.

End unicode.

(* ================================================================== *)
(** * [bytes]: [HasSuffix] and [TrimFunc] *)

Module bytes.

Definition byte_eqb (a b : byte) : bool := Byte.eqb a b.

Fixpoint Equal (a b : list byte) : bool :=
  match a, b with
  | [], [] => true
  | x :: a', y :: b' => byte_eqb x y && Equal a' b'
  | _, _ => false
  end.

(** [len(s) >= len(suffix) && Equal(s[len(s)-len(suffix):], suffix)] *)
Definition HasSuffix (s suffix : list byte) : bool :=
  (len s >=? len suffix) && Equal (slice_from s (len s - len suffix)) suffix.

(** [indexFunc]: the loop [for start < len(s)]; every turn advances
    [start] by at least one, so [length s] turns are enough. *)
Fixpoint indexFunc_loop (fuel : nat) (s : list byte) (f : Z -> bool)
         (truth : bool) (start : Z) : Z :=
  match fuel with
  | O => -1
  | S k =>
      if start <? len s then
        let r0 := Zb (at_ s start) in
        let '(r, wid) :=
          if r0 >=? utf8.RuneSelf then utf8.DecodeRune (slice_from s start)
          else (r0, 1) in
        if Bool.eqb (f r) truth then start
        else indexFunc_loop k s f truth (start + wid)
      else -1
  end.

Definition indexFunc (s : list byte) (f : Z -> bool) (truth : bool) : Z :=
  indexFunc_loop (List.length s) s f truth 0.

(** [lastIndexFunc]: the loop [for i := len(s); i > 0;]. *)
Fixpoint lastIndexFunc_loop (fuel : nat) (s : list byte) (f : Z -> bool)
         (truth : bool) (i : Z) : Z :=
  match fuel with
  | O => -1
  | S k =>
      if i >? 0 then
        let r0 := Zb (at_ s (i - 1)) in
        let '(r, size) :=
          if r0 >=? utf8.RuneSelf then utf8.DecodeLastRune (slice_to s i)
          else (r0, 1) in
        let i := i - size in
        if Bool.eqb (f r) truth then i
        else lastIndexFunc_loop k s f truth i
      else -1
  end.

Definition lastIndexFunc (s : list byte) (f : Z -> bool) (truth : bool) : Z :=
  lastIndexFunc_loop (length s) s f truth (len s).

Definition TrimLeftFunc (s : list byte) (f : Z -> bool) : list byte :=
  let i := indexFunc s f false in
  if i =? -1 then [] else slice_from s i.

Definition TrimRightFunc (s : list byte) (f : Z -> bool) : list byte :=
  let i := lastIndexFunc s f false in
  let i :=
    if (i >=? 0) && (Zb (at_ s i) >=? utf8.RuneSelf) then
      let '(_, wid) := utf8.DecodeRune (slice_from s i) in i + wid
    else i + 1 in
  slice_to s i.

Definition TrimFunc (s : list byte) (f : Z -> bool) : list byte :=
  TrimRightFunc (TrimLeftFunc s f) f.

End bytes.

Definition bytes_of_string (s : string) : list byte := list_byte_of_string s.

(* ================================================================== *)
(** * Errors *)

(** Go [error] values: the package's sentinel, [io.EOF], the messages the
    package builds with [fmt.Errorf], and errors raised by collaborators
    (transport, random source, compressor), which carry their text. *)
Inductive error : Type :=
| ErrMissingNewline
| EOF
| ErrOther (msg : string)
| ErrNoConnection
| ErrCompressionLevel (level : Z)
| ErrUniqueID (cause : error)
| ErrExceedsMaximumSize (length limit : Z)
| ErrReadingChunk (cause : error)
| ErrWritingUDP (cause : error).

Definition decimal (z : Z) : string := NilZero.string_of_int (Z.to_int z).

(** [err.Error()]: the format strings of the source, [%d] and [%+v] filled in. *)
Fixpoint Error (e : error) : string :=
  match e with
  | ErrMissingNewline => "missing newline terminating write"
  | EOF => "EOF"
  | ErrOther msg => msg
  | ErrNoConnection => "cannot create new Client without a connection"
  | ErrCompressionLevel l =>
      "compression level of " ++ decimal l ++ " is not a valid compression level"
  | ErrUniqueID c => "creating unique ID for logging client: " ++ Error c
  | ErrExceedsMaximumSize l m =>
      "message exceeds maximum size, " ++ decimal l ++ " > " ++ decimal m
  | ErrReadingChunk c => "reading into chunked response payload: " ++ Error c
  | ErrWritingUDP c => "writing to udp connection: " ++ Error c
  end%string.

(** [err != nil && err != io.EOF] *)
Definition failed (err : option error) : bool :=
  match err with
  | None => false
  | Some EOF => false
  | Some _ => true
  end.

(** A call either returns or panics (nil dereference). *)
Inductive Ret (A : Type) : Type :=
| Returns (a : A)
| Panics.
Arguments Returns {A} a.
Arguments Panics {A}.

(* ================================================================== *)
(** * Constants of the protocol *)

Definition mtuSize : Z := 1500.
Definition maxChunkSize : Z := 1420.
Definition maxChunkCount : Z := 128.
Definition gelfMagicByteA : byte := x1e.
Definition gelfMagicByteB : byte := x0f.

(* ================================================================== *)
(** * [bytes.Buffer] *)

(** A buffer is the list of its unread bytes: writes append, reads drain
    the front. *)
Definition Buffer : Type := list byte.

Module Buffer.

Definition Len (b : Buffer) : Z := len b.
Definition Reset (b : Buffer) : Buffer := [].
Definition Write (b : Buffer) (p : list byte) : Buffer := b ++ p.

(** [func (b *Buffer) Read(p []byte) (n int, err error)] with [len(p) = m];
    the bytes copied into [p] stand for [p[:n]]. *)
Definition Read (b : Buffer) (m : Z) : Buffer * (list byte * option error) :=
  match b with
  | [] => ([], ([], if m =? 0 then None else Some EOF))
  | _ => (slice_from b m, (slice_to b m, None))
  end.

End Buffer.

(* ================================================================== *)
(** * [compress/gzip] *)

(** The codec behind [gzip.Writer]: [gzip_stream level data] is the byte
    stream a writer of that level has put into its sink once [data] has
    been written and the writer closed; [gunzip] is the reader's side. *)
Class GzipCodec : Type := {
  gzip_stream : Z -> list byte -> list byte;
  gunzip : list byte -> option (list byte)
}.

Module gzip.

Definition NoCompression : Z := 0.
Definition BestSpeed : Z := 1.
Definition BestCompression : Z := 9.
Definition DefaultCompression : Z := -1.
Definition HuffmanOnly : Z := -2.

(** A writer bound to the buffer of its owner.  [pending] is what has been
    written since the last reset; the sink sees it when the writer is
    closed, which is the only moment the clients look at the sink. *)
Record Writer : Type := {
  level : Z;
  closed : bool;
  pending : list byte
}.

Definition NewWriterLevel (lvl : Z) : option Writer * option error :=
  if (lvl <? HuffmanOnly) || (lvl >? BestCompression) then
    (None, Some (ErrOther ("gzip: invalid compression level: " ++ decimal lvl)))
  else (Some {| level := lvl; closed := false; pending := [] |}, None).

(** The sink is a [bytes.Buffer], which never refuses a write, so an open
    writer consumes all of [p]; a closed one consumes nothing. *)
Definition Write (z : Writer) (p : list byte) : Writer * (Z * option error) :=
  if closed z then (z, (0, Some (ErrOther "flate: closed writer")))
  else ({| level := level z; closed := false; pending := pending z ++ p |},
        (len p, None)).

Section Codec.
Context {codec : GzipCodec}.

Definition Close (z : Writer) (sink : Buffer) : Writer * Buffer :=
  if closed z then (z, sink)
  else ({| level := level z; closed := true; pending := [] |},
        Buffer.Write sink (gzip_stream (level z) (pending z))).

End Codec.

Definition Reset (z : Writer) : Writer :=
  {| level := level z; closed := false; pending := [] |}.

Definition valid_level (lvl : Z) : Prop := HuffmanOnly <= lvl <= BestCompression.

End gzip.

(** What the clients rely on from the codec. *)
Definition codec_round_trip (codec : GzipCodec) : Prop :=
  forall lvl data, gzip.valid_level lvl -> gunzip (gzip_stream lvl data) = Some data.

(* ================================================================== *)
(** * [net.PacketConn] *)

Definition PacketConn : Type := nat.
Definition Addr : Type := string.

(** One call of [WriteTo], with the error it returned. *)
Record Sent : Type := {
  via : PacketConn;
  dest : option Addr;
  packet : list byte;
  failure : option error
}.

(** The transport: the calls made so far, and the oracle that decides
    whether the k-th call fails. *)
Record Net : Type := {
  outcome : nat -> option error;
  calls : list Sent
}.

Definition WriteTo (net : Net) (c : PacketConn) (p : list byte)
           (a : option Addr) : Net * option error :=
  let r := outcome net (length (calls net)) in
  ({| outcome := outcome net;
      calls := calls net ++ [{| via := c; dest := a; packet := p; failure := r |}] |},
   r).

(** The datagrams that went out. *)
Definition delivered (l : list Sent) : list (list byte) :=
  map packet (filter (fun s => match failure s with None => true | Some _ => false end) l).

(** The calls made after the first [k]. *)
Definition calls_since (k : nat) (net : Net) : list Sent := skipn k (calls net).

(* ================================================================== *)
(** * Code the three files share verbatim *)

Definition Array4 : Type := (byte * byte * byte * byte)%type.

Definition array4_bytes (a : Array4) : list byte :=
  let '(b0, b1, b2, b3) := a in [b0; b1; b2; b3].

Definition uint32 (z : Z) : Z := z mod 2 ^ 32.

(** [binary.LittleEndian.PutUint32] *)
Definition PutUint32 (v : Z) : list byte :=
  [u8 v; u8 (Z.shiftr v 8); u8 (Z.shiftr v 16); u8 (Z.shiftr v 24)].

(** [binary.LittleEndian.Uint32], the reader's side. *)
Definition Uint32 (b : list byte) : Z :=
  Z.lor (Z.lor (Z.lor (Zb (at_ b 0)) (Z.shiftl (Zb (at_ b 1)) 8))
               (Z.shiftl (Zb (at_ b 2)) 16))
        (Z.shiftl (Zb (at_ b 3)) 24).

(** The body of [messageID] on the two fields it touches: the counter is
    incremented first, so the first identifier carries 1. *)
Definition nextID (instanceID : Array4) (messageCount : Z) : list byte * Z :=
  let id := array4_bytes instanceID in
  let messageCount := uint32 (messageCount + 1) in
  let count := PutUint32 messageCount in
  (id ++ count, messageCount).

(** [count, rem := length/maxChunkSize, length%maxChunkSize; if rem > 0 { count++ }] *)
Definition chunkCount (length : Z) : Z :=
  let count := Z.quot length maxChunkSize in
  let rem := Z.rem length maxChunkSize in
  if rem >? 0 then count + 1 else count.

(** The header appended to the emptied [packet] at each turn. *)
Definition chunkHeader (id : list byte) (i count : Z) : list byte :=
  (([] ++ [gelfMagicByteA; gelfMagicByteB]) ++ slice_to id 8) ++ [u8 i; u8 count].

(** The loop [for i := 0; i < count; i++] that frames and sends the
    chunks; it is the same text in the three files, over [gl.conn],
    [gl.addr] and the local or shared buffer, or over the fields of the
    [message].  It ends with [None] when every chunk went out, with the
    error of the [return] it took otherwise. *)
Fixpoint sendChunks (fuel : nat) (i count : Z) (id : list byte)
         (conn : option PacketConn) (addr : option Addr)
         (buf : Buffer) (net : Net) : Ret (option error) * Buffer * Net :=
  match fuel with
  | O => (Returns None, buf, net)
  | S k =>
      if i <? count then
        let packet := chunkHeader id i count in
        let '(buf, (chunk, err)) := Buffer.Read buf maxChunkSize in
        if failed err then
          (Returns (option_map ErrReadingChunk err), buf, net)
        else
          let packet := packet ++ chunk in
          match conn with
          | None => (Panics, buf, net)
          | Some c =>
              let '(net, werr) := WriteTo net c packet addr in
              match werr with
              | Some e => (Returns (Some (ErrWritingUDP e)), buf, net)
              | None => sendChunks k (i + 1) count id conn addr buf net
              end
          end
      else (Returns None, buf, net)
  end.

Record Config : Type := {
  CompressionLevel : Z;
  ServerAddr : option Addr;
  ClientPacketConn : option PacketConn
}.

(** What [rand.Read(gl.instanceID[0:4])] did: the four bytes it left in
    the array and the error it returned. *)
Record RandRead : Type := {
  rand_bytes : Array4;
  rand_err : option error
}.

(** The level test of [New], the same in the three files. *)
Definition level_rejected (lvl : Z) : bool :=
  negb (lvl =? gzip.NoCompression) && negb (lvl =? gzip.DefaultCompression)
  && ((lvl >? gzip.BestCompression) || (lvl <? gzip.BestSpeed)).

(* ================================================================== *)
(** * [reduce.go], first file: a buffer and a compressor per [Write] *)

Module Reduce.

Record Client : Type := {
  compressionLevel : Z;
  instanceID : Array4;
  addr : option Addr;
  conn : option PacketConn;
  messageCount : Z
}.

Definition New (c : Config) (rnd : RandRead) : option Client * option error :=
  match ClientPacketConn c with
  | None => (None, Some ErrNoConnection)
  | Some _ =>
      if level_rejected (CompressionLevel c) then
        (None, Some (ErrCompressionLevel (CompressionLevel c)))
      else
        let gl := {| compressionLevel := CompressionLevel c;
                     instanceID := (x00, x00, x00, x00);
                     addr := ServerAddr c;
                     conn := ClientPacketConn c;
                     messageCount := 0 |} in
        let gl := {| compressionLevel := compressionLevel gl;
                     instanceID := rand_bytes rnd;
                     addr := addr gl;
                     conn := conn gl;
                     messageCount := messageCount gl |} in
        match rand_err rnd with
        | Some err => (None, Some (ErrUniqueID err))
        | None => (Some gl, None)
        end
  end.

Definition messageID (gl : Client) : list byte * Client :=
  let '(id, n) := nextID (instanceID gl) (messageCount gl) in
  (id, {| compressionLevel := compressionLevel gl;
          instanceID := instanceID gl;
          addr := addr gl;
          conn := conn gl;
          messageCount := n |}).

Section Codec.
Context {codec : GzipCodec}.

Definition Write (gl : Client) (net : Net) (p : list byte)
  : Ret (Z * option error) * Client * Net :=
  if len p =? 0 then (Returns (0, None), gl, net) else
  if negb (bytes.HasSuffix p [x0a]) then
    (Returns (0, Some ErrMissingNewline), gl, net)
  else
  let buf : Buffer := [] in
  match fst (gzip.NewWriterLevel (compressionLevel gl)) with
  | None => (Panics, gl, net)
  | Some zip =>
      let '(zip, (n, err)) :=
        gzip.Write zip (bytes.TrimFunc p unicode.IsSpace) in
      let '(zip, buf) := gzip.Close zip buf in
      if failed err then (Returns (0, err), gl, net) else
      let length := Buffer.Len buf in
      let count := chunkCount length in
      if count >? maxChunkCount then
        (Returns (0, Some (ErrExceedsMaximumSize length
                             (maxChunkCount * maxChunkSize))), gl, net)
      else
      let '(id, gl) := messageID gl in
      let '(r, buf, net) :=
        sendChunks (Z.to_nat count) 0 count id (conn gl) (addr gl) buf net in
      match r with
      | Panics => (Panics, gl, net)
      | Returns (Some e) => (Returns (0, Some e), gl, net)
      | Returns None => (Returns (n, None), gl, net)
      end
  end.

End Codec.

End Reduce.

(* ================================================================== *)
(** * [reduce.go], second file: one buffer and compressor, under [writeMux] *)

Module Reuse.

(** [countMux] and [writeMux] serialise callers; one caller at a time is
    what the embedding runs. *)
Record Client : Type := {
  instanceID : Array4;
  addr : option Addr;
  conn : option PacketConn;
  messageCount : Z;
  zip : option gzip.Writer;
  buf : Buffer
}.

Definition New (c : Config) (rnd : RandRead) : option Client * option error :=
  match ClientPacketConn c with
  | None => (None, Some ErrNoConnection)
  | Some _ =>
      if level_rejected (CompressionLevel c) then
        (None, Some (ErrCompressionLevel (CompressionLevel c)))
      else
        let gl := {| instanceID := (x00, x00, x00, x00);
                     addr := ServerAddr c;
                     conn := ClientPacketConn c;
                     messageCount := 0;
                     zip := fst (gzip.NewWriterLevel (CompressionLevel c));
                     buf := [] |} in
        let gl := {| instanceID := rand_bytes rnd;
                     addr := addr gl;
                     conn := conn gl;
                     messageCount := messageCount gl;
                     zip := zip gl;
                     buf := buf gl |} in
        match rand_err rnd with
        | Some err => (None, Some (ErrUniqueID err))
        | None => (Some gl, None)
        end
  end.

Definition messageID (gl : Client) : list byte * Client :=
  let '(id, n) := nextID (instanceID gl) (messageCount gl) in
  (id, {| instanceID := instanceID gl;
          addr := addr gl;
          conn := conn gl;
          messageCount := n;
          zip := zip gl;
          buf := buf gl |}).

Definition with_resource (gl : Client) (z : option gzip.Writer) (b : Buffer)
  : Client :=
  {| instanceID := instanceID gl;
     addr := addr gl;
     conn := conn gl;
     messageCount := messageCount gl;
     zip := z;
     buf := b |}.

(** The deferred function: [gl.buf.Reset(); gl.zip.Reset(&gl.buf)]. *)
Definition deferred (gl : Client) : Client :=
  let b := Buffer.Reset (buf gl) in
  with_resource gl (option_map gzip.Reset (zip gl)) b.

Section Codec.
Context {codec : GzipCodec}.

(** [Write] from [gl.writeMux.Lock()] on, up to its [return]. *)
Definition locked (gl : Client) (net : Net) (p : list byte)
  : Ret (Z * option error) * Client * Net :=
  match zip gl with
  | None => (Panics, gl, net)
  | Some z =>
      let '(z, (n, err)) := gzip.Write z (bytes.TrimFunc p unicode.IsSpace) in
      let '(z, b) := gzip.Close z (buf gl) in
      let gl := with_resource gl (Some z) b in
      if failed err then (Returns (0, err), gl, net) else
      let length := Buffer.Len (buf gl) in
      let count := chunkCount length in
      if count >? maxChunkCount then
        (Returns (0, Some (ErrExceedsMaximumSize length
                             (maxChunkCount * maxChunkSize))), gl, net)
      else
      let '(id, gl) := messageID gl in
      let '(r, b, net) :=
        sendChunks (Z.to_nat count) 0 count id (conn gl) (addr gl) (buf gl) net in
      let gl := with_resource gl (zip gl) b in
      match r with
      | Panics => (Panics, gl, net)
      | Returns (Some e) => (Returns (0, Some e), gl, net)
      | Returns None => (Returns (n, None), gl, net)
      end
  end.

Definition Write (gl : Client) (net : Net) (p : list byte)
  : Ret (Z * option error) * Client * Net :=
  if len p =? 0 then (Returns (0, None), gl, net) else
  if negb (bytes.HasSuffix p [x0a]) then
    (Returns (0, Some ErrMissingNewline), gl, net)
  else
  let '(r, gl, net) := locked gl net p in
  (r, deferred gl, net).

End Codec.

End Reuse.

(* ================================================================== *)
(** * The third file: messages recycled through a [sync.Pool] *)

Module Recycle.

Record message : Type := {
  buf : Buffer;
  zip : option gzip.Writer;
  id : list byte;
  conn : option PacketConn;
  addr : option Addr
}.

(** A [sync.Pool]: the level its [New] closure captured, and the values
    put back.  [Get] hands out a pooled value when there is one. *)
Record Pool : Type := {
  newLevel : Z;
  pooled : list message
}.

(** The [New] function of the pool. *)
Definition Pool_New (lvl : Z) : message :=
  {| buf := [];
     zip := fst (gzip.NewWriterLevel lvl);
     id := repeat x00 8;
     conn := None;
     addr := None |}.

Definition Get (pl : Pool) : message * Pool :=
  match pooled pl with
  | [] => (Pool_New (newLevel pl), pl)
  | m :: rest => (m, {| newLevel := newLevel pl; pooled := rest |})
  end.

Definition Put (pl : Pool) (m : message) : Pool :=
  {| newLevel := newLevel pl; pooled := m :: pooled pl |}.

Record Client : Type := {
  instanceID : Array4;
  gl_addr : option Addr;
  gl_conn : option PacketConn;
  messageCount : Z;
  msgPool : Pool
}.

Definition New (c : Config) (rnd : RandRead) : option Client * option error :=
  match ClientPacketConn c with
  | None => (None, Some ErrNoConnection)
  | Some _ =>
      if level_rejected (CompressionLevel c) then
        (None, Some (ErrCompressionLevel (CompressionLevel c)))
      else
        let gl := {| instanceID := (x00, x00, x00, x00);
                     gl_addr := ServerAddr c;
                     gl_conn := ClientPacketConn c;
                     messageCount := 0;
                     msgPool := {| newLevel := CompressionLevel c;
                                   pooled := [] |} |} in
        let gl := {| instanceID := rand_bytes rnd;
                     gl_addr := gl_addr gl;
                     gl_conn := gl_conn gl;
                     messageCount := messageCount gl;
                     msgPool := msgPool gl |} in
        match rand_err rnd with
        | Some err => (None, Some (ErrUniqueID err))
        | None => (Some gl, None)
        end
  end.

Definition with_state (gl : Client) (n : Z) (pl : Pool) : Client :=
  {| instanceID := instanceID gl;
     gl_addr := gl_addr gl;
     gl_conn := gl_conn gl;
     messageCount := n;
     msgPool := pl |}.

Definition messageID (gl : Client) : list byte * Client :=
  let '(id, n) := nextID (instanceID gl) (messageCount gl) in
  (id, with_state gl n (msgPool gl)).

Definition newMessage (gl : Client) : message * Client :=
  let '(msg, pl) := Get (msgPool gl) in
  let gl := with_state gl (messageCount gl) pl in
  let '(i, gl) := messageID gl in
  ({| buf := buf msg; zip := zip msg; id := i;
      conn := gl_conn gl; addr := gl_addr gl |}, gl).

Definition freeMessage (gl : Client) (msg : message) : Client :=
  let msg := {| buf := Buffer.Reset (buf msg);
                zip := option_map gzip.Reset (zip msg);
                id := repeat x00 8;
                conn := conn msg;
                addr := addr msg |} in
  with_state gl (messageCount gl) (Put (msgPool gl) msg).

Section Codec.
Context {codec : GzipCodec}.

(** [func (msg *message) Write(p []byte) (int, error)] *)
Definition message_Write (msg : message) (net : Net) (p : list byte)
  : Ret (Z * option error) * message * Net :=
  match zip msg with
  | None => (Panics, msg, net)
  | Some z =>
      let '(z, (n, err)) := gzip.Write z (bytes.TrimFunc p unicode.IsSpace) in
      let '(z, b) := gzip.Close z (buf msg) in
      let msg := {| buf := b; zip := Some z; id := id msg;
                    conn := conn msg; addr := addr msg |} in
      if failed err then (Returns (0, err), msg, net) else
      let length := Buffer.Len (buf msg) in
      let count := chunkCount length in
      if count >? maxChunkCount then
        (Returns (0, Some (ErrExceedsMaximumSize length
                             (maxChunkCount * maxChunkSize))), msg, net)
      else
      let '(r, b, net) :=
        sendChunks (Z.to_nat count) 0 count (id msg) (conn msg) (addr msg)
                   (buf msg) net in
      let msg := {| buf := b; zip := zip msg; id := id msg;
                    conn := conn msg; addr := addr msg |} in
      match r with
      | Panics => (Panics, msg, net)
      | Returns (Some e) => (Returns (0, Some e), msg, net)
      | Returns None => (Returns (n, None), msg, net)
      end
  end.

Definition Write (gl : Client) (net : Net) (p : list byte)
  : Ret (Z * option error) * Client * Net :=
  if len p =? 0 then (Returns (0, None), gl, net) else
  if negb (bytes.HasSuffix p [x0a]) then
    (Returns (0, Some ErrMissingNewline), gl, net)
  else
  let '(msg, gl) := newMessage gl in
  let '(r, msg, net) := message_Write msg net p in
  (r, freeMessage gl msg, net).

End Codec.

End Recycle.

(* ================================================================== *)
(** * The receiving side, and the vocabulary of the statements *)

(** Fields of a chunk datagram, by the offsets of the wire format. *)
Definition chunk_magic (pkt : list byte) : list byte := slice_to pkt 2.
Definition chunk_id (pkt : list byte) : list byte := slice_to (slice_from pkt 2) 8.
Definition chunk_seq (pkt : list byte) : Z := Zb (at_ pkt 10).
Definition chunk_total (pkt : list byte) : Z := Zb (at_ pkt 11).
Definition chunk_payload (pkt : list byte) : list byte := slice_from pkt 12.

(** Chunks put in sequence-index order (insertion sort, stable). *)
Fixpoint insert_by_seq (pkt : list byte) (l : list (list byte)) : list (list byte) :=
  match l with
  | [] => [pkt]
  | q :: l' =>
      if chunk_seq pkt <? chunk_seq q then pkt :: l
      else q :: insert_by_seq pkt l'
  end.

Fixpoint sort_by_seq (l : list (list byte)) : list (list byte) :=
  match l with
  | [] => []
  | pkt :: l' => insert_by_seq pkt (sort_by_seq l')
  end.

Definition seq_lt (a b : list byte) : Prop := chunk_seq a < chunk_seq b.

(** Reassembly: the payloads of the chunks, in sequence-index order. *)
Definition reassemble (pkts : list (list byte)) : list byte :=
  List.concat (map chunk_payload (sort_by_seq pkts)).

(** The i-th slice of a compressed stream. *)
Definition slice_of (stream : list byte) (i : Z) : list byte :=
  slice_to (slice_from stream (i * maxChunkSize)) maxChunkSize.

(** The datagram the layout of the wire format prescribes for chunk [i]. *)
Definition datagram (id : list byte) (i count : Z) (stream : list byte) : list byte :=
  [x1e; x0f] ++ id ++ [u8 i; u8 count] ++ slice_of stream i.

Definition indices (count : Z) : list Z := map Z.of_nat (seq 0 (Z.to_nat count)).

Definition datagrams (id : list byte) (count : Z) (stream : list byte)
  : list (list byte) :=
  map (fun i => datagram id i count stream) (indices count).

(** A call of [WriteTo] that went through, and one that failed. *)
Definition sent_ok (c : PacketConn) (a : option Addr) (pkt : list byte) : Sent :=
  {| via := c; dest := a; packet := pkt; failure := None |}.

Definition sent_failed (c : PacketConn) (a : option Addr) (e : error)
           (pkt : list byte) : Sent :=
  {| via := c; dest := a; packet := pkt; failure := Some e |}.

(** The calls a [Write] added to the transport that had [before]. *)
Definition sent_by (before after : Net) : list Sent :=
  calls_since (length (calls before)) after.

(** The compressed payload of an input line: the gzip stream of the
    trimmed line. *)
Definition compressed {codec : GzipCodec} (lvl : Z) (p : list byte) : list byte :=
  gzip_stream lvl (bytes.TrimFunc p unicode.IsSpace).

(** The transport accepts the next [k] calls. *)
Definition accepts (net : Net) (k : Z) : Prop :=
  forall j : nat, (Z.of_nat j < k) -> outcome net (length (calls net) + j)%nat = None.

(** [ws] are the code points the bytes [p] spell in UTF-8. *)
Definition spells (ws : list Z) (p : list byte) : Prop :=
  p = flat_map utf8.EncodeRune ws.

Definition newline : list byte := [x0a].

(** The line ends with a newline byte. *)
Definition newline_terminated (p : list byte) : Prop := exists q, p = q ++ newline.

(** [n] calls of [messageID] in a row on one client, with the
    identifiers they return in the order of the calls. *)
Fixpoint messageIDs (n : nat) (gl : Reduce.Client)
  : list (list byte) * Reduce.Client :=
  match n with
  | O => ([], gl)
  | S k =>
      let '(id, gl) := Reduce.messageID gl in
      let '(ids, gl) := messageIDs k gl in
      (id :: ids, gl)
  end.

(** An open writer with nothing pending: what [NewWriterLevel] and
    [Reset] produce. *)
Definition open_writer (lvl : Z) : gzip.Writer :=
  {| gzip.level := lvl; gzip.closed := false; gzip.pending := [] |}.

(** The encoding resource is ready for a message: the accumulator is
    empty and the compressor is open on it with nothing pending. *)
Definition Reuse_ready (lvl : Z) (gl : Reuse.Client) : Prop :=
  gzip.valid_level lvl
  /\ Reuse.buf gl = []
  /\ Reuse.zip gl = Some (open_writer lvl).

Definition message_ready (lvl : Z) (m : Recycle.message) : Prop :=
  Recycle.buf m = [] /\ Recycle.zip m = Some (open_writer lvl).

Definition Recycle_ready (gl : Recycle.Client) : Prop :=
  gzip.valid_level (Recycle.newLevel (Recycle.msgPool gl))
  /\ Forall (message_ready (Recycle.newLevel (Recycle.msgPool gl)))
            (Recycle.pooled (Recycle.msgPool gl)).

(** The client, and the transport, a call of [Write] leaves. *)
Definition client_after {C : Type} (r : Ret (Z * option error) * C * Net) : C :=
  snd (fst r).
Definition net_after {C : Type} (r : Ret (Z * option error) * C * Net) : Net :=
  snd r.
Definition returned {C : Type} (r : Ret (Z * option error) * C * Net)
  : Ret (Z * option error) := fst (fst r).

(** The datagrams the loop builds in [fuel] turns from index [i], the
    buffer it leaves, and the transport after a list of calls. *)
Fixpoint frames (fuel : nat) (i count : Z) (id : list byte) (buf : Buffer)
  : list (list byte) :=
  match fuel with
  | O => []
  | S k =>
      (chunkHeader id i count ++ slice_to buf maxChunkSize)
        :: frames k (i + 1) count id (slice_from buf maxChunkSize)
  end.

Fixpoint drain (fuel : nat) (buf : Buffer) : Buffer :=
  match fuel with
  | O => buf
  | S k => drain k (slice_from buf maxChunkSize)
  end.

Definition extend (net : Net) (l : list Sent) : Net :=
  {| outcome := outcome net; calls := calls net ++ l |}.

(* ================================================================== *)
(** * A codec to run the clients with

    The gzip member [compress/gzip] writes at level [NoCompression]: the
    ten-byte header (no name, no time, unknown system), the data in
    stored deflate blocks of at most 65535 bytes, an empty final stored
    block, then CRC-32 and length.  At the other levels the library
    compresses; the instance below stores at every level, which is a
    valid member as well. *)

(** CRC-32 (IEEE 802.3), bit by bit. *)
Definition crc32_shift (crc : Z) : Z :=
  if Z.odd crc then Z.lxor (Z.shiftr crc 1) 0xEDB88320 else Z.shiftr crc 1.

Definition crc32_update (crc : Z) (b : byte) : Z :=
  Nat.iter 8 crc32_shift (Z.lxor crc (Zb b)).

Definition crc32 (data : list byte) : Z :=
  Z.lxor (fold_left crc32_update data 0xFFFFFFFF) 0xFFFFFFFF.

Definition PutUint16 (v : Z) : list byte := [u8 v; u8 (Z.shiftr v 8)].
Definition Uint16 (b0 b1 : byte) : Z := Z.lor (Zb b0) (Z.shiftl (Zb b1) 8).

Definition maxStoreBlockSize : Z := 65535.

Definition member_header (lvl : Z) : list byte :=
  [x1f; x8b; x08; x00; x00; x00; x00; x00;
   if lvl =? 9 then x02 else if lvl =? 1 then x04 else x00;
   xff].

Definition stored_header (final : bool) (n : Z) : list byte :=
  [if final then x01 else x00] ++ PutUint16 n ++ PutUint16 (Z.lxor n 0xFFFF).

Fixpoint stored_blocks (fuel : nat) (data : list byte) : list byte :=
  match fuel with
  | O => []
  | S k =>
      match data with
      | [] => []
      | _ =>
          let block := slice_to data maxStoreBlockSize in
          stored_header false (len block) ++ block
            ++ stored_blocks k (slice_from data maxStoreBlockSize)
      end
  end.

Definition member_trailer (data : list byte) : list byte :=
  PutUint32 (crc32 data) ++ PutUint32 (uint32 (len data)).

Definition stored_gzip (lvl : Z) (data : list byte) : list byte :=
  member_header lvl ++ stored_blocks (length data) data
    ++ stored_header true 0 ++ member_trailer data.

Fixpoint inflate_stored (fuel : nat) (s acc : list byte)
  : option (list byte * list byte) :=
  match fuel with
  | O => None
  | S k =>
      match s with
      | h :: l0 :: l1 :: n0 :: n1 :: rest =>
          let n := Uint16 l0 l1 in
          if negb (Z.land (Z.shiftr (Zb h) 1) 3 =? 0) then None
          else if negb (Z.lxor n (Uint16 n0 n1) =? 0xFFFF) then None
          else if len rest <? n then None
          else
            let acc := acc ++ slice_to rest n in
            if Z.odd (Zb h) then Some (acc, slice_from rest n)
            else inflate_stored k (slice_from rest n) acc
      | _ => None
      end
  end.

Definition stored_gunzip (s : list byte) : option (list byte) :=
  match s with
  | id1 :: id2 :: cm :: flg :: _ :: _ :: _ :: _ :: _ :: _ :: body =>
      if Byte.eqb id1 x1f && Byte.eqb id2 x8b && Byte.eqb cm x08
         && Byte.eqb flg x00 then
        match inflate_stored (length body) body [] with
        | Some (data, trailer) =>
            if bytes.Equal trailer (member_trailer data) then Some data
            else None
        | None => None
        end
      else None
  | _ => None
  end.

#[local] Instance stored : GzipCodec := {|
  gzip_stream := stored_gzip;
  gunzip := stored_gunzip
|}.

(* ================================================================== *)
(** * Concrete clients, transports and inputs for the examples *)

(** A transport that accepts every call, and one whose k-th call fails. *)
Definition quiet : Net := {| outcome := fun _ => None; calls := [] |}.

Definition failing_at (k : nat) (e : error) : Net :=
  {| outcome := fun i => if Nat.eqb i k then Some e else None; calls := [] |}.

Definition unreachable : error := ErrOther "sendto: network is unreachable".

Definition demo_config : Config :=
  {| CompressionLevel := gzip.NoCompression;
     ServerAddr := Some "127.0.0.1:12201"%string;
     ClientPacketConn := Some 1%nat |}.

Definition demo_rand : RandRead :=
  {| rand_bytes := (xde, xad, xbe, xef); rand_err := None |}.

Definition demo_reduce : Reduce.Client :=
  {| Reduce.compressionLevel := gzip.NoCompression;
     Reduce.instanceID := (xde, xad, xbe, xef);
     Reduce.addr := Some "127.0.0.1:12201"%string;
     Reduce.conn := Some 1%nat;
     Reduce.messageCount := 0 |}.

(** ["  hello\n"], and a line of [n] letters. *)
Definition hello : list byte := bytes_of_string "  hello" ++ newline.
Definition line_of (n : Z) : list byte := repeat "a"%byte (Z.to_nat n) ++ newline.

Definition demo_reuse : Reuse.Client :=
  {| Reuse.instanceID := (xde, xad, xbe, xef);
     Reuse.addr := Some "127.0.0.1:12201"%string;
     Reuse.conn := Some 1%nat;
     Reuse.messageCount := 0;
     Reuse.zip := Some (open_writer gzip.NoCompression);
     Reuse.buf := [] |}.

Definition demo_recycle : Recycle.Client :=
  {| Recycle.instanceID := (xde, xad, xbe, xef);
     Recycle.gl_addr := Some "127.0.0.1:12201"%string;
     Recycle.gl_conn := Some 1%nat;
     Recycle.messageCount := 0;
     Recycle.msgPool := {| Recycle.newLevel := gzip.NoCompression;
                           Recycle.pooled := [] |} |}.

(** A configuration with a transport and no destination address. *)
Definition no_address : Config :=
  {| CompressionLevel := gzip.NoCompression;
     ServerAddr := None;
     ClientPacketConn := Some 1%nat |}.

(** A configuration with a destination address and no transport. *)
Definition no_transport : Config :=
  {| CompressionLevel := gzip.NoCompression;
     ServerAddr := Some "127.0.0.1:12201"%string;
     ClientPacketConn := None |}.

(** A space, U+3000 and a newline: white space from end to end. *)
Definition blank_line : list byte := [x20; xe3; x80; x80; x0a].

(* ================================================================== *)
(** * Leading and trailing white space, as the specification words it *)

(** The UTF-8 encodings of the characters with the Unicode property
    White_Space: U+0009 to U+000D, U+0020, U+0085, U+00A0, U+1680,
    U+2000 to U+200A, U+2028, U+2029, U+202F, U+205F and U+3000. *)
Definition White_Space_utf8 : list (list byte) :=
  [[x09]; [x0a]; [x0b]; [x0c]; [x0d]; [x20];
   [xc2; x85]; [xc2; xa0];
   [xe1; x9a; x80];
   [xe2; x80; x80]; [xe2; x80; x81]; [xe2; x80; x82]; [xe2; x80; x83];
   [xe2; x80; x84]; [xe2; x80; x85]; [xe2; x80; x86]; [xe2; x80; x87];
   [xe2; x80; x88]; [xe2; x80; x89]; [xe2; x80; x8a];
   [xe2; x80; xa8]; [xe2; x80; xa9]; [xe2; x80; xaf];
   [xe2; x81; x9f];
   [xe3; x80; x80]].

(** [s] is white space from end to end: white-space characters, one
    after the other. *)
Definition blank (s : list byte) : Prop :=
  exists us, Forall (fun u => In u White_Space_utf8) us /\ s = List.concat us.

(** [t] begins with a white-space character; [t] ends with one. *)
Definition starts_blank (t : list byte) : Prop :=
  exists u rest, In u White_Space_utf8 /\ t = u ++ rest.

Definition ends_blank (t : list byte) : Prop :=
  exists u init, In u White_Space_utf8 /\ t = init ++ u.

(** [t] is [p] with its leading and trailing white space stripped: what
    is left of [p] once white space is taken from its two ends, until
    none is left there. *)
Definition stripped (p t : list byte) : Prop :=
  exists pre post,
    p = pre ++ t ++ post
    /\ blank pre /\ blank post
    /\ ~ starts_blank t /\ ~ ends_blank t.

(** The tests behind [starts_blank] and [ends_blank]. *)
Fixpoint prefixb (u t : list byte) : bool :=
  match u, t with
  | [], _ => true
  | x :: u', y :: t' => Byte.eqb x y && prefixb u' t'
  | _ :: _, [] => false
  end.

Definition starts_blankb (t : list byte) : bool :=
  existsb (fun u => prefixb u t) White_Space_utf8.

Definition ends_blankb (t : list byte) : bool :=
  existsb (fun u => prefixb (rev u) (rev t)) White_Space_utf8.

(** The rune [indexFunc] looks at when it is at the head of [s], and the
    one [lastIndexFunc] looks at when it is at the end of [q], each with
    its width. *)
Definition rune_at_head (s : list byte) : Z * Z :=
  if Zb (hd x00 s) >=? utf8.RuneSelf then utf8.DecodeRune s
  else (Zb (hd x00 s), 1).

Definition rune_at_end (q : list byte) : Z * Z :=
  if Zb (last q x00) >=? utf8.RuneSelf then utf8.DecodeLastRune q
  else (Zb (last q x00), 1).
(* ================================================================== *)
(** * Several calls in a row, and the three versions side by side *)

(** The calls [Write(p)] for the [p] of a list, one after the other on
    the same client; a panic ends the program. *)
Fixpoint run {C : Type}
         (W : C -> Net -> list byte -> Ret (Z * option error) * C * Net)
         (ps : list (list byte)) (gl : C) (net : Net)
  : list (Ret (Z * option error)) * C * Net :=
  match ps with
  | [] => ([], gl, net)
  | p :: ps' =>
      let '(r, gl, net) := W gl net p in
      match r with
      | Panics => ([Panics], gl, net)
      | Returns _ =>
          let '(rs, gl, net) := run W ps' gl net in
          (r :: rs, gl, net)
      end
  end.

(** A client of the second file that stands where a client of the first
    stands: same tag, destination, transport and counter, and its
    compressor open at the level of the first on an empty buffer. *)
Definition Reuse_matches (r : Reduce.Client) (u : Reuse.Client) : Prop :=
  Reuse.instanceID u = Reduce.instanceID r
  /\ Reuse.addr u = Reduce.addr r
  /\ Reuse.conn u = Reduce.conn r
  /\ Reuse.messageCount u = Reduce.messageCount r
  /\ Reuse_ready (Reduce.compressionLevel r) u.

(** The same for a client of the third file, but for the counter. *)
Definition Recycle_matches (r : Reduce.Client) (c : Recycle.Client) : Prop :=
  Recycle.instanceID c = Reduce.instanceID r
  /\ Recycle.gl_addr c = Reduce.addr r
  /\ Recycle.gl_conn c = Reduce.conn r
  /\ Recycle.newLevel (Recycle.msgPool c) = Reduce.compressionLevel r
  /\ Recycle_ready c.

(** The levels [New] lets through. *)
Definition level_allowed (lvl : Z) : Prop :=
  lvl = gzip.NoCompression \/ lvl = gzip.DefaultCompression
  \/ gzip.BestSpeed <= lvl <= gzip.BestCompression.

(** A call of [WriteTo] made for a message of identifier [id] through
    [conn] to [addr]: a framed chunk that fits the packet buffer. *)
Definition framed (id : list byte) (conn : option PacketConn)
           (addr : option Addr) (s : Sent) : Prop :=
  conn = Some (via s)
  /\ dest s = addr
  /\ chunk_magic (packet s) = [gelfMagicByteA; gelfMagicByteB]
  /\ chunk_id (packet s) = id
  /\ len (packet s) <= 12 + maxChunkSize.


(** The client can send: it has a transport, and its level is one the
    compressor takes. *)
Definition Reduce_usable (gl : Reduce.Client) : Prop :=
  Reduce.conn gl <> None /\ gzip.valid_level (Reduce.compressionLevel gl).

(** The transport raises [e] at some call. *)
Definition raises (net : Net) (e : error) : Prop := exists j, outcome net j = Some e.

(** The message [freeMessage] puts back into the pool of [gl]: emptied,
    its compressor open, its identifier zeroed; the transport and the
    address [newMessage] gave it stay. *)
Definition recycled (gl : Recycle.Client) : Recycle.message :=
  {| Recycle.buf := [];
     Recycle.zip := Some (open_writer (Recycle.newLevel (Recycle.msgPool gl)));
     Recycle.id := repeat x00 8;
     Recycle.conn := Recycle.gl_conn gl;
     Recycle.addr := Recycle.gl_addr gl |}.

(** The client of the third version after a line that got past the input
    checks: the counter has advanced and the message is back in the pool,
    in the place of the one [Get] took, if any. *)
Definition Recycle_served (gl : Recycle.Client) : Recycle.Client :=
  Recycle.with_state gl
    (snd (nextID (Recycle.instanceID gl) (Recycle.messageCount gl)))
    {| Recycle.newLevel := Recycle.newLevel (Recycle.msgPool gl);
       Recycle.pooled := recycled gl :: tl (Recycle.pooled (Recycle.msgPool gl)) |}.

Definition Recycle_usable (gl : Recycle.Client) : Prop :=
  Recycle.gl_conn gl <> None /\ Recycle_ready gl.

(* ================================================================== *)
(** * [sync.Pool], whatever it does

    [Recycle.Get] hands out the value put back last and the pool of the
    model keeps all it is given.  A [sync.Pool] promises less: [Get] may
    hand out any value the pool holds, or ignore them and call [New], and
    the pool may drop values at any time.  Below, [Write] of the third
    file over a pool that does as it likes. *)

(** Dropping: [keep] tells for the values in turn whether they stay;
    those it does not reach stay. *)
Fixpoint keep_some {A : Type} (keep : list bool) (l : list A) : list A :=
  match l, keep with
  | [], _ => []
  | _, [] => l
  | x :: l', true :: keep' => x :: keep_some keep' l'
  | _ :: l', false :: keep' => keep_some keep' l'
  end.

Definition Pool_drop (keep : list bool) (pl : Recycle.Pool) : Recycle.Pool :=
  {| Recycle.newLevel := Recycle.newLevel pl;
     Recycle.pooled := keep_some keep (Recycle.pooled pl) |}.

(** [Get]: the [i]-th value the pool holds, taken out of it, or the
    value [New] makes. *)
Definition Pool_Get_any (pick : option nat) (pl : Recycle.Pool)
  : Recycle.message * Recycle.Pool :=
  match pick with
  | None => (Recycle.Pool_New (Recycle.newLevel pl), pl)
  | Some i =>
      match nth_error (Recycle.pooled pl) i with
      | Some m =>
          (m, {| Recycle.newLevel := Recycle.newLevel pl;
                 Recycle.pooled := firstn i (Recycle.pooled pl)
                                   ++ skipn (S i) (Recycle.pooled pl) |})
      | None => (Recycle.Pool_New (Recycle.newLevel pl), pl)
      end
  end.

(** What the pool does around one call of [Write]: what it has dropped
    since the call before, and what [Get] hands out. *)
Record PoolMove : Type := {
  dropped : list bool;
  picked : option nat
}.

(** [newMessage] and [Write] of the third file, over such a pool. *)
Definition newMessage_any (mv : PoolMove) (gl : Recycle.Client)
  : Recycle.message * Recycle.Client :=
  let '(msg, pl) := Pool_Get_any (picked mv) (Recycle.msgPool gl) in
  let gl := Recycle.with_state gl (Recycle.messageCount gl) pl in
  let '(i, gl) := Recycle.messageID gl in
  ({| Recycle.buf := Recycle.buf msg; Recycle.zip := Recycle.zip msg;
      Recycle.id := i;
      Recycle.conn := Recycle.gl_conn gl; Recycle.addr := Recycle.gl_addr gl |},
   gl).

Definition Write_any {codec : GzipCodec} (mv : PoolMove) (gl : Recycle.Client)
           (net : Net) (p : list byte)
  : Ret (Z * option error) * Recycle.Client * Net :=
  let gl := Recycle.with_state gl (Recycle.messageCount gl)
                               (Pool_drop (dropped mv) (Recycle.msgPool gl)) in
  if len p =? 0 then (Returns (0, None), gl, net) else
  if negb (bytes.HasSuffix p [x0a]) then
    (Returns (0, Some ErrMissingNewline), gl, net)
  else
  let '(msg, gl) := newMessage_any mv gl in
  let '(r, msg, net) := Recycle.message_Write msg net p in
  (r, Recycle.freeMessage gl msg, net).

(** Calls in a row, each with what the pool does around it. *)
Fixpoint run_any {codec : GzipCodec} (calls : list (PoolMove * list byte))
         (gl : Recycle.Client) (net : Net)
  : list (Ret (Z * option error)) * Recycle.Client * Net :=
  match calls with
  | [] => ([], gl, net)
  | (mv, p) :: calls' =>
      let '(r, gl, net) := Write_any mv gl net p in
      match r with
      | Panics => ([Panics], gl, net)
      | Returns _ =>
          let '(rs, gl, net) := run_any calls' gl net in
          (r :: rs, gl, net)
      end
  end.

(** Two clients of the third file that differ in what their pools hold
    at most, both pools holding messages that are ready. *)
Definition same_but_pool (a b : Recycle.Client) : Prop :=
  Recycle.instanceID a = Recycle.instanceID b
  /\ Recycle.gl_addr a = Recycle.gl_addr b
  /\ Recycle.gl_conn a = Recycle.gl_conn b
  /\ Recycle.messageCount a = Recycle.messageCount b
  /\ Recycle.newLevel (Recycle.msgPool a) = Recycle.newLevel (Recycle.msgPool b)
  /\ Recycle_ready a /\ Recycle_ready b.

(* ================================================================== *)
(** * [io.Writer], and [bufio.Writer] over it *)

(** The writer under the pool: the slices it was called with so far, and
    what its k-th call answers.  It keeps the contract of [io.Writer]:
    [0 <= n <= len(p)], and an error whenever [n < len(p)]; [None] is the
    call that takes all of [p]. *)
Record Sink : Type := {
  answer : nat -> option (Z * error);
  written : list (list byte)
}.

Definition Sink_Write (s : Sink) (p : list byte) : Sink * (Z * option error) :=
  ({| answer := answer s; written := written s ++ [p] |},
   match answer s (length (written s)) with
   | None => (len p, None)
   | Some (n, e) => (Z.max 0 (Z.min n (len p)), Some e)
   end).

Definition is_nil (e : option error) : bool :=
  match e with
  | None => true
  | Some _ => false
  end.

Module bufio.

Definition defaultBufSize : Z := 4096.

(** [io.ErrShortWrite] *)
Definition ErrShortWrite : error := ErrOther "short write".

(** [buf] is [b.buf[0:b.n]], the bytes not yet flushed; the array behind
    it has [defaultBufSize] bytes. *)
Record Writer : Type := {
  err : option error;
  buf : list byte
}.

(** [bufio.NewWriter(uw)] *)
Definition NewWriter : Writer := {| err := None; buf := [] |}.

Definition Available (b : Writer) : Z := defaultBufSize - len (buf b).
Definition Buffered (b : Writer) : Z := len (buf b).

(** [func (b *Writer) Flush() error].  After a failed write the first
    [n] bytes are gone from the buffer and the error stays in [b.err]. *)
Definition Flush (b : Writer) (uw : Sink) : Writer * Sink * option error :=
  match err b with
  | Some e => (b, uw, Some e)
  | None =>
      if len (buf b) =? 0 then (b, uw, None) else
      let '(uw, (n, e)) := Sink_Write uw (buf b) in
      let e := if (n <? len (buf b)) && is_nil e then Some ErrShortWrite else e in
      match e with
      | Some e' => ({| err := Some e'; buf := slice_from (buf b) n |}, uw, Some e')
      | None => ({| err := None; buf := [] |}, uw, None)
      end
  end.

(** The loop [for len(p) > b.Available() && b.err == nil] of [Write]: a
    large write on an empty buffer goes straight to the underlying
    writer, otherwise the buffer is filled and flushed. *)
Fixpoint Write_loop (turns : nat) (b : Writer) (uw : Sink) (p : list byte) (nn : Z)
  : Writer * Sink * list byte * Z :=
  match turns with
  | O => (b, uw, p, nn)
  | S k =>
      if (len p >? Available b) && is_nil (err b) then
        if Buffered b =? 0 then
          let '(uw, (n, e)) := Sink_Write uw p in
          Write_loop k {| err := e; buf := buf b |} uw (slice_from p n) (nn + n)
        else
          let n := Z.min (len p) (Available b) in
          let b := {| err := err b; buf := buf b ++ slice_to p n |} in
          let '(b, uw, _) := Flush b uw in
          Write_loop k b uw (slice_from p n) (nn + n)
      else (b, uw, p, nn)
  end.

(** [func (b *Writer) Write(p []byte) (nn int, err error)].  Over a
    writer that keeps its contract the loop is left after two turns at
    most ([Write_loop_exits]). *)
Definition Write (b : Writer) (uw : Sink) (p : list byte)
  : Writer * Sink * (Z * option error) :=
  let '(b, uw, p, nn) := Write_loop 2 b uw p 0 in
  match err b with
  | Some e => (b, uw, (nn, Some e))
  | None =>
      let n := Z.min (len p) (Available b) in
      ({| err := None; buf := buf b ++ slice_to p n |}, uw, (nn + n, None))
  end.

(** [func (b *Writer) Reset(w io.Writer)], with the writer it had. *)
Definition Reset (b : Writer) : Writer := {| err := None; buf := [] |}.

End bufio.

(* ================================================================== *)
(** * [workers.go]: writers behind a channel *)

(** [func (w *muxWriter) Write(p []byte) (int, error)]: the call of the
    writer it wraps, under [w.mu]; the sleep changes no value. *)
Definition muxWriter_Write (w : Sink) (p : list byte) : Sink * (Z * option error) :=
  Sink_Write w p.

(** Where a goroutine of [NewWriter] stands, with its [buf] and [res]. *)
Inductive Worker : Type :=
| Idle (b : bufio.Writer)
    (* at [for arg := range ch] *)
| Got (b : bufio.Writer) (p : list byte)
    (* [arg] received, before [buf.Write(arg.p)] *)
| Wrote (b : bufio.Writer) (res : Z * option error)
    (* before [buf.Flush()] *)
| Flushed (b : bufio.Writer) (res : Z * option error)
    (* at [arg.resCh <- res] *)
| Resetting (b : bufio.Writer)
    (* result taken, before [buf.Reset(uw)] and [res.n, res.err = 0, nil] *)
| Exited.
    (* the channel was closed: [w.wg.Done()] *)

(** Where [main] stands: in [w.Write] at [w.ch <- writeArgs{...}] for
    the first of the messages left (at [w.Close()] when none is left), in
    [w.Write] at [<-resCh], in [w.Close()] at [w.wg.Wait()], or past
    it. *)
Inductive Main : Type :=
| Sending (todo : list (list byte))
| Awaiting (todo : list (list byte))
| Waiting
| Finished.

(** The program: [main], the goroutines, the channel [w.ch], the writer
    [uw], and the pairs [w.Write] returned so far. *)
Record System : Type := {
  main_at : Main;
  goroutines : list Worker;
  ch_closed : bool;
  uw : Sink;
  results : list (Z * option error)
}.

Definition is_exited (g : Worker) : bool :=
  match g with
  | Exited => true
  | _ => false
  end.

Definition set_worker (st : System) (i : nat) (g : Worker) : list Worker :=
  firstn i (goroutines st) ++ g :: skipn (S i) (goroutines st).

(** One step of [main] on its own: [close(w.ch)] once the messages are
    written, and the return of [w.wg.Wait()] once every goroutine is
    done. *)
Definition step_main (st : System) : option System :=
  match main_at st with
  | Sending [] =>
      Some {| main_at := Waiting; goroutines := goroutines st; ch_closed := true;
              uw := uw st; results := results st |}
  | Waiting =>
      if forallb is_exited (goroutines st) then
        Some {| main_at := Finished; goroutines := goroutines st;
                ch_closed := ch_closed st; uw := uw st; results := results st |}
      else None
  | _ => None
  end.

(** One step of goroutine [i].  The two channels are unbuffered: the
    receive from [w.ch] and the send on [arg.resCh] are steps of the
    goroutine and of [main] together. *)
Definition step_worker (i : nat) (st : System) : option System :=
  match nth_error (goroutines st) i with
  | None => None
  | Some (Idle b) =>
      if ch_closed st then
        Some {| main_at := main_at st; goroutines := set_worker st i Exited;
                ch_closed := ch_closed st; uw := uw st; results := results st |}
      else
        match main_at st with
        | Sending (p :: todo) =>
            Some {| main_at := Awaiting todo; goroutines := set_worker st i (Got b p);
                    ch_closed := ch_closed st; uw := uw st; results := results st |}
        | _ => None
        end
  | Some (Got b p) =>
      let '(b, w, res) := bufio.Write b (uw st) p in
      Some {| main_at := main_at st; goroutines := set_worker st i (Wrote b res);
              ch_closed := ch_closed st; uw := w; results := results st |}
  | Some (Wrote b res) =>
      let '(b, w, _) := bufio.Flush b (uw st) in
      Some {| main_at := main_at st; goroutines := set_worker st i (Flushed b res);
              ch_closed := ch_closed st; uw := w; results := results st |}
  | Some (Flushed b res) =>
      match main_at st with
      | Awaiting todo =>
          Some {| main_at := Sending todo; goroutines := set_worker st i (Resetting b);
                  ch_closed := ch_closed st; uw := uw st;
                  results := results st ++ [res] |}
      | _ => None
      end
  | Some (Resetting b) =>
      Some {| main_at := main_at st; goroutines := set_worker st i (Idle (bufio.Reset b));
              ch_closed := ch_closed st; uw := uw st; results := results st |}
  | Some Exited => None
  end.

(** The scheduler picks [main] (0) or a goroutine (its number plus one). *)
Definition step (g : nat) (st : System) : option System :=
  match g with
  | O => step_main st
  | S i => step_worker i st
  end.

(** A run of [n] steps from [st] to [st'], whatever the scheduler
    picked. *)
Inductive runs (st : System) : nat -> System -> Prop :=
| runs_O : runs st 0 st
| runs_S (n g : nat) (st' st'' : System) :
    runs st n st' -> step g st' = Some st'' -> runs st (S n) st''.

(** The run of a list of scheduler picks; a pick that cannot move is
    skipped. *)
Fixpoint schedule (picks : list nat) (st : System) : System :=
  match picks with
  | [] => st
  | g :: picks' =>
      match step g st with
      | Some st' => schedule picks' st'
      | None => schedule picks' st
      end
  end.

(** [w := NewWriter(capacity, &uw)] followed by the loop of [main] over
    [messages] and [w.Close()]: the state once the goroutines are
    started. *)
Definition boot (capacity : Z) (messages : list (list byte)) (w : Sink) : System :=
  {| main_at := Sending messages;
     goroutines := repeat (Idle bufio.NewWriter) (Z.to_nat capacity);
     ch_closed := false;
     uw := w;
     results := [] |}.

(** One turn of the loop of a goroutine on its own: what it answers for
    [p] and what it does to the writer, from a buffer just made or
    reset. *)
Definition serve (w : Sink) (p : list byte) : Sink * (Z * option error) :=
  let '(b, w, res) := bufio.Write bufio.NewWriter w p in
  let '(_, w, _) := bufio.Flush b w in
  (w, res).

(** The messages served one after the other. *)
Fixpoint serve_all (ps : list (list byte)) (w : Sink)
  : list (Z * option error) * Sink :=
  match ps with
  | [] => ([], w)
  | p :: ps' =>
      let '(w, res) := serve w p in
      let '(rs, w) := serve_all ps' w in
      (res :: rs, w)
  end.

(** The messages of [main]. *)
Definition messages : list (list byte) :=
  map (fun s => bytes_of_string s ++ newline)
      ["foo"; "bar"; "baz"; "the answer is 42"; "i am root"; "gopher";
       "blue is the best dog"]%string.

(** A writer that takes every call, as a terminal does. *)
Definition stdout : Sink := {| answer := fun _ => None; written := [] |}.

(** A goroutine that holds no message: at the head of its loop with a
    buffer just made or reset, about to reset it, or gone (once the
    channel is closed). *)
Definition quiet_worker (closed : bool) (g : Worker) : Prop :=
  match g with
  | Idle b => b = bufio.NewWriter
  | Resetting _ => True
  | Exited => closed = true
  | _ => False
  end.

(** The goroutine that holds the message [p], received when the writer
    was [before]; [now] is the writer as the goroutine has left it. *)
Definition active_worker (before : Sink) (p : list byte) (now : Sink) (g : Worker)
  : Prop :=
  match g with
  | Got b q => b = bufio.NewWriter /\ q = p /\ now = before
  | Wrote b res => bufio.Write bufio.NewWriter before p = (b, now, res)
  | Flushed _ res => serve before p = (now, res)
  | _ => False
  end.

(** What holds of the program at every step of every run on [messages]
    over the writer [w0]: the messages are served one at a time, in
    their order. *)
Definition in_order (msgs : list (list byte)) (w0 : Sink) (st : System) : Prop :=
  match main_at st with
  | Sending todo =>
      exists done,
        msgs = done ++ todo
        /\ serve_all done w0 = (results st, uw st)
        /\ ch_closed st = false
        /\ Forall (quiet_worker false) (goroutines st)
  | Awaiting todo =>
      exists done p i g,
        msgs = done ++ p :: todo
        /\ results st = fst (serve_all done w0)
        /\ ch_closed st = false
        /\ nth_error (goroutines st) i = Some g
        /\ active_worker (snd (serve_all done w0)) p (uw st) g
        /\ (forall j g', j <> i -> nth_error (goroutines st) j = Some g' ->
                         quiet_worker false g')
  | Waiting =>
      serve_all msgs w0 = (results st, uw st)
      /\ ch_closed st = true
      /\ Forall (quiet_worker true) (goroutines st)
  | Finished =>
      serve_all msgs w0 = (results st, uw st)
      /\ Forall (fun g => g = Exited) (goroutines st)
  end.

(** The steps a goroutine, and [main], have left at most. *)
Definition worker_weight (g : Worker) : nat :=
  match g with
  | Got _ _ => 5
  | Wrote _ _ => 4
  | Flushed _ _ => 3
  | Resetting _ => 2
  | Idle _ => 1
  | Exited => 0
  end.

Definition main_weight (m : Main) : nat :=
  match m with
  | Sending todo => 6 * length todo + 2
  | Awaiting todo => 6 * length todo + 3
  | Waiting => 1
  | Finished => 0
  end.

Definition weight (st : System) : nat :=
  main_weight (main_at st) + list_sum (map worker_weight (goroutines st)).

(** The program is stuck: neither [main] nor a goroutine can move. *)
Definition stuck (st : System) : Prop := forall g, step g st = None.

(** A writer whose every call fails without writing. *)
Definition broken : Sink :=
  {| answer := fun _ => Some (0, ErrOther "write /dev/stdout: broken pipe");
     written := [] |}.

(** A schedule for [main] with three goroutines: the messages go to the
    goroutines in turn, each runs its five steps, then the channel is
    closed, the goroutines leave and [main] returns. *)
Definition main_schedule : list nat :=
  List.concat (map (fun i => repeat (S i) 5) [0; 1; 2; 0; 1; 2; 0]%nat)
  ++ [0; 1; 2; 3; 0]%nat.
(* ================================================================== *)
(** * Bytes *)

Lemma Zb_range (b : byte) : 0 <= Zb b < 256.
Proof.
  unfold Zb. pose proof (Byte.to_N_bounded b) as H. lia.
Qed.

Lemma Zb_u8 (z : Z) : Zb (u8 z) = z mod 256.
Proof.
  unfold u8, Zb.
  assert (Hr : 0 <= z mod 256 < 256) by (apply Z.mod_pos_bound; lia).
  destruct (Byte.of_N (Z.to_N (z mod 256))) as [b|] eqn:E.
  - apply Byte.to_of_N in E. rewrite E. lia.
  - apply Byte.of_N_None_iff in E. lia.
Qed.

Lemma Zb_u8_small (z : Z) : 0 <= z < 256 -> Zb (u8 z) = z.
Proof. intros H. rewrite Zb_u8. apply Z.mod_small. exact H. Qed.

Lemma Zb_inj (a b : byte) : Zb a = Zb b -> a = b.
Proof.
  unfold Zb. intros H. apply N2Z.inj in H.
  assert (E : Some a = Some b)
    by (rewrite <- (Byte.of_to_N a), <- (Byte.of_to_N b), H; reflexivity).
  congruence.
Qed.

Lemma len_app {A} (a b : list A) : len (a ++ b) = len a + len b.
Proof. unfold len. rewrite length_app. lia. Qed.

Lemma len_nonneg {A} (a : list A) : 0 <= len a.
Proof. unfold len. lia. Qed.

(* ================================================================== *)
(** * The loops of the library have fuel enough *)

Lemma DecodeRune_size (p : list byte) :
  p <> [] -> 1 <= snd (utf8.DecodeRune p) <= 4.
Proof.
  intros Hp. unfold utf8.DecodeRune. cbv zeta.
  destruct (len p <? 1) eqn:E.
  { apply Z.ltb_lt in E. destruct p; [congruence|].
    unfold len in E. simpl in E. lia. }
  destruct (utf8.acceptRanges _) as [lo hi].
  repeat match goal with
    | |- context [if ?c then _ else _] => destruct c
    end; cbn [snd]; lia.
Qed.

Lemma scanBack_le (fuel : nat) :
  forall p start lim, utf8.scanBack fuel p start lim <= start.
Proof.
  induction fuel as [|k IH]; intros p start lim; cbn [utf8.scanBack]; [lia|].
  destruct (start <? lim); [lia|].
  destruct (utf8.RuneStart _); [lia|].
  specialize (IH p (start - 1) lim). lia.
Qed.

(** The backward scan stops within [start - lim + 1] turns: more fuel
    changes nothing. *)
Lemma scanBack_fuel (n : nat) :
  forall m p start lim,
    start - lim < Z.of_nat n -> start - lim < Z.of_nat m ->
    utf8.scanBack n p start lim = utf8.scanBack m p start lim.
Proof.
  induction n as [|n IH]; intros m p start lim Hn Hm.
  - destruct m as [|m]; [reflexivity|]. cbn [utf8.scanBack].
    assert (E : (start <? lim) = true) by (apply Z.ltb_lt; lia).
    rewrite E. reflexivity.
  - destruct m as [|m]; cbn [utf8.scanBack].
    + assert (E : (start <? lim) = true) by (apply Z.ltb_lt; lia).
      rewrite E. reflexivity.
    + destruct (start <? lim); [reflexivity|].
      destruct (utf8.RuneStart _); [reflexivity|].
      apply IH; lia.
Qed.

Lemma DecodeLastRune_size (p : list byte) :
  p <> [] -> 1 <= snd (utf8.DecodeLastRune p).
Proof.
  intros Hp. unfold utf8.DecodeLastRune. cbv zeta.
  assert (Hlen : 1 <= len p).
  { destruct p; [congruence|]. unfold len. simpl length. lia. }
  destruct (len p =? 0) eqn:E0; [apply Z.eqb_eq in E0; lia|].
  destruct (_ <? utf8.RuneSelf); [cbn; lia|].
  match goal with
  | |- context [utf8.scanBack ?f ?q ?s ?l] =>
      pose proof (scanBack_le f q s l) as Hs;
      set (back := utf8.scanBack f q s l) in *
  end.
  destruct (utf8.DecodeRune _) as [r size].
  destruct (negb (Z.max 0 back + size =? len p)) eqn:E; [cbn; lia|].
  apply negb_false_iff, Z.eqb_eq in E. cbn [snd]. lia.
Qed.

Lemma indexFunc_loop_fuel (n : nat) :
  forall m s f truth start,
    0 <= start ->
    len s - start <= Z.of_nat n -> len s - start <= Z.of_nat m ->
    bytes.indexFunc_loop n s f truth start = bytes.indexFunc_loop m s f truth start.
Proof.
  induction n as [|n IH]; intros m s f truth start H0 Hn Hm.
  - destruct m as [|m]; [reflexivity|]. cbn [bytes.indexFunc_loop].
    assert (E : (start <? len s) = false) by (apply Z.ltb_ge; lia).
    rewrite E. reflexivity.
  - destruct m as [|m]; cbn [bytes.indexFunc_loop].
    + assert (E : (start <? len s) = false) by (apply Z.ltb_ge; lia).
      rewrite E. reflexivity.
    + destruct (start <? len s) eqn:E; [|reflexivity].
      apply Z.ltb_lt in E.
      assert (Hw : 1 <= snd (if Zb (at_ s start) >=? utf8.RuneSelf
                             then utf8.DecodeRune (slice_from s start)
                             else (Zb (at_ s start), 1))).
      { destruct (_ >=? utf8.RuneSelf); [|cbn; lia].
        apply DecodeRune_size. intros Hnil.
        apply (f_equal (@length byte)) in Hnil. unfold slice_from in Hnil.
        rewrite length_skipn in Hnil. unfold len in E. simpl in Hnil. lia. }
      destruct (if Zb (at_ s start) >=? utf8.RuneSelf
                then utf8.DecodeRune (slice_from s start)
                else (Zb (at_ s start), 1)) as [r wid].
      cbn [snd] in Hw.
      destruct (Bool.eqb (f r) truth); [reflexivity|].
      apply IH; lia.
Qed.

Lemma lastIndexFunc_loop_fuel (n : nat) :
  forall m s f truth i,
    i <= len s ->
    i <= Z.of_nat n -> i <= Z.of_nat m ->
    bytes.lastIndexFunc_loop n s f truth i = bytes.lastIndexFunc_loop m s f truth i.
Proof.
  induction n as [|n IH]; intros m s f truth i Hi Hn Hm.
  - destruct m as [|m]; [reflexivity|]. cbn [bytes.lastIndexFunc_loop].
    assert (E : (i >? 0) = false) by (rewrite Z.gtb_ltb; apply Z.ltb_ge; lia).
    rewrite E. reflexivity.
  - destruct m as [|m]; cbn [bytes.lastIndexFunc_loop].
    + assert (E : (i >? 0) = false) by (rewrite Z.gtb_ltb; apply Z.ltb_ge; lia).
      rewrite E. reflexivity.
    + destruct (i >? 0) eqn:E; [|reflexivity].
      rewrite Z.gtb_ltb in E. apply Z.ltb_lt in E.
      assert (Hw : 1 <= snd (if Zb (at_ s (i - 1)) >=? utf8.RuneSelf
                             then utf8.DecodeLastRune (slice_to s i)
                             else (Zb (at_ s (i - 1)), 1))).
      { destruct (_ >=? utf8.RuneSelf); [|cbn; lia].
        apply DecodeLastRune_size. intros Hnil.
        apply (f_equal (@length byte)) in Hnil. unfold slice_to in Hnil.
        rewrite length_firstn in Hnil. unfold len in Hi. simpl in Hnil. lia. }
      destruct (if Zb (at_ s (i - 1)) >=? utf8.RuneSelf
                then utf8.DecodeLastRune (slice_to s i)
                else (Zb (at_ s (i - 1)), 1)) as [r size].
      cbn [snd] in Hw.
      destruct (Bool.eqb (f r) truth); [reflexivity|].
      apply IH; lia.
Qed.

(** [indexFunc] and [lastIndexFunc] do not depend on the fuel they are
    given beyond the length of the slice: the value [-1] they return is
    the one of the loop that ran to its end. *)
Lemma indexFunc_total (extra : nat) (s : list byte) (f : Z -> bool) (truth : bool) :
  bytes.indexFunc_loop (length s + extra) s f truth 0 = bytes.indexFunc s f truth
  /\ bytes.lastIndexFunc_loop (length s + extra) s f truth (len s)
     = bytes.lastIndexFunc s f truth.
Proof.
  unfold bytes.indexFunc, bytes.lastIndexFunc, len. split.
  - apply indexFunc_loop_fuel; unfold len; lia.
  - apply lastIndexFunc_loop_fuel; unfold len; lia.
Qed.

(** The four turns [DecodeLastRune] allows its backward scan are enough. *)
Lemma scanBack_enough (extra : nat) (p : list byte) :
  let start := len p - 1 - 1 in
  let lim := Z.max 0 (len p - utf8.UTFMax) in
  utf8.scanBack (Z.to_nat utf8.UTFMax + extra) p start lim
  = utf8.scanBack (Z.to_nat utf8.UTFMax) p start lim.
Proof.
  intros start lim. apply scanBack_fuel; unfold start, lim, utf8.UTFMax; lia.
Qed.

(** [TrimFunc] on two lines. *)
Example TrimFunc_ascii :
  bytes.TrimFunc (bytes_of_string "  foo bar" ++ [x0a]) unicode.IsSpace = bytes_of_string "foo bar".
Proof. vm_compute. reflexivity. Qed.

(** U+3000 (e3 80 80) and U+00A0 (c2 a0) are stripped as whole runes; a
    stray continuation byte is not a space and stops the trimming. *)
Example TrimFunc_unicode :
  bytes.TrimFunc [xe3; x80; x80; "a"%byte; xc2; xa0; x0a] unicode.IsSpace
  = ["a"%byte]
  /\ bytes.TrimFunc [x80; "a"%byte; x0a] unicode.IsSpace = [x80; "a"%byte].
Proof. vm_compute. split; reflexivity. Qed.

(* ================================================================== *)
(** * The chunk count *)

Lemma chunkCount_div (L : Z) :
  0 <= L ->
  chunkCount L = L / maxChunkSize + (if L mod maxChunkSize =? 0 then 0 else 1).
Proof.
  intros HL. unfold chunkCount, maxChunkSize.
  rewrite Z.quot_div_nonneg, Z.rem_mod_nonneg by lia.
  pose proof (Z.mod_pos_bound L 1420 ltac:(lia)).
  destruct (L mod 1420 >? 0) eqn:E1; destruct (L mod 1420 =? 0) eqn:E2; lia.
Qed.

Lemma chunkCount_bounds (L : Z) :
  0 <= L ->
  0 <= chunkCount L /\ L <= chunkCount L * maxChunkSize
  /\ (0 < L -> (chunkCount L - 1) * maxChunkSize < L).
Proof.
  intros HL. rewrite chunkCount_div by exact HL. unfold maxChunkSize.
  pose proof (Z.mod_pos_bound L 1420 ltac:(lia)).
  pose proof (Z.div_mod L 1420 ltac:(lia)).
  destruct (L mod 1420 =? 0) eqn:E; lia.
Qed.



(* ================================================================== *)
(** * The sending loop *)

Lemma extend_nil (net : Net) : extend net [] = net.
Proof. destruct net. unfold extend. simpl. rewrite app_nil_r. reflexivity. Qed.

Lemma extend_extend (net : Net) (a b : list Sent) :
  extend (extend net a) b = extend net (a ++ b).
Proof. unfold extend. simpl. rewrite app_assoc. reflexivity. Qed.

Lemma WriteTo_extend (net : Net) c pkt a :
  WriteTo net c pkt a
  = (extend net [{| via := c; dest := a; packet := pkt;
                    failure := outcome net (length (calls net)) |}],
     outcome net (length (calls net))).
Proof. reflexivity. Qed.

Lemma Read_chunk (b : Buffer) :
  exists e, Buffer.Read b maxChunkSize
            = (slice_from b maxChunkSize, (slice_to b maxChunkSize, e))
            /\ failed e = false.
Proof.
  destruct b as [|x b].
  - exists (Some EOF). split; reflexivity.
  - exists None. split; reflexivity.
Qed.

Lemma accepts_step (net : Net) (k : nat) (l : Sent) :
  accepts net (Z.of_nat (S k)) -> accepts (extend net [l]) (Z.of_nat k).
Proof.
  intros H j Hj. unfold extend. simpl. rewrite length_app. simpl.
  replace (length (calls net) + 1 + j)%nat with (length (calls net) + S j)%nat by lia.
  apply H. lia.
Qed.

Lemma sendChunks_ok (fuel : nat) :
  forall i count id c addr buf net,
    i + Z.of_nat fuel = count ->
    accepts net (Z.of_nat fuel) ->
    sendChunks fuel i count id (Some c) addr buf net
    = (Returns None, drain fuel buf,
       extend net (map (sent_ok c addr) (frames fuel i count id buf))).
Proof.
  induction fuel as [|k IH]; intros i count id c addr buf net Hi Hacc.
  - simpl. rewrite extend_nil. reflexivity.
  - cbn [sendChunks frames drain map].
    assert (Hlt : (i <? count) = true) by (apply Z.ltb_lt; lia).
    rewrite Hlt.
    destruct (Read_chunk buf) as [e [HR He]]. rewrite HR, He.
    rewrite WriteTo_extend.
    assert (H0 : outcome net (length (calls net)) = None).
    { specialize (Hacc 0%nat). rewrite Nat.add_0_r in Hacc. apply Hacc. lia. }
    rewrite H0.
    rewrite IH.
    + rewrite extend_extend. reflexivity.
    + lia.
    + apply accepts_step. exact Hacc.
Qed.

(** A failure at the j-th call: the j chunks before it went out, the
    failing call is the last one. *)
Lemma sendChunks_fails (j : nat) :
  forall fuel i count id c addr buf net e,
    (j < fuel)%nat ->
    i + Z.of_nat fuel = count ->
    accepts net (Z.of_nat j) ->
    outcome net (length (calls net) + j)%nat = Some e ->
    sendChunks fuel i count id (Some c) addr buf net
    = (Returns (Some (ErrWritingUDP e)), drain (S j) buf,
       extend net (map (sent_ok c addr) (firstn j (frames fuel i count id buf))
                   ++ [sent_failed c addr e (nth j (frames fuel i count id buf) [])])).
Proof.
  induction j as [|j IH]; intros fuel i count id c addr buf net e Hj Hi Hacc Hout.
  - destruct fuel as [|k]; [lia|].
    cbn [sendChunks frames drain map firstn nth].
    assert (Hlt : (i <? count) = true) by (apply Z.ltb_lt; lia).
    rewrite Hlt.
    destruct (Read_chunk buf) as [e' [HR He]]. rewrite HR, He.
    rewrite WriteTo_extend. rewrite Nat.add_0_r in Hout. rewrite Hout.
    reflexivity.
  - destruct fuel as [|k]; [lia|].
    cbn [sendChunks frames drain map firstn nth].
    assert (Hlt : (i <? count) = true) by (apply Z.ltb_lt; lia).
    rewrite Hlt.
    destruct (Read_chunk buf) as [e' [HR He]]. rewrite HR, He.
    rewrite WriteTo_extend.
    assert (H0 : outcome net (length (calls net)) = None).
    { specialize (Hacc 0%nat). rewrite Nat.add_0_r in Hacc. apply Hacc. lia. }
    rewrite H0.
    rewrite (IH k (i + 1) count id c addr _ _ e).
    + rewrite extend_extend. reflexivity.
    + lia.
    + lia.
    + apply accepts_step. exact Hacc.
    + unfold extend. simpl. rewrite length_app. simpl.
      replace (length (calls net) + 1 + j)%nat
        with (length (calls net) + S j)%nat by lia.
      exact Hout.
Qed.

(* ================================================================== *)
(** * The wire format of a chunk *)

Ltac explode_id H :=
  match type of H with
  | length ?id = _ =>
      repeat (let b := fresh "b" in destruct id as [|b id]; [discriminate H|]);
      destruct id; [|discriminate H]
  end.

Lemma chunkHeader_layout (id : list byte) (i count : Z) (payload : list byte) :
  length id = 8%nat ->
  chunkHeader id i count ++ payload
  = [x1e; x0f] ++ id ++ [u8 i; u8 count] ++ payload.
Proof. intros H. explode_id H. reflexivity. Qed.

Lemma chunk_fields (id : list byte) (i count : Z) (payload : list byte) :
  length id = 8%nat ->
  let pkt := chunkHeader id i count ++ payload in
  chunk_magic pkt = [gelfMagicByteA; gelfMagicByteB]
  /\ chunk_id pkt = id
  /\ chunk_seq pkt = Zb (u8 i)
  /\ chunk_total pkt = Zb (u8 count)
  /\ chunk_payload pkt = payload.
Proof. intros H. explode_id H. repeat split. Qed.

Lemma frames_length (fuel : nat) :
  forall i count id buf, length (frames fuel i count id buf) = fuel.
Proof. induction fuel; intros; simpl; [reflexivity|]. rewrite IHfuel. reflexivity. Qed.

Lemma frames_datagrams_from (fuel : nat) :
  forall i count id stream,
    length id = 8%nat -> 0 <= i ->
    frames fuel i count id (slice_from stream (i * maxChunkSize))
    = map (fun k => datagram id k count stream)
          (map Z.of_nat (seq (Z.to_nat i) fuel)).
Proof.
  induction fuel as [|k IH]; intros i count id stream Hid Hi; [reflexivity|].
  cbn [frames seq map].
  rewrite chunkHeader_layout by exact Hid.
  rewrite Z2Nat.id by exact Hi.
  f_equal.
  replace (slice_from (slice_from stream (i * maxChunkSize)) maxChunkSize)
    with (slice_from stream ((i + 1) * maxChunkSize)).
  - rewrite IH by (try exact Hid; lia).
    replace (Z.to_nat (i + 1)) with (S (Z.to_nat i)) by lia. reflexivity.
  - unfold slice_from. rewrite skipn_skipn. f_equal. unfold maxChunkSize. lia.
Qed.

Lemma frames_datagrams (count : Z) (id stream : list byte) :
  length id = 8%nat ->
  frames (Z.to_nat count) 0 count id stream = datagrams id count stream.
Proof.
  intros Hid.
  exact (frames_datagrams_from (Z.to_nat count) 0 count id stream Hid ltac:(lia)).
Qed.

(* ================================================================== *)
(** * Reassembly *)

Lemma sort_by_seq_sorted (l : list (list byte)) :
  Sorted seq_lt l -> sort_by_seq l = l.
Proof.
  induction 1 as [|a l Hs IH Hd]; [reflexivity|].
  simpl. rewrite IH.
  destruct Hd as [|b l' Hab]; [reflexivity|].
  simpl. unfold seq_lt in Hab.
  apply Z.ltb_lt in Hab. rewrite Hab. reflexivity.
Qed.

Lemma frames_sorted (fuel : nat) :
  forall i count id buf,
    length id = 8%nat -> 0 <= i -> i + Z.of_nat fuel <= 256 ->
    Sorted seq_lt (frames fuel i count id buf).
Proof.
  induction fuel as [|k IH]; intros i count id buf Hid Hi Hb; [constructor|].
  cbn [frames]. constructor.
  - apply IH; [exact Hid | lia | lia].
  - destruct k as [|k']; [constructor|].
    cbn [frames]. constructor. unfold seq_lt.
    destruct (chunk_fields id i count (slice_to buf maxChunkSize) Hid)
      as (_ & _ & -> & _).
    destruct (chunk_fields id (i + 1) count
                (slice_to (slice_from buf maxChunkSize) maxChunkSize) Hid)
      as (_ & _ & -> & _).
    rewrite !Zb_u8_small by lia. lia.
Qed.

Lemma frames_payloads (fuel : nat) :
  forall i count id buf,
    length id = 8%nat ->
    len buf <= Z.of_nat fuel * maxChunkSize ->
    List.concat (map chunk_payload (frames fuel i count id buf)) = buf.
Proof.
  induction fuel as [|k IH]; intros i count id buf Hid Hlen.
  - destruct buf; [reflexivity|]. unfold len in Hlen. simpl in Hlen. lia.
  - cbn [frames map List.concat].
    destruct (chunk_fields id i count (slice_to buf maxChunkSize) Hid)
      as (_ & _ & _ & _ & ->).
    rewrite IH.
    + apply firstn_skipn.
    + exact Hid.
    + unfold slice_from, len in *. rewrite length_skipn.
      unfold maxChunkSize in *. lia.
Qed.

Lemma reassemble_frames (fuel : nat) (count : Z) (id buf : list byte) :
  length id = 8%nat ->
  Z.of_nat fuel <= 256 ->
  len buf <= Z.of_nat fuel * maxChunkSize ->
  reassemble (frames fuel 0 count id buf) = buf.
Proof.
  intros Hid Hf Hlen. unfold reassemble.
  rewrite sort_by_seq_sorted by (apply frames_sorted; [exact Hid | lia | lia]).
  apply frames_payloads; assumption.
Qed.

(* ================================================================== *)
(** * Facts about the transport log and the identifiers *)

Lemma sent_by_extend (net : Net) (l : list Sent) : sent_by net (extend net l) = l.
Proof.
  unfold sent_by, calls_since, extend. simpl.
  rewrite skipn_app, Nat.sub_diag, skipn_all. reflexivity.
Qed.

Lemma sent_by_same (net : Net) : sent_by net net = [].
Proof. unfold sent_by, calls_since. apply skipn_all. Qed.

Lemma delivered_sent_ok c a (l : list (list byte)) :
  delivered (map (sent_ok c a) l) = l.
Proof.
  unfold delivered. induction l as [|x l IH]; [reflexivity|].
  simpl. f_equal. exact IH.
Qed.

Lemma delivered_app (a b : list Sent) :
  delivered (a ++ b) = delivered a ++ delivered b.
Proof. unfold delivered. rewrite filter_app, map_app. reflexivity. Qed.

Lemma nextID_length (tag : Array4) (mc : Z) : length (fst (nextID tag mc)) = 8%nat.
Proof. destruct tag as [[[a b] c] d]. reflexivity. Qed.

Lemma HasSuffix_nonempty (p : list byte) :
  bytes.HasSuffix p newline = true -> (len p =? 0) = false.
Proof.
  destruct p; [discriminate|]. intros _. unfold len. simpl length.
  apply Z.eqb_neq. lia.
Qed.

Lemma Equal_eq (a b : list byte) : bytes.Equal a b = true -> a = b.
Proof.
  revert b. induction a as [|x a IH]; intros [|y b] H; try discriminate; [reflexivity|].
  simpl in H. apply andb_prop in H as [Hx Hab].
  apply Byte.byte_dec_bl in Hx. subst y. f_equal. apply IH. exact Hab.
Qed.

(** [bytes.HasSuffix(p, []byte("\n"))] holds of the lines that end with a
    newline byte, and of no other. *)
Lemma HasSuffix_newline (p : list byte) :
  bytes.HasSuffix p newline = true <-> newline_terminated p.
Proof.
  unfold bytes.HasSuffix, newline_terminated. split.
  - intros H. apply andb_prop in H as [Hlen Heq].
    apply Equal_eq in Heq.
    exists (firstn (Z.to_nat (len p - len newline)) p).
    rewrite <- Heq at 2. unfold slice_from. symmetry. apply firstn_skipn.
  - intros [q ->]. rewrite len_app.
    replace (len q + len newline - len newline) with (len q) by lia.
    assert (Hs : slice_from (q ++ newline) (len q) = newline).
    { unfold slice_from, len. rewrite Nat2Z.id.
      rewrite skipn_app, Nat.sub_diag, skipn_all. reflexivity. }
    rewrite Hs. pose proof (len_nonneg q).
    destruct (len q + len newline >=? len newline) eqn:E; [reflexivity|].
    rewrite Z.geb_leb in E. apply Z.leb_gt in E. lia.
Qed.

Lemma NewWriterLevel_valid (lvl : Z) :
  gzip.valid_level lvl ->
  gzip.NewWriterLevel lvl
  = (Some {| gzip.level := lvl; gzip.closed := false; gzip.pending := [] |}, None).
Proof.
  unfold gzip.valid_level, gzip.NewWriterLevel, gzip.HuffmanOnly, gzip.BestCompression.
  intros H.
  destruct (lvl <? -2) eqn:E1; [apply Z.ltb_lt in E1; lia|].
  destruct (lvl >? 9) eqn:E2; [apply Z.gtb_lt in E2; lia|].
  reflexivity.
Qed.

(* ================================================================== *)
(** * [Reduce.Write] *)

Section ReduceWrite.
Context {codec : GzipCodec}.

(** Past the two input checks, [Write] is the size check followed by the
    sending loop over the compressed payload. *)
Lemma Reduce_Write_valid (gl : Reduce.Client) (net : Net) (p : list byte) :
  gzip.valid_level (Reduce.compressionLevel gl) ->
  bytes.HasSuffix p newline = true ->
  let stream := compressed (Reduce.compressionLevel gl) p in
  let count := chunkCount (len stream) in
  Reduce.Write gl net p =
  if count >? maxChunkCount then
    (Returns (0, Some (ErrExceedsMaximumSize (len stream)
                         (maxChunkCount * maxChunkSize))), gl, net)
  else
    let '(r, _, net') :=
      sendChunks (Z.to_nat count) 0 count (fst (Reduce.messageID gl))
                 (Reduce.conn gl) (Reduce.addr gl) stream net in
    (match r with
     | Panics => Panics
     | Returns (Some e) => Returns (0, Some e)
     | Returns None =>
         Returns (len (bytes.TrimFunc p unicode.IsSpace), None)
     end, snd (Reduce.messageID gl), net').
Proof.
  intros Hlvl Hnl. cbv zeta.
  unfold Reduce.Write.
  rewrite (HasSuffix_nonempty p Hnl).
  change [x0a] with newline. rewrite Hnl. cbn [negb].
  rewrite (NewWriterLevel_valid _ Hlvl). cbn [fst].
  unfold gzip.Write, gzip.Close. cbn [gzip.closed gzip.level gzip.pending failed].
  unfold Buffer.Write, Buffer.Len. cbn [app].
  fold (compressed (Reduce.compressionLevel gl) p).
  destruct (chunkCount (len (compressed (Reduce.compressionLevel gl) p)) >? maxChunkCount);
    [reflexivity|].
  unfold Reduce.messageID.
  destruct (nextID (Reduce.instanceID gl) (Reduce.messageCount gl)) as [id n].
  cbn [fst snd Reduce.conn Reduce.addr].
  destruct (sendChunks _ _ _ _ _ _ _ _) as [[r b] net'].
  destruct r as [[e|]|]; reflexivity.
Qed.

End ReduceWrite.

Section ReduceProperties.
Context {codec : GzipCodec}.

(** A usable client, a well-formed line that fits, and a transport that
    takes every chunk: [Write] sends the frames of the compressed payload
    and returns what the compressor consumed. *)
Lemma Reduce_Write_delivers (gl : Reduce.Client) (net : Net) (p : list byte)
      (c : PacketConn) :
  Reduce.conn gl = Some c ->
  gzip.valid_level (Reduce.compressionLevel gl) ->
  bytes.HasSuffix p newline = true ->
  let stream := compressed (Reduce.compressionLevel gl) p in
  let count := chunkCount (len stream) in
  count <= maxChunkCount ->
  accepts net count ->
  Reduce.Write gl net p
  = (Returns (len (bytes.TrimFunc p unicode.IsSpace), None),
     snd (Reduce.messageID gl),
     extend net (map (sent_ok c (Reduce.addr gl))
                     (frames (Z.to_nat count) 0 count
                             (fst (Reduce.messageID gl)) stream))).
Proof.
  intros Hc Hlvl Hnl stream count Hfit Hacc.
  rewrite (Reduce_Write_valid gl net p Hlvl Hnl).
  fold stream. fold count.
  destruct (count >? maxChunkCount) eqn:E; [apply Z.gtb_lt in E; lia|].
  pose proof (chunkCount_bounds (len stream) (len_nonneg _)) as [Hc0 _].
  fold count in Hc0.
  rewrite Hc, sendChunks_ok.
  - reflexivity.
  - lia.
  - rewrite Z2Nat.id by lia. exact Hacc.
Qed.

Lemma Reduce_messageID_length (gl : Reduce.Client) :
  length (fst (Reduce.messageID gl)) = 8%nat.
Proof.
  unfold Reduce.messageID.
  pose proof (nextID_length (Reduce.instanceID gl) (Reduce.messageCount gl)) as H.
  destruct (nextID _ _). exact H.
Qed.

Lemma nth_map_in {A B} (f : A -> B) (l : list A) (i : nat) (d : B) (d0 : A) :
  (i < length l)%nat -> nth i (map f l) d = f (nth i l d0).
Proof.
  intros H. rewrite (nth_indep _ d (f d0)) by (rewrite length_map; exact H).
  apply map_nth.
Qed.

Lemma datagrams_length (id : list byte) (count : Z) (stream : list byte) :
  length (datagrams id count stream) = Z.to_nat count.
Proof. unfold datagrams, indices. rewrite !length_map, length_seq. reflexivity. Qed.

Lemma datagrams_nth (id : list byte) (count : Z) (stream : list byte) (i : Z) :
  0 <= i < count ->
  nth (Z.to_nat i) (datagrams id count stream) [] = datagram id i count stream.
Proof.
  intros Hi. unfold datagrams, indices.
  rewrite (nth_map_in _ _ _ _ 0) by (rewrite length_map, length_seq; lia).
  rewrite (nth_map_in _ _ _ _ 0%nat) by (rewrite length_seq; lia).
  rewrite seq_nth by lia. simpl. rewrite Z2Nat.id by lia. reflexivity.
Qed.

Lemma slice_of_length (stream : list byte) (i : Z) :
  0 <= i ->
  len (slice_of stream i) = Z.max 0 (Z.min maxChunkSize (len stream - i * maxChunkSize)).
Proof.
  intros Hi. unfold slice_of, slice_to, slice_from, len.
  rewrite length_firstn, length_skipn. unfold maxChunkSize. lia.
Qed.

(** C2.  A message that [Write] transmits goes out as exactly [count]
    datagrams, chunk 0 first and chunk [count - 1] last; the i-th is the
    two magic bytes 1e 0f, the eight bytes of the message identifier (the
    same for all), the byte [i], the byte [count], and the next slice of
    the compressed payload, between 1 and 1420 bytes taken from where the
    previous slice ended. *)
Theorem Reduce_Write_chunk_layout (gl : Reduce.Client) (net : Net)
        (p : list byte) (c : PacketConn) :
  Reduce.conn gl = Some c ->
  gzip.valid_level (Reduce.compressionLevel gl) ->
  p <> [] ->
  newline_terminated p ->
  chunkCount (len (compressed (Reduce.compressionLevel gl) p)) <= maxChunkCount ->
  accepts net (chunkCount (len (compressed (Reduce.compressionLevel gl) p))) ->
  let stream := compressed (Reduce.compressionLevel gl) p in
  let count := chunkCount (len stream) in
  let id := fst (Reduce.messageID gl) in
  length id = 8%nat
  /\ sent_by net (net_after (Reduce.Write gl net p))
     = map (sent_ok c (Reduce.addr gl)) (datagrams id count stream)
  /\ length (datagrams id count stream) = Z.to_nat count
  /\ forall i, 0 <= i < count ->
       nth (Z.to_nat i) (datagrams id count stream) []
       = [x1e; x0f] ++ id ++ [u8 i; u8 count] ++ slice_of stream i
       /\ Zb (u8 i) = i /\ Zb (u8 count) = count
       /\ slice_of stream i
          = firstn 1420 (skipn (Z.to_nat i * 1420) stream)
       /\ 0 < len (slice_of stream i) <= 1420.
Proof.
  intros Hc Hlvl _ Hnl Hfit Hacc stream count id.
  apply HasSuffix_newline in Hnl.
  pose proof (Reduce_messageID_length gl) as Hid.
  pose proof (chunkCount_bounds (len stream) (len_nonneg _)) as (Hc0 & Hle & Hgt).
  fold count in Hc0, Hle, Hgt. unfold maxChunkCount in Hfit. fold stream count in Hfit.
  split; [exact Hid|]. split; [|split].
  - unfold net_after.
    rewrite (Reduce_Write_delivers gl net p c Hc Hlvl Hnl Hfit Hacc).
    cbn [snd]. rewrite sent_by_extend. fold stream count id.
    rewrite frames_datagrams by exact Hid. reflexivity.
  - apply datagrams_length.
  - intros i Hi. rewrite datagrams_nth by exact Hi.
    split; [reflexivity|].
    rewrite !Zb_u8_small by lia.
    split; [reflexivity|]. split; [reflexivity|]. split.
    + unfold slice_of, slice_to, slice_from, maxChunkSize.
      f_equal. f_equal. lia.
    + rewrite slice_of_length by lia.
      pose proof (chunkCount_div (len stream) (len_nonneg _)) as Hdiv.
      fold count in Hdiv. unfold maxChunkSize in *.
      pose proof (len_nonneg stream).
      assert (0 < len stream).
      { destruct (Z.eq_dec (len stream) 0) as [E0|]; [|lia].
        rewrite E0 in Hdiv. simpl in Hdiv. lia. }
      specialize (Hgt ltac:(lia)). lia.
Qed.


(** C6.  For a well-formed line whose compressed form fits the chunk
    limit and whose chunks the transport all takes, [Write] returns the
    pair the compressor returned for the trimmed line: the number of bytes
    it consumed, all of the trimmed line, and a nil error. *)
Theorem Reduce_Write_returns_consumed (gl : Reduce.Client) (net : Net)
        (p : list byte) (c : PacketConn) :
  Reduce.conn gl = Some c ->
  gzip.valid_level (Reduce.compressionLevel gl) ->
  p <> [] ->
  newline_terminated p ->
  chunkCount (len (compressed (Reduce.compressionLevel gl) p)) <= maxChunkCount ->
  accepts net (chunkCount (len (compressed (Reduce.compressionLevel gl) p))) ->
  forall zip, fst (gzip.NewWriterLevel (Reduce.compressionLevel gl)) = Some zip ->
  returned (Reduce.Write gl net p)
  = Returns (snd (gzip.Write zip (bytes.TrimFunc p unicode.IsSpace)))
  /\ snd (gzip.Write zip (bytes.TrimFunc p unicode.IsSpace))
     = (len (bytes.TrimFunc p unicode.IsSpace), None).
Proof.
  intros Hc Hlvl _ Hnl Hfit Hacc zip Hzip.
  apply HasSuffix_newline in Hnl.
  rewrite (NewWriterLevel_valid _ Hlvl) in Hzip. cbn [fst] in Hzip.
  injection Hzip as <-.
  unfold returned, net_after.
  rewrite (Reduce_Write_delivers gl net p c Hc Hlvl Hnl Hfit Hacc).
  split; reflexivity.
Qed.

(** C7.  A non-empty input that does not end with a newline byte gets
    [ErrMissingNewline] and the empty input gets [(0, nil)]; in both cases
    the transport and the client are as they were: nothing was sent. *)
Theorem Reduce_Write_input_checks (gl : Reduce.Client) (net : Net) (p : list byte) :
  (p <> [] -> ~ newline_terminated p ->
   Reduce.Write gl net p = (Returns (0, Some ErrMissingNewline), gl, net)
   /\ sent_by net (net_after (Reduce.Write gl net p)) = [])
  /\ Reduce.Write gl net [] = (Returns (0, None), gl, net)
  /\ sent_by net (net_after (Reduce.Write gl net [])) = [].
Proof.
  split; [|split].
  - intros Hne Hnl.
    assert (HW : Reduce.Write gl net p
                 = (Returns (0, Some ErrMissingNewline), gl, net)).
    { unfold Reduce.Write.
      destruct (len p =? 0) eqn:E.
      - apply Z.eqb_eq in E. destruct p; [congruence|].
        unfold len in E. simpl in E. lia.
      - change [x0a] with newline.
        destruct (bytes.HasSuffix p newline) eqn:E2; [|reflexivity].
        apply HasSuffix_newline in E2. contradiction. }
    split; [exact HW|]. rewrite HW. apply sent_by_same.
  - reflexivity.
  - apply sent_by_same.
Qed.

(** C9.  When the transport fails on chunk [j] after taking the chunks
    before it, [Write] stops there: it returns a zero count and the error
    "writing to udp connection: ..." around the transport's error, the
    failing call is its last call of [WriteTo], and the [j] chunks that
    went out before stay delivered. *)
Theorem Reduce_Write_transport_failure (gl : Reduce.Client) (net : Net)
        (p : list byte) (c : PacketConn) (j : nat) (e : error) :
  Reduce.conn gl = Some c ->
  gzip.valid_level (Reduce.compressionLevel gl) ->
  p <> [] ->
  newline_terminated p ->
  chunkCount (len (compressed (Reduce.compressionLevel gl) p)) <= maxChunkCount ->
  Z.of_nat j < chunkCount (len (compressed (Reduce.compressionLevel gl) p)) ->
  accepts net (Z.of_nat j) ->
  outcome net (length (calls net) + j)%nat = Some e ->
  let stream := compressed (Reduce.compressionLevel gl) p in
  let count := chunkCount (len stream) in
  let chunks := datagrams (fst (Reduce.messageID gl)) count stream in
  let net' := net_after (Reduce.Write gl net p) in
  returned (Reduce.Write gl net p) = Returns (0, Some (ErrWritingUDP e))
  /\ Error (ErrWritingUDP e) = ("writing to udp connection: " ++ Error e)%string
  /\ sent_by net net'
     = map (sent_ok c (Reduce.addr gl)) (firstn j chunks)
       ++ [sent_failed c (Reduce.addr gl) e (nth j chunks [])]
  /\ delivered (sent_by net net') = firstn j chunks
  /\ length (sent_by net net') = S j.
Proof.
  intros Hc Hlvl _ Hnl Hfit Hj Hacc Hout stream count chunks net'.
  apply HasSuffix_newline in Hnl.
  unfold net'. clear net'. unfold returned, net_after.
  rewrite (Reduce_Write_valid gl net p Hlvl Hnl). fold stream count.
  fold stream count in Hfit, Hj.
  destruct (count >? maxChunkCount) eqn:E; [apply Z.gtb_lt in E; lia|].
  rewrite Hc.
  rewrite (sendChunks_fails j _ _ _ _ _ _ _ _ e);
    [| lia | lia | exact Hacc | exact Hout].
  cbn [fst snd].
  rewrite frames_datagrams by apply Reduce_messageID_length.
  fold chunks. rewrite sent_by_extend.
  split; [reflexivity|]. split; [reflexivity|]. split; [reflexivity|]. split.
  - rewrite delivered_app, delivered_sent_ok. unfold delivered. simpl.
    apply app_nil_r.
  - rewrite length_app, length_map, length_firstn. simpl.
    unfold chunks. rewrite datagrams_length. lia.
Qed.

End ReduceProperties.

Lemma IsSpace_cases (r : Z) :
  unicode.IsSpace r = true ->
  In r [0x09; 0x0A; 0x0B; 0x0C; 0x0D; 0x20; 0x85; 0xA0; 0x1680;
        0x2000; 0x2001; 0x2002; 0x2003; 0x2004; 0x2005; 0x2006; 0x2007;
        0x2008; 0x2009; 0x200A; 0x2028; 0x2029; 0x202F; 0x205F; 0x3000].
Proof.
  unfold unicode.IsSpace, unicode.White_Space_excludingLatin, unicode.MaxLatin1.
  intros H. cbn [In].
  destruct ((0 <=? r) && (r <=? 255)) eqn:E; lia.
Qed.

Ltac settle_len_tests :=
  repeat match goal with
    | |- context [len ?l <? ?k] =>
        let H := fresh in
        assert (H : (len l <? k) = false)
          by (apply Z.ltb_ge;
              let k' := eval vm_compute in k in change k with k';
              unfold len; simpl length; lia);
        rewrite H; clear H
    end.

(** One turn of [indexFunc] at a white-space rune decodes that rune and
    steps over its whole encoding. *)
Lemma space_step (r : Z) (rest : list byte) :
  unicode.IsSpace r = true ->
  let s := utf8.EncodeRune r ++ rest in
  (if Zb (hd x00 s) >=? utf8.RuneSelf then utf8.DecodeRune s
   else (Zb (hd x00 s), 1)) = (r, len (utf8.EncodeRune r))
  /\ 0 < len (utf8.EncodeRune r).
Proof.
  intros H. apply IsSpace_cases in H. cbn [In] in H.
  repeat (destruct H as [<-|H]); [..|contradiction];
    (split; [|vm_compute; reflexivity]);
    match goal with
    | |- context [utf8.EncodeRune ?r ++ rest] =>
        let e := eval vm_compute in (utf8.EncodeRune r) in
        change (utf8.EncodeRune r) with e
    end;
    cbn [app hd]; unfold utf8.DecodeRune; cbv zeta;
    settle_len_tests; vm_compute; reflexivity.
Qed.

Lemma at_app_hd (pre l : list byte) : at_ (pre ++ l) (len pre) = hd x00 l.
Proof.
  unfold at_, len. rewrite Nat2Z.id.
  rewrite app_nth2, Nat.sub_diag by lia. destruct l; reflexivity.
Qed.

Lemma slice_from_app (pre l : list byte) : slice_from (pre ++ l) (len pre) = l.
Proof.
  unfold slice_from, len. rewrite Nat2Z.id.
  rewrite skipn_app, Nat.sub_diag, skipn_all. reflexivity.
Qed.

Lemma indexFunc_spaces (ws : list Z) :
  Forall (fun r => unicode.IsSpace r = true) ws ->
  forall fuel pre,
    bytes.indexFunc_loop fuel (pre ++ flat_map utf8.EncodeRune ws)
                         unicode.IsSpace false (len pre) = -1.
Proof.
  induction 1 as [|r ws Hr Hws IH]; intros fuel pre.
  - simpl flat_map. rewrite app_nil_r.
    destruct fuel; [reflexivity|]. cbn [bytes.indexFunc_loop].
    rewrite Z.ltb_irrefl. reflexivity.
  - destruct fuel; [reflexivity|]. cbn [bytes.indexFunc_loop flat_map].
    destruct (space_step r (flat_map utf8.EncodeRune ws) Hr) as [Hstep Hpos].
    cbv zeta in Hstep.
    assert (Hlt : (len pre <? len (pre ++ utf8.EncodeRune r ++ flat_map utf8.EncodeRune ws)) = true).
    { apply Z.ltb_lt. rewrite !len_app.
      pose proof (len_nonneg (flat_map utf8.EncodeRune ws)). lia. }
    rewrite Hlt, at_app_hd, slice_from_app, Hstep, Hr. cbn [Bool.eqb].
    rewrite <- len_app, app_assoc. apply IH.
Qed.

(** A line spelled with white-space runes only is trimmed to nothing. *)
Lemma TrimFunc_spaces (ws : list Z) :
  Forall (fun r => unicode.IsSpace r = true) ws ->
  bytes.TrimFunc (flat_map utf8.EncodeRune ws) unicode.IsSpace = [].
Proof.
  intros H. unfold bytes.TrimFunc, bytes.TrimLeftFunc, bytes.indexFunc.
  rewrite (indexFunc_spaces ws H _ []). reflexivity.
Qed.

(* ================================================================== *)
(** * What [TrimFunc] removes *)

Lemma at_app_off (pre l : list byte) (j : Z) :
  0 <= j -> at_ (pre ++ l) (len pre + j) = at_ l j.
Proof.
  intros Hj. unfold at_, len.
  replace (Z.to_nat (Z.of_nat (length pre) + j)) with (length pre + Z.to_nat j)%nat by lia.
  rewrite app_nth2 by lia. f_equal. lia.
Qed.

Lemma slice_to_app (pre l : list byte) : slice_to (pre ++ l) (len pre) = pre.
Proof.
  unfold slice_to, len. rewrite Nat2Z.id.
  replace (length pre) with (length pre + 0)%nat at 1 by lia.
  rewrite firstn_app_2. apply app_nil_r.
Qed.

(** [DecodeLastRune] on a slice that ends with two bytes, the first of
    which starts a rune, decodes these two bytes. *)
Lemma DecodeLastRune_2 (pre : list byte) (b0 b1 : byte) :
  utf8.RuneStart b0 = true -> utf8.RuneSelf <= Zb b1 ->
  utf8.DecodeLastRune (pre ++ [b0; b1])
  = let '(r, size) := utf8.DecodeRune [b0; b1] in
    if negb (size =? 2) then (utf8.RuneError, 1) else (r, size).
Proof.
  intros H0 H1. unfold utf8.DecodeLastRune. cbv zeta.
  pose proof (len_nonneg pre) as Hp.
  rewrite len_app. change (len [b0; b1]) with 2.
  assert (E0 : (len pre + 2 =? 0) = false) by (apply Z.eqb_neq; lia).
  rewrite E0.
  replace (len pre + 2 - 1) with (len pre + 1) by lia.
  rewrite at_app_off by lia. change (at_ [b0; b1] 1) with b1.
  assert (E1 : (Zb b1 <? utf8.RuneSelf) = false) by (apply Z.ltb_ge; lia).
  rewrite E1.
  replace (len pre + 1 - 1) with (len pre + 0) by lia.
  change (Z.to_nat utf8.UTFMax) with 4%nat. cbn [utf8.scanBack].
  assert (E2 : (len pre + 0 <? Z.max 0 (len pre + 2 - utf8.UTFMax)) = false)
    by (apply Z.ltb_ge; unfold utf8.UTFMax; lia).
  rewrite E2, at_app_off by lia. change (at_ [b0; b1] 0) with b0. rewrite H0.
  replace (Z.max 0 (len pre + 0)) with (len pre) by lia.
  rewrite slice_from_app.
  replace (len pre + 2 - len pre) with 2 by lia.
  change (slice_to [b0; b1] 2) with [b0; b1].
  destruct (utf8.DecodeRune [b0; b1]) as [r size].
  replace (len pre + size =? len pre + 2) with (size =? 2); [reflexivity|].
  destruct (size =? 2) eqn:E; symmetry;
    [apply Z.eqb_eq in E; apply Z.eqb_eq | apply Z.eqb_neq in E; apply Z.eqb_neq]; lia.
Qed.

Lemma DecodeLastRune_3 (pre : list byte) (b0 b1 b2 : byte) :
  utf8.RuneStart b0 = true -> utf8.RuneStart b1 = false ->
  utf8.RuneSelf <= Zb b2 ->
  utf8.DecodeLastRune (pre ++ [b0; b1; b2])
  = let '(r, size) := utf8.DecodeRune [b0; b1; b2] in
    if negb (size =? 3) then (utf8.RuneError, 1) else (r, size).
Proof.
  intros H0 H1 H2. unfold utf8.DecodeLastRune. cbv zeta.
  pose proof (len_nonneg pre) as Hp.
  rewrite len_app. change (len [b0; b1; b2]) with 3.
  assert (E0 : (len pre + 3 =? 0) = false) by (apply Z.eqb_neq; lia).
  rewrite E0.
  replace (len pre + 3 - 1) with (len pre + 2) by lia.
  rewrite at_app_off by lia. change (at_ [b0; b1; b2] 2) with b2.
  assert (E1 : (Zb b2 <? utf8.RuneSelf) = false) by (apply Z.ltb_ge; lia).
  rewrite E1.
  replace (len pre + 2 - 1) with (len pre + 1) by lia.
  change (Z.to_nat utf8.UTFMax) with 4%nat. cbn [utf8.scanBack].
  assert (E2 : (len pre + 1 <? Z.max 0 (len pre + 3 - utf8.UTFMax)) = false)
    by (apply Z.ltb_ge; unfold utf8.UTFMax; lia).
  rewrite E2, at_app_off by lia. change (at_ [b0; b1; b2] 1) with b1. rewrite H1.
  replace (len pre + 1 - 1) with (len pre + 0) by lia.
  assert (E3 : (len pre + 0 <? Z.max 0 (len pre + 3 - utf8.UTFMax)) = false)
    by (apply Z.ltb_ge; unfold utf8.UTFMax; lia).
  rewrite E3, at_app_off by lia. change (at_ [b0; b1; b2] 0) with b0. rewrite H0.
  replace (Z.max 0 (len pre + 0)) with (len pre) by lia.
  rewrite slice_from_app.
  replace (len pre + 3 - len pre) with 3 by lia.
  change (slice_to [b0; b1; b2] 3) with [b0; b1; b2].
  destruct (utf8.DecodeRune [b0; b1; b2]) as [r size].
  replace (len pre + size =? len pre + 3) with (size =? 3); [reflexivity|].
  destruct (size =? 3) eqn:E; symmetry;
    [apply Z.eqb_eq in E; apply Z.eqb_eq | apply Z.eqb_neq in E; apply Z.eqb_neq]; lia.
Qed.

(** One turn of [lastIndexFunc] at a white-space rune that ends the
    slice decodes that rune and steps back over its whole encoding. *)
Lemma space_step_back (r : Z) (pre : list byte) :
  unicode.IsSpace r = true ->
  let q := pre ++ utf8.EncodeRune r in
  (if Zb (last q x00) >=? utf8.RuneSelf then utf8.DecodeLastRune q
   else (Zb (last q x00), 1)) = (r, len (utf8.EncodeRune r)).
Proof.
  intros H. apply IsSpace_cases in H. cbn [In] in H.
  repeat (destruct H as [<-|H]); [..|contradiction];
    match goal with
    | |- context [pre ++ utf8.EncodeRune ?r] =>
        let e := eval vm_compute in (utf8.EncodeRune r) in
        change (utf8.EncodeRune r) with e
    end; cbv zeta;
    match goal with
    | |- context [pre ++ [?a]] =>
        rewrite (last_last pre a x00); vm_compute; reflexivity
    | |- context [pre ++ [?a; ?b]] =>
        change (pre ++ [a; b]) with (pre ++ [a] ++ [b]);
        rewrite (app_assoc pre [a] [b]), (last_last (pre ++ [a]) b x00);
        rewrite <- (app_assoc pre [a] [b]); cbn [app];
        rewrite DecodeLastRune_2 by (vm_compute; first [reflexivity | discriminate]);
        vm_compute; reflexivity
    | |- context [pre ++ [?a; ?b; ?c]] =>
        change (pre ++ [a; b; c]) with (pre ++ [a; b] ++ [c]);
        rewrite (app_assoc pre [a; b] [c]), (last_last (pre ++ [a; b]) c x00);
        rewrite <- (app_assoc pre [a; b] [c]); cbn [app];
        rewrite DecodeLastRune_3 by (vm_compute; first [reflexivity | discriminate]);
        vm_compute; reflexivity
    end.
Qed.

Lemma spaces_length (ws : list Z) :
  Forall (fun r => unicode.IsSpace r = true) ws ->
  (length ws <= length (flat_map utf8.EncodeRune ws))%nat.
Proof.
  induction 1 as [|r ws Hr _ IH]; [simpl; lia|].
  cbn [flat_map length]. rewrite length_app.
  destruct (space_step r [] Hr) as [_ Hpos]. unfold len in Hpos. lia.
Qed.

(** [indexFunc] steps over leading white space and stops at the first
    byte of the text, here an ASCII character that is not a space. *)
Lemma indexFunc_stops (ws : list Z) :
  Forall (fun r => unicode.IsSpace r = true) ws ->
  forall fuel pre b rest,
    (length ws < fuel)%nat ->
    Zb b < utf8.RuneSelf -> unicode.IsSpace (Zb b) = false ->
    bytes.indexFunc_loop fuel (pre ++ flat_map utf8.EncodeRune ws ++ b :: rest)
                         unicode.IsSpace false (len pre)
    = len pre + len (flat_map utf8.EncodeRune ws).
Proof.
  induction 1 as [|r ws Hr Hws IH]; intros fuel pre b rest Hf Hb Hns.
  - destruct fuel; [simpl in Hf; lia|]. cbn [bytes.indexFunc_loop flat_map app].
    assert (Hlt : (len pre <? len (pre ++ b :: rest)) = true).
    { apply Z.ltb_lt. rewrite len_app. unfold len at 3. simpl length. lia. }
    rewrite Hlt, at_app_hd. cbn [hd].
    assert (E : (Zb b >=? utf8.RuneSelf) = false)
      by (rewrite Z.geb_leb; apply Z.leb_gt; lia).
    rewrite E, Hns. cbn [Bool.eqb]. unfold len at 3. simpl. lia.
  - destruct fuel; [simpl in Hf; lia|]. cbn [bytes.indexFunc_loop flat_map].
    rewrite <- app_assoc.
    destruct (space_step r (flat_map utf8.EncodeRune ws ++ b :: rest) Hr)
      as [Hstep Hpos].
    cbv zeta in Hstep.
    assert (Hlt : (len pre <? len (pre ++ utf8.EncodeRune r
                                       ++ flat_map utf8.EncodeRune ws ++ b :: rest)) = true).
    { apply Z.ltb_lt. rewrite !len_app.
      pose proof (len_nonneg (flat_map utf8.EncodeRune ws)).
      pose proof (len_nonneg (b :: rest)). lia. }
    rewrite Hlt, at_app_hd, slice_from_app, Hstep, Hr. cbn [Bool.eqb].
    rewrite <- len_app, app_assoc.
    rewrite IH by (try assumption; simpl in Hf; lia).
    rewrite !len_app. lia.
Qed.

Lemma at_last (core rest : list byte) :
  core <> [] -> at_ (core ++ rest) (len core - 1) = last core x00.
Proof.
  intros Hc. destruct (exists_last Hc) as (c' & b & ->).
  rewrite last_last, <- app_assoc, len_app.
  change (len [b]) with 1. replace (len c' + 1 - 1) with (len c') by lia.
  rewrite at_app_hd. reflexivity.
Qed.

(** [lastIndexFunc] steps back over trailing white space and stops at
    the last byte of the text. *)
Lemma lastIndexFunc_stops (core : list byte) (ws : list Z) :
  core <> [] ->
  Zb (last core x00) < utf8.RuneSelf ->
  unicode.IsSpace (Zb (last core x00)) = false ->
  Forall (fun r => unicode.IsSpace r = true) ws ->
  forall fuel suffix,
    (length ws < fuel)%nat ->
    bytes.lastIndexFunc_loop fuel (core ++ flat_map utf8.EncodeRune ws ++ suffix)
                             unicode.IsSpace false
                             (len (core ++ flat_map utf8.EncodeRune ws))
    = len core - 1.
Proof.
  intros Hc Hb Hns. induction ws as [|r ws IH] using rev_ind;
    intros Hws fuel suffix Hf.
  - destruct fuel; [simpl in Hf; lia|].
    cbn [bytes.lastIndexFunc_loop flat_map app]. rewrite app_nil_r.
    assert (Hpos : (len core >? 0) = true).
    { rewrite Z.gtb_ltb. apply Z.ltb_lt. destruct core; [congruence|].
      unfold len. simpl length. lia. }
    rewrite Hpos, at_last by exact Hc.
    assert (E : (Zb (last core x00) >=? utf8.RuneSelf) = false)
      by (rewrite Z.geb_leb; apply Z.leb_gt; lia).
    rewrite E, Hns. reflexivity.
  - apply Forall_app in Hws as [Hws Hr]. inversion Hr as [|? ? Hr' _]; subst.
    destruct fuel; [simpl in Hf; lia|].
    rewrite length_app in Hf. simpl in Hf.
    rewrite flat_map_app. cbn [flat_map]. rewrite app_nil_r.
    cbn [bytes.lastIndexFunc_loop].
    set (pre := core ++ flat_map utf8.EncodeRune ws).
    assert (Hq : core ++ flat_map utf8.EncodeRune ws ++ utf8.EncodeRune r
                 = pre ++ utf8.EncodeRune r) by (unfold pre; apply app_assoc).
    rewrite Hq.
    assert (Hs : core ++ (flat_map utf8.EncodeRune ws ++ utf8.EncodeRune r) ++ suffix
                 = (pre ++ utf8.EncodeRune r) ++ suffix)
      by (unfold pre; rewrite <- !app_assoc; reflexivity).
    rewrite Hs.
    destruct (space_step r [] Hr') as [_ Hlen].
    assert (Hpos : (len (pre ++ utf8.EncodeRune r) >? 0) = true).
    { rewrite Z.gtb_ltb. apply Z.ltb_lt. rewrite len_app.
      pose proof (len_nonneg pre). lia. }
    rewrite Hpos, slice_to_app.
    assert (Hne : pre ++ utf8.EncodeRune r <> []).
    { intros E. apply (f_equal (@length byte)) in E. rewrite length_app in E.
      unfold len in Hlen. simpl in E. lia. }
    rewrite (at_last _ suffix Hne).
    pose proof (space_step_back r pre Hr') as Hback. cbv zeta in Hback.
    rewrite Hback, Hr'. cbn [Bool.eqb].
    rewrite len_app.
    replace (len pre + len (utf8.EncodeRune r) - len (utf8.EncodeRune r))
      with (len pre) by lia.
    unfold pre. rewrite <- !app_assoc.
    apply IH; [exact Hws | lia].
Qed.

(** A line of text between runs of white-space runes, the text beginning
    and ending with ASCII characters that are not spaces: [TrimFunc]
    returns the text. *)
Lemma TrimFunc_strips (ws1 ws2 : list Z) (core : list byte) :
  Forall (fun r => unicode.IsSpace r = true) ws1 ->
  Forall (fun r => unicode.IsSpace r = true) ws2 ->
  core <> [] ->
  Zb (hd x00 core) < utf8.RuneSelf -> unicode.IsSpace (Zb (hd x00 core)) = false ->
  Zb (last core x00) < utf8.RuneSelf -> unicode.IsSpace (Zb (last core x00)) = false ->
  bytes.TrimFunc (flat_map utf8.EncodeRune ws1 ++ core ++ flat_map utf8.EncodeRune ws2)
                 unicode.IsSpace
  = core.
Proof.
  intros H1 H2 Hc Hh Hhs Hl Hls.
  assert (Hleft : bytes.TrimLeftFunc
                    (flat_map utf8.EncodeRune ws1 ++ core ++ flat_map utf8.EncodeRune ws2)
                    unicode.IsSpace
                  = core ++ flat_map utf8.EncodeRune ws2).
  { unfold bytes.TrimLeftFunc, bytes.indexFunc.
    destruct core as [|b rest]; [congruence|]. cbn [hd] in Hh, Hhs.
    pose proof (indexFunc_stops ws1 H1
                  (length (flat_map utf8.EncodeRune ws1
                           ++ (b :: rest) ++ flat_map utf8.EncodeRune ws2))
                  [] b (rest ++ flat_map utf8.EncodeRune ws2)) as HI.
    cbn [app] in HI. change (len (@nil byte)) with 0 in HI.
    cbn [app]. rewrite HI; [| | exact Hh | exact Hhs].
    - rewrite Z.add_0_l.
      pose proof (len_nonneg (flat_map utf8.EncodeRune ws1)).
      destruct (len (flat_map utf8.EncodeRune ws1) =? -1) eqn:E;
        [apply Z.eqb_eq in E; lia|].
      apply slice_from_app.
    - rewrite length_app. simpl length.
      pose proof (spaces_length ws1 H1). lia. }
  unfold bytes.TrimFunc. rewrite Hleft.
  unfold bytes.TrimRightFunc, bytes.lastIndexFunc.
  pose proof (lastIndexFunc_stops core ws2 Hc Hl Hls H2
                (length (core ++ flat_map utf8.EncodeRune ws2)) []) as HL.
  rewrite !app_nil_r in HL. rewrite HL.
  - assert (Hpos : 1 <= len core).
    { destruct core; [congruence|]. unfold len. simpl length. lia. }
    assert (E1 : (len core - 1 >=? 0) = true)
      by (rewrite Z.geb_leb; apply Z.leb_le; lia).
    rewrite E1, at_last by exact Hc.
    assert (E2 : (Zb (last core x00) >=? utf8.RuneSelf) = false)
      by (rewrite Z.geb_leb; apply Z.leb_gt; lia).
    rewrite E2. cbn [andb].
    replace (len core - 1 + 1) with (len core) by lia.
    apply slice_to_app.
  - rewrite length_app. pose proof (spaces_length ws2 H2).
    destruct core; [congruence|]. simpl length. lia.
Qed.

(** For instance, around a JSON object. *)
Example TrimFunc_strips_json :
  bytes.TrimFunc ([x09; xc2; xa0] ++ bytes_of_string "{}" ++ [xe2; x80; xa8; x0a])
                 unicode.IsSpace
  = bytes_of_string "{}".
Proof.
  apply (TrimFunc_strips [0x09; 0xA0] [0x2028; 0x0A] (bytes_of_string "{}"));
    try (repeat constructor); try discriminate; vm_compute; reflexivity.
Qed.

Section ReduceWhitespace.
Context {codec : GzipCodec}.

(** C10.  A line that is white space from end to end and ends with a
    newline passes the newline test and is trimmed to the empty payload;
    the compressor still produces its stream for the empty payload, which
    goes out as the single chunk 0 of 1, and [Write] returns [(0, nil)]. *)
Theorem Reduce_Write_whitespace_only (gl : Reduce.Client) (net : Net)
        (p : list byte) (c : PacketConn) (ws : list Z) :
  Reduce.conn gl = Some c ->
  gzip.valid_level (Reduce.compressionLevel gl) ->
  Forall (fun r => unicode.IsSpace r = true) ws ->
  spells ws p ->
  newline_terminated p ->
  0 < len (gzip_stream (Reduce.compressionLevel gl) []) <= 1420 ->
  accepts net 1 ->
  let id := fst (Reduce.messageID gl) in
  let empty_stream := gzip_stream (Reduce.compressionLevel gl) [] in
  bytes.HasSuffix p [x0a] = true
  /\ bytes.TrimFunc p unicode.IsSpace = []
  /\ compressed (Reduce.compressionLevel gl) p = empty_stream
  /\ empty_stream <> []
  /\ returned (Reduce.Write gl net p) = Returns (0, None)
  /\ sent_by net (net_after (Reduce.Write gl net p))
     = [sent_ok c (Reduce.addr gl)
          ([x1e; x0f] ++ id ++ [x00; x01] ++ empty_stream)].
Proof.
  intros Hc Hlvl Hws Hsp Hnl Hlen Hacc id empty_stream.
  apply HasSuffix_newline in Hnl.
  assert (Htrim : bytes.TrimFunc p unicode.IsSpace = []).
  { rewrite Hsp. apply TrimFunc_spaces. exact Hws. }
  assert (Hcomp : compressed (Reduce.compressionLevel gl) p = empty_stream).
  { unfold compressed. rewrite Htrim. reflexivity. }
  assert (Hcount : chunkCount (len (compressed (Reduce.compressionLevel gl) p)) = 1).
  { rewrite Hcomp. fold empty_stream in Hlen.
    rewrite chunkCount_div by lia. unfold maxChunkSize.
    destruct (Z.eq_dec (len empty_stream) 1420) as [E|E].
    - rewrite E. reflexivity.
    - rewrite Z.div_small, Z.mod_small by lia.
      destruct (len empty_stream =? 0) eqn:E0; [apply Z.eqb_eq in E0|]; lia. }
  split; [exact Hnl|]. split; [exact Htrim|]. split; [exact Hcomp|]. split.
  { intros E. fold empty_stream in Hlen. rewrite E in Hlen. unfold len in Hlen.
    simpl in Hlen. lia. }
  unfold returned, net_after.
  rewrite (Reduce_Write_delivers gl net p c Hc Hlvl Hnl);
    [| rewrite Hcount; unfold maxChunkCount; lia | rewrite Hcount; exact Hacc].
  rewrite Hcount, Hcomp, Htrim. cbn [fst snd].
  split; [reflexivity|].
  rewrite sent_by_extend. change (Z.to_nat 1) with 1%nat. cbn [frames map].
  rewrite chunkHeader_layout by apply Reduce_messageID_length.
  fold id. unfold slice_to.
  rewrite firstn_all2
    by (fold empty_stream in Hlen; unfold len, maxChunkSize in *; lia).
  reflexivity.
Qed.

End ReduceWhitespace.

(* ================================================================== *)
(** * Message identifiers *)

Lemma testbit_below_pow2 (v n k : Z) :
  0 <= v < 2 ^ k -> 0 <= k <= n -> Z.testbit v n = false.
Proof.
  intros Hv Hk. destruct (Z.eq_dec v 0) as [->|Hnz]; [apply Z.bits_0|].
  apply Z.bits_above_log2; [lia|].
  assert (Z.log2 v < k) by (apply Z.log2_lt_pow2; lia). lia.
Qed.

Ltac byte_bits :=
  repeat match goal with
    | |- context [Z.testbit (?a mod 2 ^ 8) ?m] =>
        first [ rewrite (Z.testbit_neg_r (a mod 2 ^ 8) m) by lia
              | rewrite (Z.mod_pow2_bits_low a 8 m) by lia
              | rewrite (Z.mod_pow2_bits_high a 8 m) by lia ]
    end.

(** Reading back what [PutUint32] wrote. *)
Lemma Uint32_PutUint32 (v : Z) : 0 <= v < 2 ^ 32 -> Uint32 (PutUint32 v) = v.
Proof.
  intros Hv.
  change (Uint32 (PutUint32 v))
    with (Z.lor (Z.lor (Z.lor (Zb (u8 v)) (Z.shiftl (Zb (u8 (Z.shiftr v 8))) 8))
                       (Z.shiftl (Zb (u8 (Z.shiftr v 16))) 16))
                (Z.shiftl (Zb (u8 (Z.shiftr v 24))) 24)).
  rewrite !Zb_u8. change 256 with (2 ^ 8).
  apply Z.bits_inj'. intros n Hn.
  rewrite !Z.lor_spec, !Z.shiftl_spec by lia.
  destruct (Z.lt_ge_cases n 8); [|destruct (Z.lt_ge_cases n 16);
    [|destruct (Z.lt_ge_cases n 24); [|destruct (Z.lt_ge_cases n 32)]]];
    byte_bits; rewrite ?Z.shiftr_spec by lia;
    rewrite ?orb_false_r, ?orb_false_l;
    try (f_equal; lia).
  symmetry. apply (testbit_below_pow2 v n 32); lia.
Qed.

Lemma uint32_range (z : Z) : 0 <= uint32 z < 2 ^ 32.
Proof. unfold uint32. apply Z.mod_pos_bound. lia. Qed.

Lemma uint32_succ (a b : Z) : uint32 (uint32 a + b) = uint32 (a + b).
Proof. unfold uint32. apply Zplus_mod_idemp_l. Qed.

Lemma Reduce_messageID_eq (gl : Reduce.Client) :
  fst (Reduce.messageID gl)
  = array4_bytes (Reduce.instanceID gl)
      ++ PutUint32 (uint32 (Reduce.messageCount gl + 1))
  /\ Reduce.instanceID (snd (Reduce.messageID gl)) = Reduce.instanceID gl
  /\ Reduce.messageCount (snd (Reduce.messageID gl))
     = uint32 (Reduce.messageCount gl + 1).
Proof. repeat split. Qed.

Lemma messageIDs_length (n : nat) :
  forall gl, length (fst (messageIDs n gl)) = n.
Proof.
  induction n as [|n IH]; intros gl; [reflexivity|].
  cbn [messageIDs]. destruct (Reduce.messageID gl) as [id gl'].
  specialize (IH gl'). destruct (messageIDs n gl') as [ids gl''].
  simpl in *. rewrite IH. reflexivity.
Qed.

(** The i-th identifier is the instance tag followed by the counter
    [messageCount + 1 + i], wrapped to 32 bits, in little-endian order. *)
Lemma messageIDs_nth (n : nat) :
  forall gl i, (i < n)%nat ->
    nth i (fst (messageIDs n gl)) []
    = array4_bytes (Reduce.instanceID gl)
        ++ PutUint32 (uint32 (Reduce.messageCount gl + 1 + Z.of_nat i)).
Proof.
  induction n as [|n IH]; intros gl i Hi; [lia|].
  cbn [messageIDs].
  destruct (Reduce_messageID_eq gl) as (Hid & Htag & Hmc).
  destruct (Reduce.messageID gl) as [id gl']. cbn [fst snd] in *.
  specialize (IH gl'). destruct (messageIDs n gl') as [ids gl''].
  cbn [fst] in *. destruct i as [|i].
  - cbn [nth]. rewrite Hid.
    replace (Reduce.messageCount gl + 1 + Z.of_nat 0)
      with (Reduce.messageCount gl + 1) by lia.
    reflexivity.
  - cbn [nth]. rewrite IH by lia. rewrite Htag, Hmc.
    rewrite <- Z.add_assoc, uint32_succ.
    replace (Reduce.messageCount gl + 1 + (1 + Z.of_nat i))
      with (Reduce.messageCount gl + 1 + Z.of_nat (S i)) by lia.
    reflexivity.
Qed.

Lemma array4_bytes_length (a : Array4) : length (array4_bytes a) = 4%nat.
Proof. destruct a as [[[? ?] ?] ?]. reflexivity. Qed.

Lemma id_parts (tag : Array4) (v : Z) :
  0 <= v < 2 ^ 32 ->
  let id := array4_bytes tag ++ PutUint32 v in
  length id = 8%nat /\ firstn 4 id = array4_bytes tag
  /\ Uint32 (skipn 4 id) = v.
Proof.
  intros Hv. destruct tag as [[[a b] c] d]. cbn [array4_bytes app].
  split; [reflexivity|]. split; [reflexivity|].
  cbn [skipn]. apply Uint32_PutUint32. exact Hv.
Qed.

(** C4, as amended.  Up to 2^32 calls of [messageID] in a row on one
    client return as many identifiers, no two equal; each is eight bytes,
    the first four the instance tag of the client, the last four a
    little-endian counter that goes up by one, modulo 2^32, from each call
    to the next. *)
Theorem Reduce_messageID_sequence (gl : Reduce.Client) (N : nat) :
  Z.of_nat N <= 2 ^ 32 ->
  let ids := fst (messageIDs N gl) in
  length ids = N
  /\ NoDup ids
  /\ forall i, (i < N)%nat ->
       let id := nth i ids [] in
       length id = 8%nat
       /\ firstn 4 id = array4_bytes (Reduce.instanceID gl)
       /\ Uint32 (skipn 4 id) = uint32 (Reduce.messageCount gl + 1 + Z.of_nat i)
       /\ ((S i < N)%nat ->
           Uint32 (skipn 4 (nth (S i) ids [])) = uint32 (Uint32 (skipn 4 id) + 1)).
Proof.
  intros HN ids.
  assert (Hlen : length ids = N) by apply messageIDs_length.
  assert (Hparts : forall i, (i < N)%nat ->
            length (nth i ids []) = 8%nat
            /\ firstn 4 (nth i ids []) = array4_bytes (Reduce.instanceID gl)
            /\ Uint32 (skipn 4 (nth i ids []))
               = uint32 (Reduce.messageCount gl + 1 + Z.of_nat i)).
  { intros i Hi. unfold ids. rewrite messageIDs_nth by exact Hi.
    apply id_parts. apply uint32_range. }
  split; [exact Hlen|]. split.
  - apply (NoDup_nth ids []). intros i j Hi Hj Heq.
    rewrite Hlen in Hi, Hj.
    destruct (Hparts i Hi) as (_ & _ & Ui).
    destruct (Hparts j Hj) as (_ & _ & Uj).
    rewrite Heq, Uj in Ui. unfold uint32 in Ui.
    set (m := Reduce.messageCount gl + 1) in *.
    assert (Hd : (Z.of_nat j - Z.of_nat i) mod 2 ^ 32 = 0).
    { replace (Z.of_nat j - Z.of_nat i) with ((m + Z.of_nat j) - (m + Z.of_nat i)) by lia.
      rewrite Zminus_mod, Ui, Z.sub_diag. reflexivity. }
    apply Z.mod_divide in Hd; [|lia]. destruct Hd as [k Hk]. nia.
  - intros i Hi. destruct (Hparts i Hi) as (H8 & Htag & Hu).
    cbv zeta. split; [exact H8|]. split; [exact Htag|]. split; [exact Hu|].
    intros HS. destruct (Hparts (S i) HS) as (_ & _ & ->).
    rewrite Hu, uint32_succ. f_equal. lia.
Qed.

(** After 2^32 calls the counter is back where it started: the first and
    the last of 2^32 + 1 identifiers are the same eight bytes. *)
Lemma messageID_wraps (gl : Reduce.Client) (N : nat) :
  2 ^ 32 < Z.of_nat N ->
  ~ NoDup (fst (messageIDs N gl)).
Proof.
  intros HN Hnd.
  pose proof (proj1 (NoDup_nth _ []) Hnd 0%nat (Z.to_nat (2 ^ 32))) as H.
  rewrite messageIDs_length in H.
  assert (E : 0%nat = Z.to_nat (2 ^ 32)).
  { apply H; [lia | lia |].
    rewrite !messageIDs_nth by lia.
    f_equal. f_equal. unfold uint32.
    rewrite Z2Nat.id by lia. change (Z.of_nat 0) with 0.
    replace (Reduce.messageCount gl + 1 + 2 ^ 32)
      with (Reduce.messageCount gl + 1 + 0 + 1 * 2 ^ 32) by lia.
    rewrite Z.mod_add by lia. reflexivity. }
  lia.
Qed.

(* ================================================================== *)
(** * Construction *)

Lemma level_rejected_valid (lvl : Z) :
  level_rejected lvl = false -> gzip.valid_level lvl.
Proof.
  unfold level_rejected, gzip.valid_level, gzip.NoCompression,
    gzip.DefaultCompression, gzip.BestCompression, gzip.BestSpeed, gzip.HuffmanOnly.
  lia.
Qed.

(** C8, as amended.  Without a transport, [New] returns no client and the
    error "cannot create new Client without a connection", in the three
    versions alike. *)
Theorem New_requires_transport (c : Config) (rnd : RandRead) :
  ClientPacketConn c = None ->
  Reduce.New c rnd = (None, Some ErrNoConnection)
  /\ Reuse.New c rnd = (None, Some ErrNoConnection)
  /\ Recycle.New c rnd = (None, Some ErrNoConnection)
  /\ Error ErrNoConnection = "cannot create new Client without a connection"%string.
Proof.
  intros H. unfold Reduce.New, Reuse.New, Recycle.New. rewrite H.
  repeat split.
Qed.

(** The destination address is stored as given, absent or not; it takes
    no part in the checks of [New]. *)
Lemma Reduce_New_ignores_address (c : Config) (rnd : RandRead) (a : option Addr) :
  snd (Reduce.New {| CompressionLevel := CompressionLevel c;
                     ServerAddr := a;
                     ClientPacketConn := ClientPacketConn c |} rnd)
  = snd (Reduce.New c rnd).
Proof.
  unfold Reduce.New. cbn [ClientPacketConn CompressionLevel].
  destruct (ClientPacketConn c); [|reflexivity].
  destruct (level_rejected (CompressionLevel c)); [reflexivity|].
  destruct (rand_err rnd); reflexivity.
Qed.

(* ================================================================== *)
(** * Reset of the encoding resource *)

Lemma not_terminated_HasSuffix (p : list byte) :
  ~ newline_terminated p -> bytes.HasSuffix p newline = false.
Proof.
  intros H. destruct (bytes.HasSuffix p newline) eqn:E; [|reflexivity].
  apply HasSuffix_newline in E. contradiction.
Qed.

Section ReuseWrite.
Context {codec : GzipCodec}.

(** The exits of [Write] before [gl.writeMux.Lock()] leave the client and
    the transport as they were. *)
Lemma Reuse_Write_rejected (gl : Reuse.Client) (net : Net) (p : list byte) :
  ~ newline_terminated p ->
  client_after (Reuse.Write gl net p) = gl /\ net_after (Reuse.Write gl net p) = net.
Proof.
  intros H. unfold Reuse.Write. change [x0a] with newline.
  rewrite (not_terminated_HasSuffix p H).
  destruct (len p =? 0); split; reflexivity.
Qed.

(** Whatever the locked part does, the compressor it leaves is the one it
    found, at the same level. *)
Lemma Reuse_locked_zip (gl : Reuse.Client) (net : Net) (p : list byte)
      (z : gzip.Writer) :
  Reuse.zip gl = Some z ->
  exists z', Reuse.zip (client_after (Reuse.locked gl net p)) = Some z'
             /\ gzip.level z' = gzip.level z.
Proof.
  intros Hz. unfold Reuse.locked, client_after. rewrite Hz.
  unfold gzip.Write, gzip.Close.
  destruct (gzip.closed z) eqn:Ec; cbn [gzip.closed gzip.level failed].
  - rewrite Ec. cbn. exists z. split; reflexivity.
  - cbn [Reuse.with_resource Reuse.buf Reuse.zip].
    destruct (chunkCount _ >? maxChunkCount).
    + cbn. eexists. split; reflexivity.
    + unfold Reuse.messageID. cbn [Reuse.instanceID Reuse.messageCount].
      destruct (nextID _ _) as [id n]. cbn [Reuse.conn Reuse.addr Reuse.buf Reuse.zip].
      destruct (sendChunks _ _ _ _ _ _ _ _) as [[r b] net'].
      destruct r as [[e|]|]; cbn; eexists; split; reflexivity.
Qed.

(** Every exit past the lock goes through the deferred function: the
    buffer is empty and the compressor is open on it, in whatever state
    the call found or left them. *)
Lemma Reuse_Write_resets (gl : Reuse.Client) (net : Net) (p : list byte)
      (z : gzip.Writer) :
  Reuse.zip gl = Some z ->
  newline_terminated p ->
  Reuse.buf (client_after (Reuse.Write gl net p)) = []
  /\ Reuse.zip (client_after (Reuse.Write gl net p)) = Some (open_writer (gzip.level z)).
Proof.
  intros Hz Hnl. apply HasSuffix_newline in Hnl.
  unfold Reuse.Write. rewrite (HasSuffix_nonempty p Hnl).
  change [x0a] with newline. rewrite Hnl. cbn [negb].
  destruct (Reuse_locked_zip gl net p z Hz) as (z' & Hz' & Hl).
  unfold client_after in *.
  destruct (Reuse.locked gl net p) as [[r gl1] net1]. cbn [fst snd] in *.
  unfold Reuse.deferred. cbn [Reuse.with_resource Reuse.buf Reuse.zip].
  rewrite Hz'. cbn [option_map]. unfold gzip.Reset, open_writer. rewrite Hl.
  split; reflexivity.
Qed.

Lemma Reuse_Write_keeps_ready (lvl : Z) (gl : Reuse.Client) (net : Net)
      (p : list byte) :
  Reuse_ready lvl gl -> Reuse_ready lvl (client_after (Reuse.Write gl net p)).
Proof.
  intros (Hlvl & Hb & Hz).
  destruct (bytes.HasSuffix p newline) eqn:E.
  - apply HasSuffix_newline in E.
    destruct (Reuse_Write_resets gl net p _ Hz E) as [Hb' Hz'].
    repeat split; try assumption; apply Hlvl.
  - assert (Hn : ~ newline_terminated p).
    { intros H. apply HasSuffix_newline in H. congruence. }
    destruct (Reuse_Write_rejected gl net p Hn) as [-> _].
    repeat split; try assumption; apply Hlvl.
Qed.

Lemma Reuse_messageID_length (gl : Reuse.Client) :
  length (fst (Reuse.messageID gl)) = 8%nat.
Proof.
  unfold Reuse.messageID.
  pose proof (nextID_length (Reuse.instanceID gl) (Reuse.messageCount gl)) as H.
  destruct (nextID _ _). exact H.
Qed.

(** On a ready resource [Write] behaves as the first version does. *)
Lemma Reuse_Write_delivers (lvl : Z) (gl : Reuse.Client) (net : Net)
      (p : list byte) (c : PacketConn) :
  Reuse_ready lvl gl ->
  Reuse.conn gl = Some c ->
  bytes.HasSuffix p newline = true ->
  let stream := compressed lvl p in
  let count := chunkCount (len stream) in
  count <= maxChunkCount ->
  accepts net count ->
  returned (Reuse.Write gl net p)
  = Returns (len (bytes.TrimFunc p unicode.IsSpace), None)
  /\ net_after (Reuse.Write gl net p)
     = extend net (map (sent_ok c (Reuse.addr gl))
                       (frames (Z.to_nat count) 0 count
                               (fst (Reuse.messageID gl)) stream)).
Proof.
  intros (Hlvl & Hb & Hz) Hc Hnl stream count Hfit Hacc.
  unfold returned, net_after, Reuse.Write.
  rewrite (HasSuffix_nonempty p Hnl).
  change [x0a] with newline. rewrite Hnl. cbn [negb].
  unfold Reuse.locked. rewrite Hz, Hb.
  unfold gzip.Write, gzip.Close, open_writer.
  cbn [gzip.closed gzip.level gzip.pending failed].
  unfold Buffer.Write, Buffer.Len. cbn [app].
  cbn [Reuse.with_resource Reuse.buf Reuse.zip].
  fold (compressed lvl p). fold stream. fold count.
  destruct (count >? maxChunkCount) eqn:E; [apply Z.gtb_lt in E; lia|].
  pose proof (chunkCount_bounds (len stream) (len_nonneg _)) as [Hc0 _].
  fold count in Hc0.
  unfold Reuse.messageID. cbn [Reuse.instanceID Reuse.messageCount].
  destruct (nextID _ _) as [id n].
  unfold Reuse.with_resource.
  cbn [Reuse.conn Reuse.addr Reuse.buf Reuse.zip fst].
  rewrite Hc, sendChunks_ok; [| lia | rewrite Z2Nat.id by lia; exact Hacc].
  split; reflexivity.
Qed.

End ReuseWrite.

Section RecycleWrite.
Context {codec : GzipCodec}.

Lemma Recycle_Write_rejected (gl : Recycle.Client) (net : Net) (p : list byte) :
  ~ newline_terminated p ->
  client_after (Recycle.Write gl net p) = gl
  /\ net_after (Recycle.Write gl net p) = net.
Proof.
  intros H. unfold Recycle.Write. change [x0a] with newline.
  rewrite (not_terminated_HasSuffix p H).
  destruct (len p =? 0); split; reflexivity.
Qed.

(** [message.Write] leaves the compressor it found, at the same level,
    and does not touch a message without one. *)
Lemma message_Write_zip (msg : Recycle.message) (net : Net) (p : list byte) :
  option_map gzip.level (Recycle.zip (snd (fst (Recycle.message_Write msg net p))))
  = option_map gzip.level (Recycle.zip msg).
Proof.
  unfold Recycle.message_Write.
  destruct (Recycle.zip msg) as [z|] eqn:Hz; [|cbn; rewrite Hz; reflexivity].
  unfold gzip.Write, gzip.Close.
  destruct (gzip.closed z) eqn:Ec; cbn [gzip.closed gzip.level failed].
  - rewrite Ec. reflexivity.
  - cbn [Recycle.buf Recycle.zip Recycle.id Recycle.conn Recycle.addr].
    destruct (chunkCount _ >? maxChunkCount); [reflexivity|].
    destruct (sendChunks _ _ _ _ _ _ _ _) as [[r b] net'].
    destruct r as [[e|]|]; reflexivity.
Qed.

(** Past the input checks, [Write] ends in [freeMessage]: the message it
    puts back has an empty buffer, a compressor open on it and a zeroed
    identifier, whatever [message.Write] returned. *)
Lemma Recycle_Write_resets (gl : Recycle.Client) (net : Net) (p : list byte) :
  newline_terminated p ->
  let taken := fst (Recycle.Get (Recycle.msgPool gl)) in
  let gl' := client_after (Recycle.Write gl net p) in
  exists m,
    Recycle.pooled (Recycle.msgPool gl')
    = m :: Recycle.pooled (snd (Recycle.Get (Recycle.msgPool gl)))
    /\ Recycle.newLevel (Recycle.msgPool gl') = Recycle.newLevel (Recycle.msgPool gl)
    /\ Recycle.buf m = []
    /\ Recycle.id m = repeat x00 8
    /\ Recycle.zip m
       = option_map (fun z => open_writer (gzip.level z)) (Recycle.zip taken).
Proof.
  intros Hnl taken gl'. apply HasSuffix_newline in Hnl.
  unfold gl', client_after, Recycle.Write.
  rewrite (HasSuffix_nonempty p Hnl).
  change [x0a] with newline. rewrite Hnl. cbn [negb].
  unfold Recycle.newMessage.
  assert (HL : Recycle.newLevel (snd (Recycle.Get (Recycle.msgPool gl)))
               = Recycle.newLevel (Recycle.msgPool gl)).
  { unfold Recycle.Get. destruct (Recycle.pooled (Recycle.msgPool gl)); reflexivity. }
  unfold taken. clear taken gl'.
  destruct (Recycle.Get (Recycle.msgPool gl)) as [msg pl]. cbn [fst snd] in *.
  unfold Recycle.messageID, Recycle.with_state.
  cbn [Recycle.instanceID Recycle.messageCount Recycle.msgPool
       Recycle.gl_conn Recycle.gl_addr].
  destruct (nextID _ _) as [i n].
  cbn [Recycle.instanceID Recycle.messageCount Recycle.msgPool
       Recycle.gl_conn Recycle.gl_addr].
  match goal with
  | |- context [Recycle.message_Write ?m net p] =>
      pose proof (message_Write_zip m net p) as HZ;
      destruct (Recycle.message_Write m net p) as [[r msg'] net']
  end.
  cbn [fst snd Recycle.zip] in HZ.
  unfold Recycle.freeMessage, Recycle.Put, Recycle.with_state.
  cbn [fst snd Recycle.msgPool Recycle.pooled Recycle.newLevel].
  eexists. split; [reflexivity|]. split; [exact HL|].
  cbn [Recycle.buf Recycle.id Recycle.zip].
  split; [reflexivity|]. split; [reflexivity|].
  destruct (Recycle.zip msg') as [z'|], (Recycle.zip msg) as [z|];
    cbn in HZ |- *; try discriminate; [|reflexivity].
  injection HZ as HZ. unfold gzip.Reset, open_writer. rewrite HZ. reflexivity.
Qed.

(** What [Get] hands out from a ready pool is ready. *)
Lemma Get_ready (gl : Recycle.Client) :
  Recycle_ready gl ->
  let lvl := Recycle.newLevel (Recycle.msgPool gl) in
  message_ready lvl (fst (Recycle.Get (Recycle.msgPool gl)))
  /\ Forall (message_ready lvl)
            (Recycle.pooled (snd (Recycle.Get (Recycle.msgPool gl)))).
Proof.
  intros [Hlvl Hall] lvl. unfold Recycle.Get. fold lvl in Hall, Hlvl.
  destruct (Recycle.pooled (Recycle.msgPool gl)) as [|m rest] eqn:E.
  - cbn [fst snd]. rewrite E. split; [|constructor].
    unfold message_ready, Recycle.Pool_New. cbn [Recycle.buf Recycle.zip].
    fold lvl. rewrite (NewWriterLevel_valid lvl Hlvl). split; reflexivity.
  - cbn [fst snd Recycle.pooled]. inversion Hall; subst. split; assumption.
Qed.

Lemma Recycle_Write_keeps_ready (gl : Recycle.Client) (net : Net) (p : list byte) :
  Recycle_ready gl -> Recycle_ready (client_after (Recycle.Write gl net p)).
Proof.
  intros Hr.
  destruct (bytes.HasSuffix p newline) eqn:E.
  - apply HasSuffix_newline in E.
    destruct (Recycle_Write_resets gl net p E) as (m & Hp & HL & Hb & _ & Hz).
    destruct (Get_ready gl Hr) as [[_ Hz0] Hrest].
    unfold Recycle_ready. rewrite Hp, HL. split; [apply Hr|].
    constructor; [|exact Hrest].
    split; [exact Hb|]. rewrite Hz, Hz0. reflexivity.
  - assert (Hn : ~ newline_terminated p).
    { intros H. apply HasSuffix_newline in H. congruence. }
    destruct (Recycle_Write_rejected gl net p Hn) as [-> _]. exact Hr.
Qed.

Lemma Recycle_messageID_length (gl : Recycle.Client) :
  length (fst (Recycle.messageID gl)) = 8%nat.
Proof.
  unfold Recycle.messageID.
  pose proof (nextID_length (Recycle.instanceID gl) (Recycle.messageCount gl)) as H.
  destruct (nextID _ _). exact H.
Qed.

Lemma Recycle_Write_delivers (gl : Recycle.Client) (net : Net)
      (p : list byte) (c : PacketConn) :
  Recycle_ready gl ->
  Recycle.gl_conn gl = Some c ->
  bytes.HasSuffix p newline = true ->
  let stream := compressed (Recycle.newLevel (Recycle.msgPool gl)) p in
  let count := chunkCount (len stream) in
  count <= maxChunkCount ->
  accepts net count ->
  returned (Recycle.Write gl net p)
  = Returns (len (bytes.TrimFunc p unicode.IsSpace), None)
  /\ net_after (Recycle.Write gl net p)
     = extend net (map (sent_ok c (Recycle.gl_addr gl))
                       (frames (Z.to_nat count) 0 count
                               (fst (Recycle.messageID gl)) stream)).
Proof.
  intros Hr Hc Hnl stream count Hfit Hacc.
  destruct (Get_ready gl Hr) as [[Hb Hz] _].
  unfold returned, net_after, Recycle.Write.
  rewrite (HasSuffix_nonempty p Hnl).
  change [x0a] with newline. rewrite Hnl. cbn [negb].
  unfold Recycle.newMessage.
  destruct (Recycle.Get (Recycle.msgPool gl)) as [msg pl]. cbn [fst snd] in *.
  unfold Recycle.messageID, Recycle.with_state.
  cbn [Recycle.instanceID Recycle.messageCount Recycle.msgPool
       Recycle.gl_conn Recycle.gl_addr].
  destruct (nextID _ _) as [i n].
  cbn [Recycle.instanceID Recycle.messageCount Recycle.msgPool
       Recycle.gl_conn Recycle.gl_addr fst].
  unfold Recycle.message_Write.
  cbn [Recycle.buf Recycle.zip Recycle.id Recycle.conn Recycle.addr].
  rewrite Hz, Hb.
  unfold gzip.Write, gzip.Close, open_writer.
  cbn [gzip.closed gzip.level gzip.pending failed].
  unfold Buffer.Write, Buffer.Len. cbn [app].
  cbn [Recycle.buf Recycle.zip Recycle.id Recycle.conn Recycle.addr].
  fold (compressed (Recycle.newLevel (Recycle.msgPool gl)) p).
  fold stream. fold count.
  destruct (count >? maxChunkCount) eqn:E; [apply Z.gtb_lt in E; lia|].
  pose proof (chunkCount_bounds (len stream) (len_nonneg _)) as [Hc0 _].
  fold count in Hc0.
  rewrite Hc, sendChunks_ok; [| lia | rewrite Z2Nat.id by lia; exact Hacc].
  split; reflexivity.
Qed.

End RecycleWrite.

Section Preserved.
Context {codec : GzipCodec}.

Lemma Reuse_locked_conn (gl : Reuse.Client) (net : Net) (p : list byte) :
  Reuse.conn (client_after (Reuse.locked gl net p)) = Reuse.conn gl
  /\ Reuse.addr (client_after (Reuse.locked gl net p)) = Reuse.addr gl.
Proof.
  unfold Reuse.locked, client_after.
  destruct (Reuse.zip gl) as [z|]; [|split; reflexivity].
  unfold gzip.Write, gzip.Close.
  destruct (gzip.closed z) eqn:Ec; cbn [gzip.closed gzip.level failed].
  - rewrite Ec. split; reflexivity.
  - cbn [Reuse.with_resource Reuse.buf Reuse.zip].
    destruct (chunkCount _ >? maxChunkCount); [split; reflexivity|].
    unfold Reuse.messageID. cbn [Reuse.instanceID Reuse.messageCount].
    destruct (nextID _ _) as [id n]. cbn [Reuse.conn Reuse.addr Reuse.buf Reuse.zip].
    destruct (sendChunks _ _ _ _ _ _ _ _) as [[r b] net'].
    destruct r as [[e|]|]; split; reflexivity.
Qed.

(** [Write] changes neither the transport handle nor the destination. *)
Lemma Reuse_Write_conn (gl : Reuse.Client) (net : Net) (p : list byte) :
  Reuse.conn (client_after (Reuse.Write gl net p)) = Reuse.conn gl
  /\ Reuse.addr (client_after (Reuse.Write gl net p)) = Reuse.addr gl.
Proof.
  unfold Reuse.Write.
  destruct (len p =? 0); [split; reflexivity|].
  destruct (negb (bytes.HasSuffix p [x0a])); [split; reflexivity|].
  pose proof (Reuse_locked_conn gl net p) as H. unfold client_after in *.
  destruct (Reuse.locked gl net p) as [[r gl1] net1]. exact H.
Qed.

Lemma Recycle_Write_conn (gl : Recycle.Client) (net : Net) (p : list byte) :
  Recycle.gl_conn (client_after (Recycle.Write gl net p)) = Recycle.gl_conn gl
  /\ Recycle.gl_addr (client_after (Recycle.Write gl net p)) = Recycle.gl_addr gl
  /\ Recycle.newLevel (Recycle.msgPool (client_after (Recycle.Write gl net p)))
     = Recycle.newLevel (Recycle.msgPool gl).
Proof.
  unfold Recycle.Write, client_after.
  destruct (len p =? 0); [repeat split; reflexivity|].
  destruct (negb (bytes.HasSuffix p [x0a])); [repeat split; reflexivity|].
  unfold Recycle.newMessage.
  assert (HL : Recycle.newLevel (snd (Recycle.Get (Recycle.msgPool gl)))
               = Recycle.newLevel (Recycle.msgPool gl)).
  { unfold Recycle.Get. destruct (Recycle.pooled (Recycle.msgPool gl)); reflexivity. }
  destruct (Recycle.Get (Recycle.msgPool gl)) as [msg pl]. cbn [snd] in HL.
  unfold Recycle.messageID, Recycle.with_state.
  cbn [Recycle.instanceID Recycle.messageCount Recycle.msgPool
       Recycle.gl_conn Recycle.gl_addr].
  destruct (nextID _ _) as [i n].
  cbn [Recycle.instanceID Recycle.messageCount Recycle.msgPool
       Recycle.gl_conn Recycle.gl_addr].
  destruct (Recycle.message_Write _ net p) as [[r msg'] net'].
  repeat split; try reflexivity. exact HL.
Qed.

End Preserved.

Section NoLeak.
Context {codec : GzipCodec}.

(** The frames of one compressed payload, once delivered, reassemble and
    gunzip to the trimmed line. *)
Lemma frames_round_trip (lvl : Z) (p id : list byte) c a :
  codec_round_trip codec ->
  gzip.valid_level lvl ->
  length id = 8%nat ->
  let stream := compressed lvl p in
  let count := chunkCount (len stream) in
  count <= maxChunkCount ->
  gunzip (reassemble (delivered (map (sent_ok c a)
                                     (frames (Z.to_nat count) 0 count id stream))))
  = Some (bytes.TrimFunc p unicode.IsSpace).
Proof.
  intros RT Hlvl Hid stream count Hfit.
  rewrite delivered_sent_ok.
  pose proof (chunkCount_bounds (len stream) (len_nonneg _)) as (Hc0 & Hle & _).
  fold count in Hc0, Hle. unfold maxChunkCount in Hfit.
  rewrite reassemble_frames.
  - apply RT. exact Hlvl.
  - exact Hid.
  - rewrite Z2Nat.id by lia. lia.
  - rewrite Z2Nat.id by lia. exact Hle.
Qed.

(** C5.  Past its input checks every exit of [Write], whatever it returns,
    leaves the encoding resource reset: the accumulator empty and the
    compressor open on it with nothing pending, in the client of the
    second file and in the message put back into the pool of the third;
    the exits before (empty input, missing newline) never touched the
    resource, so that a resource that was ready before a call is ready
    after it, on every exit.  So a line B written after any line A,
    through the same resource, goes out as the chunks of B's own
    compressed payload, and these reassemble and gunzip to B trimmed. *)
Theorem resource_reset_on_every_exit :
  codec_round_trip codec ->
  (forall lvl gl net p,
      Reuse_ready lvl gl -> Reuse_ready lvl (client_after (Reuse.Write gl net p)))
  /\ (forall gl net p,
        Recycle_ready gl -> Recycle_ready (client_after (Recycle.Write gl net p)))
  /\ (forall gl net p z,
      Reuse.zip gl = Some z ->
      let gl' := client_after (Reuse.Write gl net p) in
      (newline_terminated p ->
       Reuse.buf gl' = [] /\ Reuse.zip gl' = Some (open_writer (gzip.level z)))
      /\ (~ newline_terminated p -> gl' = gl))
  /\ (forall lvl gl net A B c,
        Reuse_ready lvl gl ->
        Reuse.conn gl = Some c ->
        B <> [] ->
        newline_terminated B ->
        let gl1 := client_after (Reuse.Write gl net A) in
        let net1 := net_after (Reuse.Write gl net A) in
        let stream := compressed lvl B in
        let count := chunkCount (len stream) in
        count <= maxChunkCount ->
        accepts net1 count ->
        let sent := sent_by net1 (net_after (Reuse.Write gl1 net1 B)) in
        sent = map (sent_ok c (Reuse.addr gl))
                   (datagrams (fst (Reuse.messageID gl1)) count stream)
        /\ gunzip (reassemble (delivered sent))
           = Some (bytes.TrimFunc B unicode.IsSpace))
  /\ (forall gl net p,
        let gl' := client_after (Recycle.Write gl net p) in
        (newline_terminated p ->
         exists m,
           Recycle.pooled (Recycle.msgPool gl')
           = m :: Recycle.pooled (snd (Recycle.Get (Recycle.msgPool gl)))
           /\ Recycle.buf m = []
           /\ Recycle.zip m
              = option_map (fun z => open_writer (gzip.level z))
                           (Recycle.zip (fst (Recycle.Get (Recycle.msgPool gl)))))
        /\ (~ newline_terminated p -> gl' = gl))
  /\ (forall gl net A B c,
        Recycle_ready gl ->
        Recycle.gl_conn gl = Some c ->
        B <> [] ->
        newline_terminated B ->
        let gl1 := client_after (Recycle.Write gl net A) in
        let net1 := net_after (Recycle.Write gl net A) in
        let stream := compressed (Recycle.newLevel (Recycle.msgPool gl)) B in
        let count := chunkCount (len stream) in
        count <= maxChunkCount ->
        accepts net1 count ->
        let sent := sent_by net1 (net_after (Recycle.Write gl1 net1 B)) in
        sent = map (sent_ok c (Recycle.gl_addr gl))
                   (datagrams (fst (Recycle.messageID gl1)) count stream)
        /\ gunzip (reassemble (delivered sent))
           = Some (bytes.TrimFunc B unicode.IsSpace)).
Proof.
  intros RT. split; [|split; [|split; [|split; [|split]]]].
  - intros lvl gl net p. apply Reuse_Write_keeps_ready.
  - intros gl net p. apply Recycle_Write_keeps_ready.
  - intros gl net p z Hz gl'. split.
    + intros Hnl. apply (Reuse_Write_resets gl net p z Hz Hnl).
    + intros Hn. apply (Reuse_Write_rejected gl net p Hn).
  - intros lvl gl net A B c Hr Hc _ HnlB gl1 net1 stream count Hfit Hacc sent.
    apply HasSuffix_newline in HnlB.
    pose proof (Reuse_Write_keeps_ready lvl gl net A Hr) as Hr1. fold gl1 in Hr1.
    destruct (Reuse_Write_conn gl net A) as [Hc1 Ha1]. fold gl1 in Hc1, Ha1.
    rewrite Hc in Hc1.
    destruct (Reuse_Write_delivers lvl gl1 net1 B c Hr1 Hc1 HnlB Hfit Hacc)
      as [_ Hnet].
    fold stream count in Hnet.
    unfold sent. rewrite Hnet, sent_by_extend, Ha1. split.
    + rewrite frames_datagrams by apply Reuse_messageID_length. reflexivity.
    + apply frames_round_trip;
        [exact RT | apply Hr | apply Reuse_messageID_length | exact Hfit].
  - intros gl net p gl'. split.
    + intros Hnl.
      destruct (Recycle_Write_resets gl net p Hnl) as (m & Hp & _ & Hb & _ & Hz).
      exists m. repeat split; assumption.
    + intros Hn. apply (Recycle_Write_rejected gl net p Hn).
  - intros gl net A B c Hr Hc _ HnlB gl1 net1 stream count Hfit Hacc sent.
    apply HasSuffix_newline in HnlB.
    pose proof (Recycle_Write_keeps_ready gl net A Hr) as Hr1. fold gl1 in Hr1.
    destruct (Recycle_Write_conn gl net A) as (Hc1 & Ha1 & Hl1).
    fold gl1 in Hc1, Ha1, Hl1. rewrite Hc in Hc1.
    pose proof (Recycle_Write_delivers gl1 net1 B c Hr1 Hc1 HnlB) as HD.
    rewrite Hl1 in HD. fold stream count in HD.
    destruct (HD Hfit Hacc) as [_ Hnet].
    unfold sent. rewrite Hnet, sent_by_extend, Ha1. split.
    + rewrite frames_datagrams by apply Recycle_messageID_length. reflexivity.
    + apply frames_round_trip;
        [exact RT | apply Hr | apply Recycle_messageID_length | exact Hfit].
Qed.

End NoLeak.

(* ================================================================== *)
(** * The stored codec reads back what it writes *)

Lemma Uint16_PutUint16 (v : Z) :
  0 <= v < 2 ^ 16 -> Uint16 (u8 v) (u8 (Z.shiftr v 8)) = v.
Proof.
  intros Hv. unfold Uint16. rewrite !Zb_u8. change 256 with (2 ^ 8).
  apply Z.bits_inj'. intros n Hn.
  rewrite Z.lor_spec, Z.shiftl_spec by lia.
  destruct (Z.lt_ge_cases n 8); [|destruct (Z.lt_ge_cases n 16)];
    byte_bits; rewrite ?Z.shiftr_spec by lia;
    rewrite ?orb_false_r, ?orb_false_l;
    try (f_equal; lia).
  symmetry. apply (testbit_below_pow2 v n 16); lia.
Qed.

Lemma lxor_ones16_range (v : Z) :
  0 <= v < 2 ^ 16 -> 0 <= Z.lxor v 0xFFFF < 2 ^ 16.
Proof.
  intros Hv. split; [apply Z.lxor_nonneg; lia|].
  destruct (Z.eq_dec (Z.lxor v 0xFFFF) 0) as [->|Hnz]; [lia|].
  assert (0 <= Z.lxor v 0xFFFF) by (apply Z.lxor_nonneg; lia).
  apply Z.log2_lt_pow2; [lia|].
  pose proof (Z.log2_lxor v 0xFFFF ltac:(lia) ltac:(lia)) as Hl.
  assert (Z.log2 v < 16).
  { destruct (Z.eq_dec v 0) as [->|]; [reflexivity|]. apply Z.log2_lt_pow2; lia. }
  change (Z.log2 0xFFFF) with 15 in Hl. lia.
Qed.

Lemma Equal_refl (l : list byte) : bytes.Equal l l = true.
Proof.
  induction l as [|x l IH]; [reflexivity|]. simpl. unfold bytes.byte_eqb.
  rewrite (Byte.byte_dec_lb (eq_refl x)). exact IH.
Qed.

Lemma stored_header_bytes (final : bool) (n : Z) :
  stored_header final n
  = [if final then x01 else x00; u8 n; u8 (Z.shiftr n 8);
     u8 (Z.lxor n 0xFFFF); u8 (Z.shiftr (Z.lxor n 0xFFFF) 8)].
Proof. reflexivity. Qed.

(** One stored block is read back as it was written. *)
Lemma inflate_block (F : nat) (final : bool) (block rest acc : list byte) :
  len block < 2 ^ 16 ->
  inflate_stored (S F) (stored_header final (len block) ++ block ++ rest) acc
  = if final then Some (acc ++ block, rest)
    else inflate_stored F rest (acc ++ block).
Proof.
  intros Hn. rewrite stored_header_bytes. cbn [app inflate_stored].
  pose proof (len_nonneg block) as H0.
  rewrite !Uint16_PutUint16 by (try apply lxor_ones16_range; lia).
  assert (Hb : Z.land (Z.shiftr (Zb (if final then x01 else x00)) 1) 3 = 0)
    by (destruct final; reflexivity).
  rewrite Hb. cbn [Z.eqb negb].
  rewrite <- Z.lxor_assoc, Z.lxor_nilpotent, Z.lxor_0_l. cbn [Z.eqb Pos.eqb negb].
  assert (Hl : (len (block ++ rest) <? len block) = false).
  { apply Z.ltb_ge. rewrite len_app. pose proof (len_nonneg rest). lia. }
  rewrite Hl.
  assert (Hto : slice_to (block ++ rest) (len block) = block).
  { unfold slice_to, len. rewrite Nat2Z.id.
    replace (length block) with (length block + 0)%nat by lia.
    rewrite firstn_app_2. simpl. apply app_nil_r. }
  assert (Hfrom : slice_from (block ++ rest) (len block) = rest).
  { unfold slice_from, len. rewrite Nat2Z.id.
    rewrite skipn_app, Nat.sub_diag, skipn_all. reflexivity. }
  rewrite Hto, Hfrom. destruct final; reflexivity.
Qed.

Lemma inflate_final (F : nat) (tail acc : list byte) :
  inflate_stored (S F) (stored_header true 0 ++ tail) acc = Some (acc, tail).
Proof.
  pose proof (inflate_block F true [] tail acc ltac:(cbn; lia)) as H.
  rewrite app_nil_r in H. exact H.
Qed.

Lemma inflate_stored_blocks (fuel : nat) :
  forall data F acc tail,
    (length data <= fuel)%nat -> (length data < F)%nat ->
    inflate_stored F (stored_blocks fuel data ++ stored_header true 0 ++ tail) acc
    = Some (acc ++ data, tail).
Proof.
  induction fuel as [|k IH]; intros data F acc tail Hk HF.
  - destruct data; [|simpl in Hk; lia]. destruct F; [simpl in HF; lia|].
    cbn [stored_blocks app]. rewrite inflate_final, app_nil_r. reflexivity.
  - destruct data as [|x d].
    + destruct F; [simpl in HF; lia|]. cbn [stored_blocks app].
      rewrite inflate_final, app_nil_r. reflexivity.
    + destruct F; [simpl in HF; lia|].
      cbn [stored_blocks]. set (data := x :: d) in *.
      rewrite <- !app_assoc.
      rewrite (inflate_block F false).
      * rewrite IH.
        -- rewrite <- app_assoc. unfold slice_to, slice_from.
           rewrite firstn_skipn. reflexivity.
        -- unfold slice_from. rewrite length_skipn.
           unfold data in *. simpl length in *. unfold maxStoreBlockSize. lia.
        -- unfold slice_from. rewrite length_skipn.
           unfold data in *. simpl length in *. unfold maxStoreBlockSize. lia.
      * unfold slice_to, len. rewrite length_firstn. unfold maxStoreBlockSize. lia.
Qed.

Lemma stored_blocks_length (fuel : nat) :
  forall data, (length data <= fuel)%nat ->
               (length data <= length (stored_blocks fuel data))%nat.
Proof.
  induction fuel as [|k IH]; intros data Hk.
  - destruct data; simpl in *; lia.
  - destruct data as [|x d]; [simpl; lia|].
    cbn [stored_blocks]. set (data := x :: d) in *.
    rewrite !length_app.
    assert (Hrest : (length (slice_from data maxStoreBlockSize) <= k)%nat).
    { unfold slice_from. rewrite length_skipn.
      unfold data in *. simpl length in *. unfold maxStoreBlockSize. lia. }
    specialize (IH _ Hrest).
    pose proof (firstn_skipn (Z.to_nat maxStoreBlockSize) data) as Hsplit.
    apply (f_equal (@length byte)) in Hsplit. rewrite length_app in Hsplit.
    unfold slice_to, slice_from in *. lia.
Qed.

Lemma stored_gunzip_gzip (lvl : Z) (data : list byte) :
  stored_gunzip (stored_gzip lvl data) = Some data.
Proof.
  unfold stored_gzip, member_header. cbn [app stored_gunzip Byte.eqb].
  change (Byte.eqb x1f x1f) with true. change (Byte.eqb x8b x8b) with true.
  change (Byte.eqb x08 x08) with true. change (Byte.eqb x00 x00) with true.
  cbn [andb].
  rewrite inflate_stored_blocks.
  - cbn [app]. rewrite Equal_refl. reflexivity.
  - lia.
  - rewrite !length_app. change (length (stored_header true 0)) with 5%nat.
    pose proof (stored_blocks_length (length data) data (le_n _)). lia.
Qed.

(* ================================================================== *)
(** * The clients at work on concrete inputs *)

Lemma stored_round_trip : codec_round_trip stored.
Proof. intros lvl data _. apply stored_gunzip_gzip. Qed.

(** The streams of two short payloads, byte for byte. *)
Example stored_gzip_hello :
  stored_gzip gzip.NoCompression (bytes_of_string "hello")
  = [x1f; x8b; x08; x00; x00; x00; x00; x00; x00; xff;
     x00; x05; x00; xfa; xff] ++ bytes_of_string "hello"
    ++ [x01; x00; x00; xff; xff; x86; xa6; x10; x36; x05; x00; x00; x00]
  /\ stored_gzip gzip.NoCompression []
     = [x1f; x8b; x08; x00; x00; x00; x00; x00; x00; xff;
        x01; x00; x00; xff; xff; x00; x00; x00; x00; x00; x00; x00; x00]
  /\ crc32 (bytes_of_string "123456789") = 0xCBF43926.
Proof. vm_compute. repeat split. Qed.

Lemma quiet_accepts (k : Z) : accepts quiet k.
Proof. intros j _. reflexivity. Qed.

Lemma line_of_terminated (n : Z) : newline_terminated (line_of n).
Proof. exists (repeat "a"%byte (Z.to_nat n)). reflexivity. Qed.

Lemma line_of_nonempty (n : Z) : line_of n <> [].
Proof. unfold line_of. destruct (repeat _ _); discriminate. Qed.

Lemma hello_terminated : newline_terminated hello.
Proof. exists (bytes_of_string "  hello"). reflexivity. Qed.

Lemma demo_level_valid : gzip.valid_level gzip.NoCompression.
Proof.
  unfold gzip.valid_level, gzip.NoCompression, gzip.HuffmanOnly, gzip.BestCompression.
  lia.
Qed.

(** The clients of the examples are the ones [New] builds. *)
Example New_demo :
  Reduce.New demo_config demo_rand = (Some demo_reduce, None)
  /\ Reuse.New demo_config demo_rand = (Some demo_reuse, None)
  /\ Recycle.New demo_config demo_rand = (Some demo_recycle, None).
Proof. repeat split. Qed.

(** ["  hello\n"] goes out as one datagram: magic, identifier (tag and
    counter 1), chunk 0 of 1, and the gzip member of ["hello"]. *)
Example Write_hello :
  Reduce.Write (codec := stored) demo_reduce quiet hello
  = (Returns (5, None),
     {| Reduce.compressionLevel := 0;
        Reduce.instanceID := (xde, xad, xbe, xef);
        Reduce.addr := Some "127.0.0.1:12201"%string;
        Reduce.conn := Some 1%nat;
        Reduce.messageCount := 1 |},
     extend quiet
       [sent_ok 1%nat (Some "127.0.0.1:12201"%string)
          ([x1e; x0f; xde; xad; xbe; xef; x01; x00; x00; x00; x00; x01]
           ++ [x1f; x8b; x08; x00; x00; x00; x00; x00; x00; xff;
               x00; x05; x00; xfa; xff] ++ bytes_of_string "hello"
           ++ [x01; x00; x00; xff; xff; x86; xa6; x10; x36;
               x05; x00; x00; x00])]).
Proof. vm_compute. reflexivity. Qed.

(** The line ["\n"] alone: nothing to compress, and yet one datagram
    with the 23 bytes of the empty member. *)
Example Write_newline_only :
  Reduce.Write (codec := stored) demo_reduce quiet newline
  = (Returns (0, None),
     snd (Reduce.messageID demo_reduce),
     extend quiet
       [sent_ok 1%nat (Some "127.0.0.1:12201"%string)
          ([x1e; x0f; xde; xad; xbe; xef; x01; x00; x00; x00; x00; x01]
           ++ [x1f; x8b; x08; x00; x00; x00; x00; x00; x00; xff;
               x01; x00; x00; xff; xff;
               x00; x00; x00; x00; x00; x00; x00; x00])]).
Proof. vm_compute. reflexivity. Qed.

(** What the deferred reset finds: after a transport failure on the
    second of three chunks the shared buffer still holds the third, and
    the compressor is closed. *)
Example locked_leaves_residue :
  let gl := client_after (Reuse.locked (codec := stored) demo_reuse
                            (failing_at 1 unreachable) (line_of 3000)) in
  len (Reuse.buf gl) = 188
  /\ option_map gzip.closed (Reuse.zip gl) = Some true
  /\ Reuse.buf (Reuse.deferred gl) = []
  /\ Reuse.zip (Reuse.deferred gl) = Some (open_writer gzip.NoCompression).
Proof. vm_compute. repeat split. Qed.

(** The newline test is made before trimming: ["hello\n "] is refused
    although it trims to the same payload as ["hello\n"]. *)
Example Write_newline_then_space :
  Reduce.Write (codec := stored) demo_reduce quiet
               (bytes_of_string "hello" ++ [x0a; x20])
  = (Returns (0, Some ErrMissingNewline), demo_reduce, quiet)
  /\ bytes.TrimFunc (bytes_of_string "hello" ++ [x0a; x20]) unicode.IsSpace
     = bytes.TrimFunc (bytes_of_string "hello" ++ [x0a]) unicode.IsSpace.
Proof. vm_compute. split; reflexivity. Qed.

Lemma Reduce_Write_chunk_layout_witness :
  let stream := compressed (codec := stored) gzip.NoCompression (line_of 3000) in
  chunkCount (len stream) = 3
  /\ sent_by quiet (net_after (Reduce.Write (codec := stored) demo_reduce quiet (line_of 3000)))
     = map (sent_ok 1%nat (Reduce.addr demo_reduce))
           (datagrams (fst (Reduce.messageID demo_reduce)) 3 stream).
Proof.
  intros stream. split; [vm_compute; reflexivity|].
  apply (Reduce_Write_chunk_layout (codec := stored) demo_reduce quiet
                                   (line_of 3000) 1%nat).
  - reflexivity.
  - exact demo_level_valid.
  - apply line_of_nonempty.
  - apply line_of_terminated.
  - vm_compute. discriminate.
  - apply quiet_accepts.
Defined.


Lemma Reduce_Write_returns_consumed_witness :
  returned (Reduce.Write (codec := stored) demo_reduce quiet hello)
  = Returns (snd (gzip.Write (open_writer gzip.NoCompression)
                             (bytes.TrimFunc hello unicode.IsSpace)))
  /\ snd (gzip.Write (open_writer gzip.NoCompression)
                     (bytes.TrimFunc hello unicode.IsSpace))
     = (len (bytes.TrimFunc hello unicode.IsSpace), None).
Proof.
  apply (Reduce_Write_returns_consumed (codec := stored) demo_reduce quiet
                                       hello 1%nat).
  - reflexivity.
  - exact demo_level_valid.
  - discriminate.
  - exact hello_terminated.
  - vm_compute. discriminate.
  - apply quiet_accepts.
  - reflexivity.
Defined.

Lemma Reduce_Write_input_checks_witness :
  Reduce.Write (codec := stored) demo_reduce quiet (bytes_of_string "hello")
  = (Returns (0, Some ErrMissingNewline), demo_reduce, quiet)
  /\ Reduce.Write (codec := stored) demo_reduce quiet []
     = (Returns (0, None), demo_reduce, quiet).
Proof.
  destruct (Reduce_Write_input_checks (codec := stored) demo_reduce quiet
                                      (bytes_of_string "hello"))
    as (Hbad & Hempty & _).
  split; [|exact Hempty].
  apply Hbad.
  - discriminate.
  - intros [q Hq]. apply (f_equal (fun l => last l x00)) in Hq.
    unfold newline in Hq. rewrite last_last in Hq. vm_compute in Hq. discriminate.
Defined.

(** Of the three chunks of the line, the first is delivered and the
    second fails; the third is never handed to the transport. *)
Lemma Reduce_Write_transport_failure_witness :
  let net := failing_at 1 unreachable in
  let r := Reduce.Write (codec := stored) demo_reduce net (line_of 3000) in
  let chunks := datagrams (fst (Reduce.messageID demo_reduce)) 3
                  (compressed (codec := stored) gzip.NoCompression (line_of 3000)) in
  returned r = Returns (0, Some (ErrWritingUDP unreachable))
  /\ delivered (sent_by net (net_after r)) = firstn 1 chunks
  /\ length (sent_by net (net_after r)) = 2%nat.
Proof.
  intros net r chunks.
  destruct (Reduce_Write_transport_failure (codec := stored) demo_reduce net
              (line_of 3000) 1%nat 1%nat unreachable)
    as (H1 & _ & _ & H4 & H5).
  - reflexivity.
  - exact demo_level_valid.
  - apply line_of_nonempty.
  - apply line_of_terminated.
  - vm_compute. discriminate.
  - vm_compute. reflexivity.
  - intros j Hj. assert (j = 0%nat) by lia. subst j. reflexivity.
  - reflexivity.
  - split; [exact H1|]. split; [|exact H5].
    replace chunks
      with (datagrams (fst (Reduce.messageID demo_reduce))
              (chunkCount (len (compressed (codec := stored)
                                           (Reduce.compressionLevel demo_reduce)
                                           (line_of 3000))))
              (compressed (codec := stored) (Reduce.compressionLevel demo_reduce)
                          (line_of 3000)))
      by (vm_compute; reflexivity).
    exact H4.
Defined.

Lemma Reduce_Write_whitespace_only_witness :
  bytes.TrimFunc blank_line unicode.IsSpace = []
  /\ returned (Reduce.Write (codec := stored) demo_reduce quiet blank_line)
     = Returns (0, None)
  /\ sent_by quiet (net_after (Reduce.Write (codec := stored) demo_reduce quiet blank_line))
     = [sent_ok 1%nat (Reduce.addr demo_reduce)
          ([x1e; x0f] ++ fst (Reduce.messageID demo_reduce)
                      ++ [x00; x01] ++ stored_gzip gzip.NoCompression [])].
Proof.
  destruct (Reduce_Write_whitespace_only (codec := stored) demo_reduce quiet
              blank_line 1%nat [0x20; 0x3000; 0x0A])
    as (_ & H2 & _ & _ & H5 & H6).
  - reflexivity.
  - exact demo_level_valid.
  - repeat constructor.
  - vm_compute. reflexivity.
  - exists [x20; xe3; x80; x80]. reflexivity.
  - vm_compute. split; [reflexivity | discriminate].
  - apply quiet_accepts.
  - split; [exact H2|]. split; [exact H5 | exact H6].
Defined.

Lemma Reduce_messageID_sequence_witness :
  let ids := fst (messageIDs 3 demo_reduce) in
  length ids = 3%nat /\ NoDup ids
  /\ Uint32 (skipn 4 (nth 2 ids [])) = 3.
Proof.
  intros ids.
  destruct (Reduce_messageID_sequence demo_reduce 3) as (H1 & H2 & H3).
  - vm_compute. discriminate.
  - split; [exact H1|]. split; [exact H2|].
    destruct (H3 2%nat ltac:(lia)) as (_ & _ & H & _). exact H.
Defined.

(** C4 as stated fails past 2^32 calls: the counter has wrapped and
    identifiers come back. *)
Lemma messageID_repeats_after_wrap :
  let ids := fst (messageIDs (Z.to_nat (2 ^ 32 + 1)) demo_reduce) in
  length ids = Z.to_nat (2 ^ 32 + 1) /\ ~ NoDup ids.
Proof.
  intros ids. split.
  - apply messageIDs_length.
  - apply messageID_wraps. rewrite Z2Nat.id; lia.
Qed.

Lemma New_requires_transport_witness :
  Reduce.New no_transport demo_rand = (None, Some ErrNoConnection)
  /\ Reuse.New no_transport demo_rand = (None, Some ErrNoConnection)
  /\ Recycle.New no_transport demo_rand = (None, Some ErrNoConnection).
Proof.
  destruct (New_requires_transport no_transport demo_rand) as (H1 & H2 & H3 & _).
  - reflexivity.
  - split; [exact H1|]. split; [exact H2 | exact H3].
Defined.

(** C8 as stated fails for the address: a configuration with a transport
    and no destination address gets a client, in the three versions. *)
Lemma New_accepts_absent_address :
  ServerAddr no_address = None
  /\ (exists gl, Reduce.New no_address demo_rand = (Some gl, None)
                 /\ Reduce.addr gl = None)
  /\ (exists gl, Reuse.New no_address demo_rand = (Some gl, None))
  /\ (exists gl, Recycle.New no_address demo_rand = (Some gl, None))
  /\ ~ (forall c rnd,
          ServerAddr c = None \/ ClientPacketConn c = None ->
          exists e, Reduce.New c rnd = (None, Some e)).
Proof.
  split; [reflexivity|].
  split; [eexists; split; reflexivity|].
  split; [eexists; reflexivity|].
  split; [eexists; reflexivity|].
  intros H. destruct (H no_address demo_rand (or_introl eq_refl)) as [e He].
  discriminate He.
Qed.

Lemma resource_reset_on_every_exit_witness :
  let net := failing_at 1 unreachable in
  let A := line_of 3000 in
  let gl1 := client_after (Reuse.Write (codec := stored) demo_reuse net A) in
  let net1 := net_after (Reuse.Write (codec := stored) demo_reuse net A) in
  let rc1 := client_after (Recycle.Write (codec := stored) demo_recycle net A) in
  let rnet1 := net_after (Recycle.Write (codec := stored) demo_recycle net A) in
  returned (Reuse.Write (codec := stored) demo_reuse net A)
  = Returns (0, Some (ErrWritingUDP unreachable))
  /\ gunzip (reassemble (delivered
               (sent_by net1 (net_after (Reuse.Write (codec := stored) gl1 net1 hello)))))
     = Some (bytes_of_string "hello")
  /\ gunzip (reassemble (delivered
               (sent_by rnet1 (net_after (Recycle.Write (codec := stored) rc1 rnet1 hello)))))
     = Some (bytes_of_string "hello").
Proof.
  intros net A gl1 net1 rc1 rnet1.
  destruct (resource_reset_on_every_exit (codec := stored) stored_round_trip)
    as (_ & _ & _ & HB & _ & HP).
  split; [vm_compute; reflexivity|]. split.
  - apply (HB gzip.NoCompression demo_reuse net A hello 1%nat).
    + split; [exact demo_level_valid|]. split; reflexivity.
    + reflexivity.
    + discriminate.
    + exact hello_terminated.
    + vm_compute. discriminate.
    + intros j _. vm_compute. reflexivity.
  - apply (HP demo_recycle net A hello 1%nat).
    + split; [exact demo_level_valid | constructor].
    + reflexivity.
    + discriminate.
    + exact hello_terminated.
    + vm_compute. discriminate.
    + intros j _. vm_compute. reflexivity.
Defined.

(* ================================================================== *)
(** * Whatever the transport does *)

(** The loop only adds calls to the transport, at most one per turn, each
    a framed chunk. *)
Lemma sendChunks_framed (fuel : nat) :
  forall i count id conn addr buf net,
    length id = 8%nat ->
    exists l,
      snd (sendChunks fuel i count id conn addr buf net) = extend net l
      /\ (length l <= fuel)%nat
      /\ Forall (framed id conn addr) l.
Proof.
  induction fuel as [|k IH]; intros i count id conn addr buf net Hid.
  - exists []. cbn. rewrite extend_nil. repeat split; [lia | constructor].
  - cbn [sendChunks].
    destruct (i <? count);
      [| exists []; cbn; rewrite extend_nil; repeat split; [lia | constructor]].
    destruct (Read_chunk buf) as [e [HR He]]. rewrite HR, He.
    destruct conn as [c|];
      [| exists []; cbn; rewrite extend_nil; repeat split; [lia | constructor]].
    rewrite WriteTo_extend.
    set (pkt := chunkHeader id i count ++ slice_to buf maxChunkSize).
    assert (Hf : forall r, framed id (Some c) addr
                   {| via := c; dest := addr; packet := pkt; failure := r |}).
    { intros r. unfold framed. cbn [via dest packet].
      destruct (chunk_fields id i count (slice_to buf maxChunkSize) Hid)
        as (Hm & Hi & _). fold pkt in Hm, Hi.
      repeat split; try assumption.
      unfold pkt. rewrite chunkHeader_layout by exact Hid.
      rewrite !len_app. unfold len, slice_to.
      rewrite length_firstn, Hid. cbn [length]. unfold maxChunkSize. lia. }
    destruct (outcome net (length (calls net))) as [e'|] eqn:Ho.
    + eexists. cbn [snd]. split; [reflexivity|]. split; [simpl; lia|].
      constructor; [apply Hf | constructor].
    + destruct (IH (i + 1) count id (Some c) addr (slice_from buf maxChunkSize)
                   (extend net [{| via := c; dest := addr; packet := pkt;
                                   failure := None |}]) Hid)
        as (l & Hl & Hlen & Hall).
      exists ({| via := c; dest := addr; packet := pkt; failure := None |} :: l).
      rewrite Hl, extend_extend. split; [reflexivity|]. split; [simpl; lia|].
      constructor; [apply Hf | exact Hall].
Qed.

Lemma NewWriterLevel_invalid (lvl : Z) :
  ~ gzip.valid_level lvl -> fst (gzip.NewWriterLevel lvl) = None.
Proof.
  unfold gzip.valid_level, gzip.NewWriterLevel, gzip.HuffmanOnly, gzip.BestCompression.
  intros H.
  destruct (lvl <? -2) eqn:E1; [reflexivity|].
  destruct (lvl >? 9) eqn:E2; [reflexivity|].
  apply Z.ltb_ge in E1. rewrite Z.gtb_ltb in E2. apply Z.ltb_ge in E2. lia.
Qed.

Lemma valid_level_dec (lvl : Z) : gzip.valid_level lvl \/ ~ gzip.valid_level lvl.
Proof. unfold gzip.valid_level. lia. Qed.

Lemma newline_terminated_dec (p : list byte) :
  newline_terminated p \/ ~ newline_terminated p.
Proof.
  destruct (bytes.HasSuffix p newline) eqn:E.
  - left. apply HasSuffix_newline. exact E.
  - right. intros H. apply HasSuffix_newline in H. congruence.
Qed.

Section ReduceAlways.
Context {codec : GzipCodec}.

Lemma Reduce_Write_rejected (gl : Reduce.Client) (net : Net) (p : list byte) :
  ~ newline_terminated p ->
  client_after (Reduce.Write gl net p) = gl
  /\ net_after (Reduce.Write gl net p) = net
  /\ returned (Reduce.Write gl net p)
     = Returns (0, if len p =? 0 then None else Some ErrMissingNewline).
Proof.
  intros H. unfold Reduce.Write. change [x0a] with newline.
  rewrite (not_terminated_HasSuffix p H).
  destruct (len p =? 0); repeat split.
Qed.

Lemma Reduce_Write_nil_writer (gl : Reduce.Client) (net : Net) (p : list byte) :
  newline_terminated p ->
  ~ gzip.valid_level (Reduce.compressionLevel gl) ->
  Reduce.Write gl net p = (Panics, gl, net).
Proof.
  intros Hnl Hlvl. apply HasSuffix_newline in Hnl. unfold Reduce.Write.
  rewrite (HasSuffix_nonempty p Hnl). change [x0a] with newline. rewrite Hnl.
  cbn [negb]. rewrite (NewWriterLevel_invalid _ Hlvl). reflexivity.
Qed.

(** [Write] leaves the transport with some calls added, each a framed
    chunk of the message. *)
Lemma Reduce_Write_extends (gl : Reduce.Client) (net : Net) (p : list byte) :
  exists l,
    net_after (Reduce.Write gl net p) = extend net l
    /\ (length l <= 128)%nat
    /\ Forall (framed (fst (Reduce.messageID gl)) (Reduce.conn gl)
                      (Reduce.addr gl)) l.
Proof.
  destruct (newline_terminated_dec p) as [Hnl|Hnl].
  - destruct (valid_level_dec (Reduce.compressionLevel gl)) as [Hlvl|Hlvl].
    + apply HasSuffix_newline in Hnl.
      rewrite (Reduce_Write_valid gl net p Hlvl Hnl).
      set (stream := compressed (Reduce.compressionLevel gl) p).
      set (count := chunkCount (len stream)).
      destruct (count >? maxChunkCount) eqn:E.
      * exists []. unfold net_after. cbn [snd]. rewrite extend_nil.
        repeat split; [simpl; lia | constructor].
      * rewrite Z.gtb_ltb in E. apply Z.ltb_ge in E. unfold maxChunkCount in E.
        destruct (sendChunks_framed (Z.to_nat count) 0 count
                    (fst (Reduce.messageID gl)) (Reduce.conn gl) (Reduce.addr gl)
                    stream net (Reduce_messageID_length gl))
          as (l & Hl & Hlen & Hall).
        exists l. unfold net_after.
        destruct (sendChunks _ _ _ _ _ _ _ _) as [[r b] n1]. cbn [snd] in *.
        repeat split; [exact Hl | lia | exact Hall].
    + rewrite (Reduce_Write_nil_writer gl net p Hnl Hlvl).
      exists []. unfold net_after. cbn [snd]. rewrite extend_nil.
      repeat split; [simpl; lia | constructor].
  - destruct (Reduce_Write_rejected gl net p Hnl) as (_ & -> & _).
    exists []. rewrite extend_nil. repeat split; [simpl; lia | constructor].
Qed.

(** X1.  Whatever the input, the state of the client and the behaviour
    of the transport, [Write] only adds calls to the transport, at most
    128 of them, and each is a framed chunk of this message: it goes
    through [gl.conn] to [gl.addr], starts with the magic bytes and the
    identifier of the message, and is at most 1432 bytes long, within the
    1500 bytes of the packet buffer. *)
Theorem Reduce_Write_only_sends_frames (gl : Reduce.Client) (net : Net)
        (p : list byte) :
  let net' := net_after (Reduce.Write gl net p) in
  calls net' = calls net ++ sent_by net net'
  /\ (length (sent_by net net') <= 128)%nat
  /\ Forall (framed (fst (Reduce.messageID gl)) (Reduce.conn gl) (Reduce.addr gl))
            (sent_by net net')
  /\ 12 + maxChunkSize <= mtuSize.
Proof.
  intros net'. unfold net'.
  destruct (Reduce_Write_extends gl net p) as (l & Hl & Hlen & Hall).
  rewrite Hl, sent_by_extend.
  repeat split; try assumption.
  unfold maxChunkSize, mtuSize. lia.
Qed.

(** What a call changes in the client is the counter, and only for a
    line that reaches [gl.messageID()]. *)
Lemma Reduce_Write_client (gl : Reduce.Client) (net : Net) (p : list byte) :
  let gl' := client_after (Reduce.Write gl net p) in
  let consumed :=
    bytes.HasSuffix p newline
    && (gzip.HuffmanOnly <=? Reduce.compressionLevel gl)
    && (Reduce.compressionLevel gl <=? gzip.BestCompression)
    && (chunkCount (len (compressed (Reduce.compressionLevel gl) p))
        <=? maxChunkCount) in
  gl' = if consumed then snd (Reduce.messageID gl) else gl.
Proof.
  cbv zeta.
  destruct (bytes.HasSuffix p newline) eqn:Hnl; cbn [andb].
  - destruct (valid_level_dec (Reduce.compressionLevel gl)) as [Hlvl|Hlvl].
    + assert (E1 : (gzip.HuffmanOnly <=? Reduce.compressionLevel gl) = true)
        by (apply Z.leb_le; apply Hlvl).
      assert (E2 : (Reduce.compressionLevel gl <=? gzip.BestCompression) = true)
        by (apply Z.leb_le; apply Hlvl).
      rewrite E1, E2. cbn [andb].
      rewrite (Reduce_Write_valid gl net p Hlvl Hnl).
      rewrite Z.gtb_ltb, Z.ltb_antisym.
      destruct (chunkCount _ <=? maxChunkCount); cbn [negb]; [|reflexivity].
      unfold client_after.
      destruct (sendChunks _ _ _ _ _ _ _ _) as [[r b] n1]. reflexivity.
    + apply HasSuffix_newline in Hnl.
      rewrite (Reduce_Write_nil_writer gl net p Hnl Hlvl). unfold client_after.
      cbn [fst snd].
      destruct ((gzip.HuffmanOnly <=? Reduce.compressionLevel gl)
                && (Reduce.compressionLevel gl <=? gzip.BestCompression)) eqn:E;
        [|reflexivity].
      apply andb_prop in E as [E1 E2]. apply Z.leb_le in E1, E2.
      exfalso. apply Hlvl. split; assumption.
  - assert (Hn : ~ newline_terminated p).
    { intros H. apply HasSuffix_newline in H. congruence. }
    apply (Reduce_Write_rejected gl net p Hn).
Qed.

End ReduceAlways.

(** Either the transport takes the next [n] calls, or one of them is the
    first to fail. *)
Lemma accepts_or_refuses (net : Net) (n : nat) :
  accepts net (Z.of_nat n)
  \/ exists j e, (j < n)%nat /\ accepts net (Z.of_nat j)
                 /\ outcome net (length (calls net) + j)%nat = Some e.
Proof.
  induction n as [|n IH].
  - left. intros j Hj. lia.
  - destruct IH as [Hacc | (j & e & Hj & Hacc & Ho)].
    + destruct (outcome net (length (calls net) + n)%nat) as [e|] eqn:Ho.
      * right. exists n, e. repeat split; [lia | exact Hacc | exact Ho].
      * left. intros j Hj. destruct (Nat.eq_dec j n) as [->|Hne]; [exact Ho|].
        apply Hacc. lia.
    + right. exists j, e. repeat split; [lia | exact Hacc | exact Ho].
Qed.

Section ReduceOutcome.
Context {codec : GzipCodec}.

(** X2.  For a well-formed line that fits and a usable client, whatever
    the transport does: the datagrams handed to [WriteTo] are the first
    ones of the message, in order; those delivered are the [k] that came
    before the first refusal; and [Write] returns a nil error exactly when
    the transport took all of them, a "writing to udp connection" error
    otherwise. *)
Theorem Reduce_Write_outcome (gl : Reduce.Client) (net : Net)
        (p : list byte) (c : PacketConn) :
  Reduce.conn gl = Some c ->
  gzip.valid_level (Reduce.compressionLevel gl) ->
  newline_terminated p ->
  chunkCount (len (compressed (Reduce.compressionLevel gl) p)) <= maxChunkCount ->
  let stream := compressed (Reduce.compressionLevel gl) p in
  let count := chunkCount (len stream) in
  let chunks := datagrams (fst (Reduce.messageID gl)) count stream in
  let r := Reduce.Write gl net p in
  exists k : nat,
    (k <= length chunks)%nat
    /\ delivered (sent_by net (net_after r)) = firstn k chunks
    /\ map packet (sent_by net (net_after r)) = firstn (S k) chunks
    /\ (k = length chunks <->
        returned r = Returns (len (bytes.TrimFunc p unicode.IsSpace), None))
    /\ ((k < length chunks)%nat <->
        exists e, returned r = Returns (0, Some (ErrWritingUDP e)))
    /\ (accepts net count <-> k = length chunks).
Proof.
  intros Hc Hlvl Hnl Hfit stream count chunks r.
  assert (Hfit' : count <= maxChunkCount) by exact Hfit.
  pose proof (datagrams_length (fst (Reduce.messageID gl)) count stream) as Hlen.
  fold chunks in Hlen.
  pose proof (chunkCount_bounds (len stream) (len_nonneg _)) as (Hc0 & _).
  fold count in Hc0.
  destruct (accepts_or_refuses net (Z.to_nat count))
    as [Hacc | (j & e & Hj & Hacc & Ho)].
  - rewrite Z2Nat.id in Hacc by lia.
    exists (length chunks).
    apply HasSuffix_newline in Hnl.
    unfold r, returned, net_after.
    rewrite (Reduce_Write_delivers gl net p c Hc Hlvl Hnl Hfit Hacc).
    fold stream count. cbn [fst snd].
    rewrite frames_datagrams by apply Reduce_messageID_length. fold chunks.
    rewrite sent_by_extend, delivered_sent_ok.
    split; [lia|]. split; [symmetry; apply firstn_all|]. split.
    { rewrite map_map. cbn [packet sent_ok]. rewrite map_id.
      symmetry. apply firstn_all2. lia. }
    split; [split; reflexivity|]. split; [|split; [reflexivity | intros _; exact Hacc]].
    split; [lia|]. intros [e He]. discriminate He.
  - exists j.
    assert (Hjc : Z.of_nat j < count) by lia.
    apply HasSuffix_newline in Hnl.
    unfold r, returned, net_after.
    rewrite (Reduce_Write_valid gl net p Hlvl Hnl). fold stream count.
    destruct (count >? maxChunkCount) eqn:E; [apply Z.gtb_lt in E; lia|].
    rewrite Hc.
    rewrite (sendChunks_fails j _ _ _ _ _ _ _ _ e);
      [| lia | lia | exact Hacc | exact Ho].
    cbn [fst snd].
    rewrite frames_datagrams by apply Reduce_messageID_length. fold chunks.
    rewrite sent_by_extend.
    split; [lia|]. split.
    { rewrite delivered_app, delivered_sent_ok. apply app_nil_r. }
    split.
    { rewrite map_app, map_map. cbn [packet sent_ok map sent_failed].
      rewrite map_id.
      assert (Hn : (j < length chunks)%nat) by lia.
      clear - Hn. revert j Hn. induction chunks as [|x l IH]; intros j Hn.
      - simpl in Hn. lia.
      - destruct j as [|j]; [reflexivity|].
        cbn [firstn nth app]. f_equal. apply IH. simpl in Hn. lia. }
    split; [split; [lia | intros He; discriminate He]|].
    split; [split; [intros _; exists e; reflexivity | intros _; lia]|].
    split; [|lia].
    intros Hall. specialize (Hall j Hjc). congruence.
Qed.

End ReduceOutcome.

(** A three-chunk line over a transport that refuses the second chunk. *)
Lemma Reduce_Write_outcome_witness :
  exists k : nat,
    (k <= 3)%nat
    /\ delivered (sent_by (failing_at 1 unreachable)
                    (net_after (Reduce.Write (codec := stored) demo_reduce
                                  (failing_at 1 unreachable) (line_of 3000))))
       = firstn k (datagrams (fst (Reduce.messageID demo_reduce)) 3
                     (compressed (codec := stored) gzip.NoCompression (line_of 3000))).
Proof.
  destruct (Reduce_Write_outcome (codec := stored) demo_reduce
              (failing_at 1 unreachable) (line_of 3000) 1%nat)
    as (k & Hk & Hd & _).
  - reflexivity.
  - exact demo_level_valid.
  - apply line_of_terminated.
  - vm_compute. discriminate.
  - exists k. split.
    + rewrite datagrams_length in Hk.
      replace (Z.to_nat (chunkCount (len (compressed (codec := stored)
                 (Reduce.compressionLevel demo_reduce) (line_of 3000))))) with 3%nat in Hk
        by (vm_compute; reflexivity).
      exact Hk.
    + replace 3 with (chunkCount (len (compressed (codec := stored)
                 (Reduce.compressionLevel demo_reduce) (line_of 3000))))
        by (vm_compute; reflexivity).
      exact Hd.
Defined.

(* ================================================================== *)
(** * The counter and the identifiers across calls *)

Lemma PutUint32_inj (a b : Z) :
  0 <= a < 2 ^ 32 -> 0 <= b < 2 ^ 32 -> PutUint32 a = PutUint32 b -> a = b.
Proof.
  intros Ha Hb H. apply (f_equal Uint32) in H.
  rewrite !Uint32_PutUint32 in H by assumption. exact H.
Qed.

Lemma uint32_succ_neq (m : Z) : 0 <= m < 2 ^ 32 -> uint32 (m + 1) <> m.
Proof.
  unfold uint32. intros Hm H.
  destruct (Z.eq_dec m (2 ^ 32 - 1)) as [-> | Hne].
  - vm_compute in H. discriminate H.
  - rewrite Z.mod_small in H by lia. lia.
Qed.

(** Two identifiers drawn one after the other differ. *)
Lemma nextID_changes (tag : Array4) (mc : Z) :
  fst (nextID tag (snd (nextID tag mc))) <> fst (nextID tag mc).
Proof.
  unfold nextID. cbn [fst snd]. intros H.
  apply app_inv_head in H. apply PutUint32_inj in H; try apply uint32_range.
  exact (uint32_succ_neq _ (uint32_range _) H).
Qed.

Section ReduceIdentifiers.
Context {codec : GzipCodec}.

(** X3.  A call leaves the level, the tag, the destination and the
    transport of the client as they were.  It advances the counter by
    one, modulo 2^32, exactly when the line is well formed and passes the
    size check (whether or not the transport then takes its chunks), and
    leaves it alone for an empty line, a line without final newline and
    a line that is too large. *)
Theorem Reduce_Write_counter (gl : Reduce.Client) (net : Net) (p : list byte) :
  let gl' := client_after (Reduce.Write gl net p) in
  let L := len (compressed (Reduce.compressionLevel gl) p) in
  Reduce.compressionLevel gl' = Reduce.compressionLevel gl
  /\ Reduce.instanceID gl' = Reduce.instanceID gl
  /\ Reduce.addr gl' = Reduce.addr gl
  /\ Reduce.conn gl' = Reduce.conn gl
  /\ (gzip.valid_level (Reduce.compressionLevel gl) ->
      newline_terminated p -> chunkCount L <= maxChunkCount ->
      Reduce.messageCount gl' = uint32 (Reduce.messageCount gl + 1))
  /\ (~ newline_terminated p -> gl' = gl)
  /\ (maxChunkCount < chunkCount L -> gl' = gl).
Proof.
  intros gl' L. unfold gl'. rewrite (Reduce_Write_client gl net p). fold L.
  match goal with |- context [if ?c then _ else _] => set (consumed := c) end.
  assert (Hsame : forall g, g = snd (Reduce.messageID gl) \/ g = gl ->
            Reduce.compressionLevel g = Reduce.compressionLevel gl
            /\ Reduce.instanceID g = Reduce.instanceID gl
            /\ Reduce.addr g = Reduce.addr gl
            /\ Reduce.conn g = Reduce.conn gl).
  { intros g [-> | ->]; repeat split. }
  destruct (Hsame (if consumed then snd (Reduce.messageID gl) else gl))
    as (H1 & H2 & H3 & H4); [destruct consumed; auto|].
  split; [exact H1|]. split; [exact H2|]. split; [exact H3|]. split; [exact H4|].
  split; [|split].
  - intros [Hl1 Hl2] Hnl Hfit. apply HasSuffix_newline in Hnl.
    assert (E : consumed = true).
    { unfold consumed. rewrite Hnl. cbn [andb].
      apply Z.leb_le in Hl1, Hl2, Hfit. rewrite Hl1, Hl2, Hfit. reflexivity. }
    rewrite E. reflexivity.
  - intros Hn. assert (E : consumed = false).
    { unfold consumed. rewrite (not_terminated_HasSuffix p Hn). reflexivity. }
    rewrite E. reflexivity.
  - intros Hbig. assert (E : consumed = false).
    { unfold consumed. apply Z.leb_gt in Hbig. rewrite Hbig.
      rewrite !andb_false_r. reflexivity. }
    rewrite E. reflexivity.
Qed.

(** X4.  Two well-formed lines that pass the size check, written one
    after the other: every datagram handed to the transport for the first
    carries one identifier, every datagram for the second carries
    another, whatever the transport did with them. *)
Theorem Reduce_consecutive_messages_differ (gl : Reduce.Client) (net : Net)
        (A B : list byte) :
  gzip.valid_level (Reduce.compressionLevel gl) ->
  newline_terminated A ->
  chunkCount (len (compressed (Reduce.compressionLevel gl) A)) <= maxChunkCount ->
  let gl1 := client_after (Reduce.Write gl net A) in
  let net1 := net_after (Reduce.Write gl net A) in
  let net2 := net_after (Reduce.Write gl1 net1 B) in
  let idA := fst (Reduce.messageID gl) in
  let idB := fst (Reduce.messageID gl1) in
  Forall (fun s => chunk_id (packet s) = idA) (sent_by net net1)
  /\ Forall (fun s => chunk_id (packet s) = idB) (sent_by net1 net2)
  /\ idA <> idB.
Proof.
  intros Hlvl HnlA HfitA gl1 net1 net2 idA idB.
  split; [|split].
  - unfold net1. destruct (Reduce_Write_extends gl net A) as (l & -> & _ & Hall).
    rewrite sent_by_extend. revert Hall. apply Forall_impl.
    intros s (_ & _ & _ & Hid & _). exact Hid.
  - unfold net2. destruct (Reduce_Write_extends gl1 net1 B) as (l & -> & _ & Hall).
    rewrite sent_by_extend. revert Hall. apply Forall_impl.
    intros s (_ & _ & _ & Hid & _). exact Hid.
  - unfold idA, idB, gl1. rewrite (Reduce_Write_client gl net A).
    apply HasSuffix_newline in HnlA. rewrite HnlA.
    destruct Hlvl as [Hl1 Hl2]. apply Z.leb_le in Hl1, Hl2, HfitA.
    rewrite Hl1, Hl2, HfitA. cbn [andb].
    unfold Reduce.messageID.
    pose proof (nextID_changes (Reduce.instanceID gl) (Reduce.messageCount gl)) as Hne.
    destruct (nextID (Reduce.instanceID gl) (Reduce.messageCount gl)) as [i n] eqn:E1.
    cbn [fst snd Reduce.instanceID Reduce.messageCount] in *.
    destruct (nextID (Reduce.instanceID gl) n) as [i' n'] eqn:E2.
    cbn [fst] in *. intros H. apply Hne. symmetry. exact H.
Qed.

End ReduceIdentifiers.

Lemma Reduce_Write_counter_witness :
  Reduce.messageCount (client_after (Reduce.Write (codec := stored) demo_reduce
                                       (failing_at 0 unreachable) hello)) = 1
  /\ client_after (Reduce.Write (codec := stored) demo_reduce quiet
                                (line_of 181760)) = demo_reduce.
Proof.
  destruct (Reduce_Write_counter (codec := stored) demo_reduce
              (failing_at 0 unreachable) hello) as (_ & _ & _ & _ & H & _).
  destruct (Reduce_Write_counter (codec := stored) demo_reduce quiet
              (line_of 181760)) as (_ & _ & _ & _ & _ & _ & H').
  split.
  - apply H; [exact demo_level_valid | exact hello_terminated |].
    vm_compute. discriminate.
  - apply H'. vm_compute. reflexivity.
Defined.

Lemma Reduce_consecutive_messages_differ_witness :
  fst (Reduce.messageID demo_reduce)
  <> fst (Reduce.messageID
            (client_after (Reduce.Write (codec := stored) demo_reduce quiet hello))).
Proof.
  destruct (Reduce_consecutive_messages_differ (codec := stored) demo_reduce
              quiet hello hello) as (_ & _ & H).
  - exact demo_level_valid.
  - exact hello_terminated.
  - vm_compute. discriminate.
  - exact H.
Defined.

(* ================================================================== *)
(** * The second version against the first *)

Section ReuseAgainstReduce.
Context {codec : GzipCodec}.

(** On a ready resource, past the two input checks, [Write] of the second
    file is the size check followed by the sending loop over the
    compressed payload, and the deferred function hands the resource back
    ready. *)
Lemma Reuse_Write_valid (lvl : Z) (gl : Reuse.Client) (net : Net) (p : list byte) :
  Reuse_ready lvl gl ->
  bytes.HasSuffix p newline = true ->
  let stream := compressed lvl p in
  let count := chunkCount (len stream) in
  Reuse.Write gl net p =
  if count >? maxChunkCount then
    (Returns (0, Some (ErrExceedsMaximumSize (len stream)
                         (maxChunkCount * maxChunkSize))), gl, net)
  else
    let '(r, _, net') :=
      sendChunks (Z.to_nat count) 0 count (fst (Reuse.messageID gl))
                 (Reuse.conn gl) (Reuse.addr gl) stream net in
    (match r with
     | Panics => Panics
     | Returns (Some e) => Returns (0, Some e)
     | Returns None =>
         Returns (len (bytes.TrimFunc p unicode.IsSpace), None)
     end, snd (Reuse.messageID gl), net').
Proof.
  intros (Hlvl & Hb & Hz) Hnl. cbv zeta.
  destruct gl as [tag a c mc z b]. cbn [Reuse.buf Reuse.zip] in Hb, Hz. subst z b.
  unfold Reuse.Write.
  rewrite (HasSuffix_nonempty p Hnl).
  change [x0a] with newline. rewrite Hnl. cbn [negb].
  unfold Reuse.locked. cbn [Reuse.zip Reuse.buf].
  unfold gzip.Write, gzip.Close, open_writer.
  cbn [gzip.closed gzip.level gzip.pending failed].
  unfold Buffer.Write, Buffer.Len. cbn [app].
  unfold Reuse.with_resource.
  cbn [Reuse.buf Reuse.zip Reuse.instanceID Reuse.addr Reuse.conn Reuse.messageCount].
  fold (compressed lvl p).
  destruct (chunkCount (len (compressed lvl p)) >? maxChunkCount);
    [reflexivity|].
  unfold Reuse.messageID.
  cbn [Reuse.buf Reuse.zip Reuse.instanceID Reuse.addr Reuse.conn Reuse.messageCount].
  destruct (nextID tag mc) as [id n].
  cbn [fst snd Reuse.buf Reuse.zip Reuse.instanceID Reuse.addr Reuse.conn
       Reuse.messageCount].
  destruct (sendChunks _ _ _ _ _ _ _ _) as [[r b] net'].
  destruct r as [[e|]|]; reflexivity.
Qed.

Lemma Reuse_Write_unterminated (gl : Reuse.Client) (net : Net) (p : list byte) :
  bytes.HasSuffix p newline = false ->
  Reuse.Write gl net p
  = (Returns (0, if len p =? 0 then None else Some ErrMissingNewline), gl, net).
Proof.
  intros H. unfold Reuse.Write. change [x0a] with newline. rewrite H.
  destruct (len p =? 0); reflexivity.
Qed.

Lemma Reduce_Write_unterminated (gl : Reduce.Client) (net : Net) (p : list byte) :
  bytes.HasSuffix p newline = false ->
  Reduce.Write gl net p
  = (Returns (0, if len p =? 0 then None else Some ErrMissingNewline), gl, net).
Proof.
  intros H. unfold Reduce.Write. change [x0a] with newline. rewrite H.
  destruct (len p =? 0); reflexivity.
Qed.

Lemma Reuse_matches_messageID (r : Reduce.Client) (u : Reuse.Client) :
  Reuse_matches r u ->
  fst (Reuse.messageID u) = fst (Reduce.messageID r)
  /\ Reuse_matches (snd (Reduce.messageID r)) (snd (Reuse.messageID u)).
Proof.
  intros (Ht & Ha & Hc & Hm & Hr).
  unfold Reuse.messageID, Reduce.messageID. rewrite Ht, Hm.
  destruct (nextID _ _) as [id n]. cbn [fst snd].
  split; [reflexivity|].
  unfold Reuse_matches, Reuse_ready in *.
  cbn [Reuse.instanceID Reuse.addr Reuse.conn Reuse.messageCount Reuse.buf
       Reuse.zip Reduce.instanceID Reduce.addr Reduce.conn Reduce.messageCount
       Reduce.compressionLevel].
  repeat split; try assumption; apply Hr.
Qed.

(** One call: the two versions return the same, make the same calls to
    the transport, and leave clients that match again. *)
Lemma Reuse_Write_simulates (r : Reduce.Client) (u : Reuse.Client) (net : Net)
      (p : list byte) :
  Reuse_matches r u ->
  returned (Reuse.Write u net p) = returned (Reduce.Write r net p)
  /\ net_after (Reuse.Write u net p) = net_after (Reduce.Write r net p)
  /\ Reuse_matches (client_after (Reduce.Write r net p))
                   (client_after (Reuse.Write u net p)).
Proof.
  intros HM. pose proof HM as (Ht & Ha & Hc & Hm & Hr).
  destruct (bytes.HasSuffix p newline) eqn:Hnl.
  - rewrite (Reuse_Write_valid _ u net p Hr Hnl).
    rewrite (Reduce_Write_valid r net p (proj1 Hr) Hnl).
    destruct (chunkCount _ >? maxChunkCount).
    + split; [reflexivity|]. split; [reflexivity | exact HM].
    + destruct (Reuse_matches_messageID r u HM) as [Hid HM'].
      rewrite Hid, Hc, Ha.
      destruct (sendChunks _ _ _ _ _ _ _ _) as [[x b] net'].
      unfold returned, net_after, client_after. cbn [fst snd].
      split; [reflexivity|]. split; [reflexivity | exact HM'].
  - rewrite (Reuse_Write_unterminated u net p Hnl),
            (Reduce_Write_unterminated r net p Hnl).
    split; [reflexivity|]. split; [reflexivity | exact HM].
Qed.

(** A sequence of calls, each on the client and the transport the one
    before left. *)
Lemma Reuse_run_simulates (ps : list (list byte)) :
  forall (r : Reduce.Client) (u : Reuse.Client) (net : Net),
    Reuse_matches r u ->
    fst (fst (run Reuse.Write ps u net)) = fst (fst (run Reduce.Write ps r net))
    /\ snd (run Reuse.Write ps u net) = snd (run Reduce.Write ps r net)
    /\ Reuse_matches (snd (fst (run Reduce.Write ps r net)))
                     (snd (fst (run Reuse.Write ps u net))).
Proof.
  induction ps as [|p ps IH]; intros r u net HM.
  - cbn. split; [reflexivity|]. split; [reflexivity | exact HM].
  - cbn [run].
    destruct (Reuse_Write_simulates r u net p HM) as (H1 & H2 & H3).
    unfold returned, net_after, client_after in *.
    destruct (Reuse.Write u net p) as [[x u1] n1].
    destruct (Reduce.Write r net p) as [[y r1] n2].
    cbn [fst snd] in *. subst y n2.
    destruct x as [v|].
    + destruct (IH r1 u1 n1 H3) as (I1 & I2 & I3).
      destruct (run Reuse.Write ps u1 n1) as [[xs u2] n3].
      destruct (run Reduce.Write ps r1 n1) as [[ys r2] n4].
      cbn [fst snd] in *. subst.
      split; [reflexivity|]. split; [reflexivity | exact I3].
    + cbn [fst snd]. split; [reflexivity|]. split; [reflexivity | exact H3].
Qed.

End ReuseAgainstReduce.

(* ================================================================== *)
(** * What [Write] reports for an accepted line *)

Lemma at_slice_from (s : list byte) (i j : Z) :
  0 <= i -> 0 <= j -> at_ (slice_from s i) j = at_ s (i + j).
Proof.
  intros Hi Hj. unfold at_, slice_from.
  rewrite nth_skipn. f_equal. lia.
Qed.

Lemma len_slice_from (s : list byte) (i : Z) :
  0 <= i <= len s -> len (slice_from s i) = len s - i.
Proof.
  intros Hi. unfold len, slice_from in *. rewrite length_skipn. lia.
Qed.

Lemma len_slice_to (s : list byte) (i : Z) : len (slice_to s i) <= Z.max 0 i.
Proof.
  unfold len, slice_to. rewrite length_firstn. lia.
Qed.

(** A rune [DecodeRune] reports as wider than one byte lies within the
    slice, and the bytes after its first are continuation bytes. *)
Lemma DecodeRune_continuation (p : list byte) :
  let w := snd (utf8.DecodeRune p) in
  w <= 1 \/ (w <= len p /\ forall j, 1 <= j < w -> 0x80 <= Zb (at_ p j)).
Proof.
  unfold utf8.DecodeRune. cbv zeta.
  destruct (len p <? 1) eqn:E; [left; cbn; lia|].
  unfold utf8.first.
  repeat match goal with
    | |- context [if Zb (at_ p 0) <? ?k then _ else _] =>
        destruct (Zb (at_ p 0) <? k)
    | |- context [if Zb (at_ p 0) =? ?k then _ else _] =>
        destruct (Zb (at_ p 0) =? k)
    end;
    try (left; cbn; lia);
    match goal with
    | |- context [utf8.acceptRanges ?k] =>
        let v := eval vm_compute in (utf8.acceptRanges k) in
        change (utf8.acceptRanges k) with v
    end;
    cbv iota beta;
    repeat match goal with
      | |- context [Z.land ?x 7] =>
          let v := eval vm_compute in (Z.land x 7) in
          change (Z.land x 7) with v
      end;
    repeat match goal with
      | |- context [if ?c then _ else _] =>
          let H := fresh "T" in destruct c eqn:H; cbn [snd]
      end;
    try (left; lia);
    right;
    repeat match goal with
      | H : (_ || _) = false |- _ => apply orb_false_elim in H; destruct H
      | H : (_ <? _) = false |- _ => apply Z.ltb_ge in H
      | H : (_ <=? _) = false |- _ => apply Z.leb_gt in H
      | H : (_ <=? _) = true |- _ => apply Z.leb_le in H
      end;
    unfold utf8.locb, utf8.hicb in *;
    (split; [lia|]);
    intros j Hj;
    (assert (Hc : j = 1 \/ j = 2 \/ j = 3) by lia);
    destruct Hc as [-> | [-> | ->]]; lia.
Qed.

(** [lastIndexFunc] returns -1 or an index before the one it started
    from. *)
Lemma lastIndexFunc_loop_before (fuel : nat) :
  forall s f truth i,
    i <= len s ->
    let r := bytes.lastIndexFunc_loop fuel s f truth i in
    r = -1 \/ r < i.
Proof.
  induction fuel as [|k IH]; intros s f truth i Hi; cbv zeta.
  - left. reflexivity.
  - cbn [bytes.lastIndexFunc_loop].
    destruct (i >? 0) eqn:E; [|left; reflexivity].
    apply Z.gtb_lt in E.
    assert (Hsz : 1 <= snd (if Zb (at_ s (i - 1)) >=? utf8.RuneSelf
                            then utf8.DecodeLastRune (slice_to s i)
                            else (Zb (at_ s (i - 1)), 1))).
    { destruct (Zb (at_ s (i - 1)) >=? utf8.RuneSelf); [|cbn; lia].
      apply DecodeLastRune_size. intros Hnil.
      apply (f_equal (@List.length byte)) in Hnil. unfold slice_to in Hnil.
      rewrite length_firstn in Hnil. unfold len in Hi. cbn in Hnil. lia. }
    destruct (if Zb (at_ s (i - 1)) >=? utf8.RuneSelf
              then utf8.DecodeLastRune (slice_to s i)
              else (Zb (at_ s (i - 1)), 1)) as [r size].
    cbn [snd] in Hsz.
    destruct (Bool.eqb (f r) truth); [right; lia|].
    destruct (IH s f truth (i - size) ltac:(lia)) as [H|H]; [left; exact H | right; lia].
Qed.

(** [indexFunc] returns -1 or an index of the slice. *)
Lemma indexFunc_loop_within (fuel : nat) :
  forall s f truth start,
    0 <= start ->
    let r := bytes.indexFunc_loop fuel s f truth start in
    r = -1 \/ 0 <= r < len s.
Proof.
  induction fuel as [|k IH]; intros s f truth start H0; cbv zeta.
  - left. reflexivity.
  - cbn [bytes.indexFunc_loop].
    destruct (start <? len s) eqn:E; [|left; reflexivity].
    apply Z.ltb_lt in E.
    assert (Hsz : 1 <= snd (if Zb (at_ s start) >=? utf8.RuneSelf
                            then utf8.DecodeRune (slice_from s start)
                            else (Zb (at_ s start), 1))).
    { destruct (Zb (at_ s start) >=? utf8.RuneSelf); [|cbn; lia].
      apply DecodeRune_size. intros Hnil.
      apply (f_equal (@List.length byte)) in Hnil. unfold slice_from in Hnil.
      rewrite length_skipn in Hnil. unfold len in E. cbn in Hnil. lia. }
    destruct (if Zb (at_ s start) >=? utf8.RuneSelf
              then utf8.DecodeRune (slice_from s start)
              else (Zb (at_ s start), 1)) as [r wid].
    cbn [snd] in Hsz.
    destruct (Bool.eqb (f r) truth); [right; lia|].
    apply IH. lia.
Qed.

(** Trimming on the right a slice that ends with a newline drops at
    least that newline. *)
Lemma TrimRightFunc_newline (q : list byte) :
  len (bytes.TrimRightFunc (q ++ newline) unicode.IsSpace) <= len q.
Proof.
  unfold bytes.TrimRightFunc, bytes.lastIndexFunc. cbv zeta.
  set (s := q ++ newline).
  assert (Hlen : len s = len q + 1) by (unfold s; rewrite len_app; reflexivity).
  assert (Hlast : at_ s (len q) = x0a) by (unfold s; apply at_app_hd).
  assert (Hfuel : length s = S (length q)).
  { unfold s. rewrite length_app. cbn. lia. }
  rewrite Hfuel. cbn [bytes.lastIndexFunc_loop].
  pose proof (len_nonneg q) as Hq.
  assert (E : (len s >? 0) = true) by (apply Z.gtb_lt; lia).
  rewrite E. replace (len s - 1) with (len q) by lia. rewrite Hlast.
  change (Zb x0a >=? utf8.RuneSelf) with false. cbv iota beta.
  change (Bool.eqb (unicode.IsSpace (Zb x0a)) false) with false. cbv iota.
  replace (len s - 1) with (len q) by lia.
  destruct (lastIndexFunc_loop_before (length q) s unicode.IsSpace false (len q)
              ltac:(lia)) as [H|H];
    set (r := bytes.lastIndexFunc_loop (length q) s unicode.IsSpace false (len q)) in *.
  - rewrite H. cbn. lia.
  - destruct ((r >=? 0) && (Zb (at_ s r) >=? utf8.RuneSelf)) eqn:T.
    + apply andb_prop in T as [T1 T2]. rewrite Z.geb_leb in T1. apply Z.leb_le in T1.
      pose proof (DecodeRune_continuation (slice_from s r)) as Hc. cbv zeta in Hc.
      destruct (utf8.DecodeRune (slice_from s r)) as [x wid]. cbn [snd] in Hc.
      etransitivity; [apply len_slice_to|].
      destruct Hc as [Hc | [Hc1 Hc2]]; [lia|].
      rewrite len_slice_from in Hc1 by lia.
      destruct (Z.eq_dec (r + wid) (len s)) as [Heq|Hne]; [|lia].
      exfalso. specialize (Hc2 (wid - 1) ltac:(lia)).
      rewrite at_slice_from in Hc2 by lia.
      replace (r + (wid - 1)) with (len q) in Hc2 by lia.
      rewrite Hlast in Hc2. vm_compute in Hc2. apply Hc2. reflexivity.
    + etransitivity; [apply len_slice_to|]. lia.
Qed.

(** The trimmed line is shorter than a line that ends with a newline. *)
Lemma TrimFunc_shorter (p : list byte) :
  newline_terminated p ->
  0 <= len (bytes.TrimFunc p unicode.IsSpace) < len p.
Proof.
  intros [q ->]. split; [apply len_nonneg|].
  unfold bytes.TrimFunc, bytes.TrimLeftFunc, bytes.indexFunc. cbv zeta.
  set (s := q ++ newline).
  assert (Hlen : len s = len q + 1) by (unfold s; rewrite len_app; reflexivity).
  pose proof (len_nonneg q) as Hq.
  destruct (indexFunc_loop_within (length s) s unicode.IsSpace false 0 ltac:(lia))
    as [H|H];
    set (i := bytes.indexFunc_loop (length s) s unicode.IsSpace false 0) in *.
  - rewrite H. cbn. lia.
  - destruct (i =? -1) eqn:E; [apply Z.eqb_eq in E; lia|].
    assert (Hs : slice_from s i = slice_from q i ++ newline).
    { unfold s, slice_from. rewrite skipn_app.
      replace (Z.to_nat i - length q)%nat with 0%nat by (unfold len in *; lia).
      reflexivity. }
    rewrite Hs.
    pose proof (TrimRightFunc_newline (slice_from q i)) as HT.
    assert (len (slice_from q i) <= len q).
    { unfold len, slice_from. rewrite length_skipn. lia. }
    lia.
Qed.

(** With a transport the loop ends without error, or with the error of
    the call of [WriteTo] that failed; the read from the buffer never
    fails. *)
Lemma sendChunks_result (fuel : nat) :
  forall i count id c addr buf net,
    let r := fst (fst (sendChunks fuel i count id (Some c) addr buf net)) in
    r = Returns None
    \/ exists e, raises net e /\ r = Returns (Some (ErrWritingUDP e)).
Proof.
  induction fuel as [|k IH]; intros i count id c addr buf net; cbv zeta.
  - left. reflexivity.
  - cbn [sendChunks].
    destruct (i <? count); [|left; reflexivity].
    destruct (Read_chunk buf) as [e [HR He]]. rewrite HR, He.
    rewrite WriteTo_extend.
    destruct (outcome net (length (calls net))) as [e'|] eqn:Ho.
    + right. exists e'. split; [eexists; exact Ho | reflexivity].
    + apply (IH (i + 1) count id c addr (slice_from buf maxChunkSize)
                (extend net [{| via := c; dest := addr;
                                packet := chunkHeader id i count
                                          ++ slice_to buf maxChunkSize;
                                failure := None |}])).
Qed.

Lemma chunkCount_limit (L : Z) :
  0 <= L -> (maxChunkCount < chunkCount L <-> maxChunkCount * maxChunkSize < L).
Proof.
  intros HL. rewrite chunkCount_div by exact HL. unfold maxChunkCount, maxChunkSize.
  pose proof (Z.mod_pos_bound L 1420 ltac:(lia)).
  pose proof (Z.div_mod L 1420 ltac:(lia)).
  destruct (L mod 1420 =? 0) eqn:E; lia.
Qed.

Section ReduceReturns.
Context {codec : GzipCodec}.

(** X5.  All that [Write] can return on a client with a transport and a
    level the compressor takes.  It never panics and never fails with
    "reading into chunked response payload".  Its error is the missing
    newline for a non-empty line without one, the size error exactly when
    the compressed payload is longer than 128 * 1420 = 181760 bytes, and
    otherwise an error the transport raised.  With a nil error it reports
    the length of the trimmed line, which is less than [len(p)] for every
    non-empty line. *)
Theorem Reduce_Write_returns_one_of (gl : Reduce.Client) (net : Net)
        (p : list byte) :
  Reduce_usable gl ->
  let r := returned (Reduce.Write gl net p) in
  let L := len (compressed (Reduce.compressionLevel gl) p) in
  let limit := maxChunkCount * maxChunkSize in
  (p = [] /\ r = Returns (0, None))
  \/ (p <> [] /\ ~ newline_terminated p
      /\ r = Returns (0, Some ErrMissingNewline))
  \/ (newline_terminated p /\ limit < L
      /\ r = Returns (0, Some (ErrExceedsMaximumSize L limit)))
  \/ (newline_terminated p /\ L <= limit
      /\ exists e, raises net e /\ r = Returns (0, Some (ErrWritingUDP e)))
  \/ (newline_terminated p /\ L <= limit
      /\ r = Returns (len (bytes.TrimFunc p unicode.IsSpace), None)
      /\ 0 <= len (bytes.TrimFunc p unicode.IsSpace) < len p).
Proof.
  intros [Hconn Hlvl] r L limit.
  destruct (Reduce.conn gl) as [c|] eqn:Hc; [clear Hconn | congruence].
  destruct (bytes.HasSuffix p newline) eqn:Hnl.
  - assert (Hnt : newline_terminated p) by (apply HasSuffix_newline; exact Hnl).
    pose proof (chunkCount_limit L (len_nonneg _)) as Hlim. fold limit in Hlim.
    unfold r, returned. rewrite (Reduce_Write_valid gl net p Hlvl Hnl). fold L.
    destruct (chunkCount L >? maxChunkCount) eqn:E.
    + apply Z.gtb_lt in E. right. right. left.
      split; [exact Hnt|]. split; [apply Hlim; exact E | reflexivity].
    + rewrite Z.gtb_ltb in E. apply Z.ltb_ge in E.
      assert (HL : L <= limit) by lia.
      rewrite Hc.
      pose proof (sendChunks_result (Z.to_nat (chunkCount L)) 0 (chunkCount L)
                    (fst (Reduce.messageID gl)) c (Reduce.addr gl)
                    (compressed (Reduce.compressionLevel gl) p) net) as Hs.
      cbv zeta in Hs.
      destruct (sendChunks _ _ _ _ _ _ _ _) as [[x b] net']. cbn [fst snd] in *.
      destruct Hs as [-> | (e & He & ->)].
      * right. right. right. right.
        split; [exact Hnt|]. split; [exact HL|]. split; [reflexivity|].
        apply TrimFunc_shorter. exact Hnt.
      * right. right. right. left.
        split; [exact Hnt|]. split; [exact HL|]. exists e. split; [exact He | reflexivity].
  - unfold r, returned. rewrite (Reduce_Write_unterminated gl net p Hnl). cbn [fst].
    assert (Hn : ~ newline_terminated p).
    { intros H. apply HasSuffix_newline in H. congruence. }
    destruct p as [|b p'].
    + left. split; reflexivity.
    + right. left. split; [discriminate|]. split; [exact Hn|].
      replace (len (b :: p') =? 0) with false; [reflexivity|].
      symmetry. apply Z.eqb_neq. unfold len. simpl length. lia.
Qed.

End ReduceReturns.

Lemma Reduce_Write_returns_one_of_witness :
  returned (Reduce.Write (codec := stored) demo_reduce quiet hello)
  = Returns (5, None)
  /\ len hello = 8.
Proof.
  split; [|reflexivity].
  destruct (Reduce_Write_returns_one_of (codec := stored) demo_reduce quiet hello)
    as [[H _] | [(_ & H & _) | [(_ & H & _) | [(_ & _ & e & [j H] & _) | (_ & _ & H & _)]]]].
  - split; [discriminate | exact demo_level_valid].
  - discriminate H.
  - exfalso. apply H. exact hello_terminated.
  - exfalso. vm_compute in H. discriminate H.
  - discriminate H.
  - exact H.
Defined.

(* ================================================================== *)
(** * [New] and the clients it builds *)

Lemma level_rejected_allowed (lvl : Z) :
  level_rejected lvl = false <-> level_allowed lvl.
Proof.
  unfold level_rejected, level_allowed, gzip.NoCompression,
    gzip.DefaultCompression, gzip.BestCompression, gzip.BestSpeed.
  lia.
Qed.

Lemma level_allowed_valid (lvl : Z) : level_allowed lvl -> gzip.valid_level lvl.
Proof.
  intros H. apply level_rejected_valid, level_rejected_allowed. exact H.
Qed.

(** The three versions of [New] run the same checks. *)
Lemma New_cases (c : Config) (rnd : RandRead) :
  (exists e, Reduce.New c rnd = (None, Some e)
             /\ Reuse.New c rnd = (None, Some e)
             /\ Recycle.New c rnd = (None, Some e)
             /\ (ClientPacketConn c = None
                 \/ ~ level_allowed (CompressionLevel c)
                 \/ rand_err rnd <> None))
  \/ (exists r u m,
        Reduce.New c rnd = (Some r, None)
        /\ Reuse.New c rnd = (Some u, None)
        /\ Recycle.New c rnd = (Some m, None)
        /\ ClientPacketConn c <> None /\ level_allowed (CompressionLevel c)
        /\ rand_err rnd = None
        /\ Reduce.compressionLevel r = CompressionLevel c
        /\ Reduce.instanceID r = rand_bytes rnd
        /\ Reduce.addr r = ServerAddr c
        /\ Reduce.conn r = ClientPacketConn c
        /\ Reduce.messageCount r = 0
        /\ Reuse_matches r u
        /\ Recycle_matches r m
        /\ Recycle.messageCount m = 0
        /\ Recycle.pooled (Recycle.msgPool m) = []).
Proof.
  unfold Reduce.New, Reuse.New, Recycle.New.
  destruct (ClientPacketConn c) as [pc|] eqn:Hc;
    [| left; eexists; repeat split; left; reflexivity].
  destruct (level_rejected (CompressionLevel c)) eqn:Hl.
  { left. eexists. split; [reflexivity|]. split; [reflexivity|].
    split; [reflexivity|]. right. left. intros H.
    apply level_rejected_allowed in H. congruence. }
  destruct (rand_err rnd) as [err|] eqn:Hr.
  { left. eexists. split; [reflexivity|]. split; [reflexivity|].
    split; [reflexivity|]. right. right. discriminate. }
  right. apply level_rejected_allowed in Hl.
  pose proof (level_allowed_valid _ Hl) as Hv.
  do 3 eexists.
  split; [reflexivity|]. split; [reflexivity|]. split; [reflexivity|].
  cbn [Reduce.compressionLevel Reduce.instanceID Reduce.addr Reduce.conn
       Reduce.messageCount Recycle.messageCount Recycle.msgPool Recycle.pooled].
  split; [discriminate|]. split; [exact Hl|].
  do 6 (split; [reflexivity|]).
  split; [|split; [|split; reflexivity]].
  - unfold Reuse_matches, Reuse_ready.
    cbn [Reuse.instanceID Reuse.addr Reuse.conn Reuse.messageCount Reuse.buf
         Reuse.zip Reduce.compressionLevel Reduce.instanceID Reduce.addr
         Reduce.conn Reduce.messageCount].
    rewrite (NewWriterLevel_valid _ Hv).
    repeat split; apply Hv.
  - unfold Recycle_matches, Recycle_ready.
    cbn [Recycle.instanceID Recycle.gl_addr Recycle.gl_conn Recycle.msgPool
         Recycle.newLevel Recycle.pooled Reduce.compressionLevel
         Reduce.instanceID Reduce.addr Reduce.conn].
    repeat split; try apply Hv. constructor.
Qed.

(** X6.  [New] succeeds exactly when the configuration has a transport,
    its level is -1, 0 or one of 1..9, and the random source gave the
    tag; the three versions fail on the same configurations with the same
    error.  The level -2, which the compressor takes, is refused.  The
    client has the level, the address and the transport of the
    configuration, the tag the random source gave, and a counter at 0. *)
Theorem New_succeeds_iff (c : Config) (rnd : RandRead) :
  ((exists r, Reduce.New c rnd = (Some r, None))
   <-> ClientPacketConn c <> None /\ level_allowed (CompressionLevel c)
       /\ rand_err rnd = None)
  /\ snd (Reuse.New c rnd) = snd (Reduce.New c rnd)
  /\ snd (Recycle.New c rnd) = snd (Reduce.New c rnd)
  /\ (fst (Reduce.New c rnd) = None <-> snd (Reduce.New c rnd) <> None)
  /\ (forall r, fst (Reduce.New c rnd) = Some r ->
        r = {| Reduce.compressionLevel := CompressionLevel c;
               Reduce.instanceID := rand_bytes rnd;
               Reduce.addr := ServerAddr c;
               Reduce.conn := ClientPacketConn c;
               Reduce.messageCount := 0 |})
  /\ gzip.valid_level gzip.HuffmanOnly /\ ~ level_allowed gzip.HuffmanOnly.
Proof.
  destruct (New_cases c rnd)
    as [(e & H1 & H2 & H3 & Hwhy)
       | (r & u & m & H1 & H2 & H3 & Hc & Hl & Hr & F1 & F2 & F3 & F4 & F5 & _)].
  - rewrite H1, H2, H3. cbn [fst snd].
    split; [split|].
    + intros [r Hr]. discriminate Hr.
    + intros (Hc & Hl & Hr). exfalso. destruct Hwhy as [H | [H | H]]; auto.
    + split; [reflexivity|]. split; [reflexivity|].
      split; [split; [discriminate | reflexivity]|].
      split; [intros r Hr; discriminate Hr|].
      unfold gzip.valid_level, level_allowed, gzip.HuffmanOnly, gzip.BestCompression,
        gzip.NoCompression, gzip.DefaultCompression, gzip.BestSpeed. lia.
  - rewrite H1, H2, H3. cbn [fst snd].
    split; [split|].
    + intros _. repeat split; assumption.
    + intros _. exists r. reflexivity.
    + split; [reflexivity|]. split; [reflexivity|].
      split; [split; [discriminate | intros H; congruence]|].
      split.
      * intros r' Hr'. injection Hr' as <-.
        destruct r as [a b d e f].
        cbn [Reduce.compressionLevel Reduce.instanceID Reduce.addr Reduce.conn
             Reduce.messageCount] in *. subst. reflexivity.
      * unfold gzip.valid_level, level_allowed, gzip.HuffmanOnly,
          gzip.BestCompression, gzip.NoCompression, gzip.DefaultCompression,
          gzip.BestSpeed. lia.
Qed.

Lemma New_succeeds_iff_witness :
  exists r, Reduce.New demo_config demo_rand = (Some r, None).
Proof.
  destruct (New_succeeds_iff demo_config demo_rand) as ([_ H] & _).
  apply H. split; [discriminate|]. split; [left; reflexivity | reflexivity].
Defined.

Section ClientsOfNew.
Context {codec : GzipCodec}.

Lemma Reduce_Write_keeps_usable (gl : Reduce.Client) (net : Net) (p : list byte) :
  Reduce_usable gl -> Reduce_usable (client_after (Reduce.Write gl net p)).
Proof.
  intros H. rewrite (Reduce_Write_client gl net p).
  match goal with |- context [if ?c then _ else _] => destruct c end; [|exact H].
  unfold Reduce.messageID. destruct (nextID _ _) as [id n]. exact H.
Qed.

Lemma Reduce_Write_usable_returns (gl : Reduce.Client) (net : Net) (p : list byte) :
  Reduce_usable gl -> exists v, returned (Reduce.Write gl net p) = Returns v.
Proof.
  intros [Hconn Hlvl].
  destruct (Reduce.conn gl) as [c|] eqn:Hc; [clear Hconn | congruence].
  destruct (bytes.HasSuffix p newline) eqn:Hnl.
  - unfold returned. rewrite (Reduce_Write_valid gl net p Hlvl Hnl).
    destruct (chunkCount _ >? maxChunkCount); [eexists; reflexivity|].
    rewrite Hc.
    match goal with
    | |- context [sendChunks ?f ?i ?n ?id (Some c) ?a ?b net] =>
        pose proof (sendChunks_result f i n id c a b net) as Hs
    end.
    cbv zeta in Hs.
    destruct (sendChunks _ _ _ _ _ _ _ _) as [[x b] net']. cbn [fst snd] in *.
    destruct Hs as [-> | (e & _ & ->)]; eexists; reflexivity.
  - unfold returned. rewrite (Reduce_Write_unterminated gl net p Hnl).
    eexists; reflexivity.
Qed.

(** A usable client answers every call of a sequence, and stays usable. *)
Lemma Reduce_run_returns (ps : list (list byte)) :
  forall (gl : Reduce.Client) (net : Net),
    Reduce_usable gl ->
    let rs := fst (fst (run Reduce.Write ps gl net)) in
    length rs = length ps
    /\ Forall (fun x => exists v, x = Returns v) rs
    /\ Reduce_usable (snd (fst (run Reduce.Write ps gl net))).
Proof.
  induction ps as [|p ps IH]; intros gl net Hu; cbv zeta.
  - cbn. split; [reflexivity|]. split; [constructor | exact Hu].
  - cbn [run].
    destruct (Reduce_Write_usable_returns gl net p Hu) as [v Hv].
    pose proof (Reduce_Write_keeps_usable gl net p Hu) as Hu'.
    unfold returned, client_after in *.
    destruct (Reduce.Write gl net p) as [[x gl1] n1]. cbn [fst snd] in *. subst x.
    specialize (IH gl1 n1 Hu'). cbv zeta in IH. destruct IH as (I1 & I2 & I3).
    destruct (run Reduce.Write ps gl1 n1) as [[xs gl2] n2]. cbn [fst snd] in *.
    split; [simpl; lia|]. split; [|exact I3].
    constructor; [exists v; reflexivity | exact I2].
Qed.

End ClientsOfNew.

(* ================================================================== *)
(** * The third version against the first *)

Section RecycleAgainstReduce.
Context {codec : GzipCodec}.

(** On a ready pool, past the two input checks, [Write] of the third file
    draws an identifier, then is the size check followed by the sending
    loop over the compressed payload; the message goes back to the pool
    on every path. *)
Lemma Recycle_Write_valid (gl : Recycle.Client) (net : Net) (p : list byte) :
  Recycle_ready gl ->
  bytes.HasSuffix p newline = true ->
  let stream := compressed (Recycle.newLevel (Recycle.msgPool gl)) p in
  let count := chunkCount (len stream) in
  let id := fst (nextID (Recycle.instanceID gl) (Recycle.messageCount gl)) in
  Recycle.Write gl net p =
  if count >? maxChunkCount then
    (Returns (0, Some (ErrExceedsMaximumSize (len stream)
                         (maxChunkCount * maxChunkSize))),
     Recycle_served gl, net)
  else
    let '(r, _, net') :=
      sendChunks (Z.to_nat count) 0 count id
                 (Recycle.gl_conn gl) (Recycle.gl_addr gl) stream net in
    (match r with
     | Panics => Panics
     | Returns (Some e) => Returns (0, Some e)
     | Returns None =>
         Returns (len (bytes.TrimFunc p unicode.IsSpace), None)
     end, Recycle_served gl, net').
Proof.
  intros Hr Hnl. cbv zeta.
  pose proof (Get_ready gl Hr) as [[Hb Hz] _].
  destruct Hr as [Hlvl _].
  unfold Recycle.Write.
  rewrite (HasSuffix_nonempty p Hnl).
  change [x0a] with newline. rewrite Hnl. cbn [negb].
  unfold Recycle_served, recycled, Recycle.newMessage.
  assert (HG : snd (Recycle.Get (Recycle.msgPool gl))
               = {| Recycle.newLevel := Recycle.newLevel (Recycle.msgPool gl);
                    Recycle.pooled := tl (Recycle.pooled (Recycle.msgPool gl)) |}).
  { unfold Recycle.Get. destruct (Recycle.msgPool gl) as [lvl [|m rest]]; reflexivity. }
  destruct (Recycle.Get (Recycle.msgPool gl)) as [msg pl]. cbn [fst snd] in *.
  subst pl. destruct msg as [b z i0 c0 a0]. cbn [Recycle.buf Recycle.zip] in Hb, Hz.
  subst b z.
  unfold Recycle.messageID, Recycle.with_state.
  cbn [Recycle.instanceID Recycle.messageCount Recycle.msgPool
       Recycle.gl_conn Recycle.gl_addr].
  destruct (nextID (Recycle.instanceID gl) (Recycle.messageCount gl)) as [i n].
  cbn [fst snd Recycle.instanceID Recycle.messageCount Recycle.msgPool
       Recycle.gl_conn Recycle.gl_addr Recycle.buf Recycle.zip].
  unfold Recycle.message_Write. cbn [Recycle.zip Recycle.buf].
  unfold gzip.Write, gzip.Close, open_writer.
  cbn [gzip.closed gzip.level gzip.pending failed].
  unfold Buffer.Write, Buffer.Len. cbn [app].
  cbn [Recycle.buf Recycle.zip Recycle.id Recycle.conn Recycle.addr].
  fold (compressed (Recycle.newLevel (Recycle.msgPool gl)) p).
  destruct (chunkCount _ >? maxChunkCount).
  - unfold Recycle.freeMessage, Recycle.Put, Recycle.with_state, gzip.Reset.
    cbn. reflexivity.
  - destruct (sendChunks _ _ _ _ _ _ _ _) as [[r b] net'].
    unfold Recycle.freeMessage, Recycle.Put, Recycle.with_state, gzip.Reset.
    destruct r as [[e|]|]; cbn; reflexivity.
Qed.

Lemma Recycle_Write_unterminated (gl : Recycle.Client) (net : Net) (p : list byte) :
  bytes.HasSuffix p newline = false ->
  Recycle.Write gl net p
  = (Returns (0, if len p =? 0 then None else Some ErrMissingNewline), gl, net).
Proof.
  intros H. unfold Recycle.Write. change [x0a] with newline. rewrite H.
  destruct (len p =? 0); reflexivity.
Qed.

Lemma Recycle_served_ready (gl : Recycle.Client) :
  Recycle_ready gl -> Recycle_ready (Recycle_served gl).
Proof.
  intros [Hlvl Hall]. unfold Recycle_ready, Recycle_served, Recycle.with_state.
  cbn [Recycle.msgPool Recycle.newLevel Recycle.pooled].
  split; [exact Hlvl|]. constructor.
  - split; reflexivity.
  - destruct (Recycle.pooled (Recycle.msgPool gl)) as [|m rest]; [constructor|].
    inversion Hall; assumption.
Qed.

(** What a call leaves of the client: the client itself for a line that
    fails the input checks, the served client otherwise. *)
Lemma Recycle_Write_client (gl : Recycle.Client) (net : Net) (p : list byte) :
  Recycle_ready gl ->
  client_after (Recycle.Write gl net p)
  = if bytes.HasSuffix p newline then Recycle_served gl else gl.
Proof.
  intros Hr. destruct (bytes.HasSuffix p newline) eqn:Hnl.
  - rewrite (Recycle_Write_valid gl net p Hr Hnl).
    destruct (chunkCount _ >? maxChunkCount); [reflexivity|].
    destruct (sendChunks _ _ _ _ _ _ _ _) as [[r b] net']. reflexivity.
  - rewrite (Recycle_Write_unterminated gl net p Hnl). reflexivity.
Qed.

Lemma Recycle_Write_keeps_usable (gl : Recycle.Client) (net : Net) (p : list byte) :
  Recycle_usable gl -> Recycle_usable (client_after (Recycle.Write gl net p)).
Proof.
  intros [Hc Hr]. rewrite (Recycle_Write_client gl net p Hr).
  destruct (bytes.HasSuffix p newline); [|split; assumption].
  split; [exact Hc | apply Recycle_served_ready; exact Hr].
Qed.

Lemma Recycle_Write_usable_returns (gl : Recycle.Client) (net : Net) (p : list byte) :
  Recycle_usable gl -> exists v, returned (Recycle.Write gl net p) = Returns v.
Proof.
  intros [Hconn Hr].
  destruct (Recycle.gl_conn gl) as [c|] eqn:Hc; [clear Hconn | congruence].
  destruct (bytes.HasSuffix p newline) eqn:Hnl.
  - unfold returned. rewrite (Recycle_Write_valid gl net p Hr Hnl).
    destruct (chunkCount _ >? maxChunkCount); [eexists; reflexivity|].
    rewrite Hc.
    match goal with
    | |- context [sendChunks ?f ?i ?n ?id (Some c) ?a ?b net] =>
        pose proof (sendChunks_result f i n id c a b net) as Hs
    end.
    cbv zeta in Hs.
    destruct (sendChunks _ _ _ _ _ _ _ _) as [[x b] net']. cbn [fst snd] in *.
    destruct Hs as [-> | (e & _ & ->)]; eexists; reflexivity.
  - unfold returned. rewrite (Recycle_Write_unterminated gl net p Hnl).
    eexists; reflexivity.
Qed.

Lemma Recycle_run_returns (ps : list (list byte)) :
  forall (gl : Recycle.Client) (net : Net),
    Recycle_usable gl ->
    let rs := fst (fst (run Recycle.Write ps gl net)) in
    length rs = length ps
    /\ Forall (fun x => exists v, x = Returns v) rs
    /\ Recycle_usable (snd (fst (run Recycle.Write ps gl net))).
Proof.
  induction ps as [|p ps IH]; intros gl net Hu; cbv zeta.
  - cbn. split; [reflexivity|]. split; [constructor | exact Hu].
  - cbn [run].
    destruct (Recycle_Write_usable_returns gl net p Hu) as [v Hv].
    pose proof (Recycle_Write_keeps_usable gl net p Hu) as Hu'.
    unfold returned, client_after in *.
    destruct (Recycle.Write gl net p) as [[x gl1] n1]. cbn [fst snd] in *. subst x.
    specialize (IH gl1 n1 Hu'). cbv zeta in IH. destruct IH as (I1 & I2 & I3).
    destruct (run Recycle.Write ps gl1 n1) as [[xs gl2] n2]. cbn [fst snd] in *.
    split; [simpl; lia|]. split; [|exact I3].
    constructor; [exists v; reflexivity | exact I2].
Qed.

End RecycleAgainstReduce.

(* ================================================================== *)
(** * The three versions side by side *)

Section ThreeVersions.
Context {codec : GzipCodec}.

(** X7.  A client [New] returned never panics in [Write]: whatever lines
    are written to it one after the other, and whatever the transport
    does, every call returns.  This holds of the three versions. *)
Theorem New_clients_never_panic (c : Config) (rnd : RandRead)
        (ps : list (list byte)) (net : Net) :
  let all_return (rs : list (Ret (Z * option error))) :=
    length rs = length ps /\ Forall (fun x => exists v, x = Returns v) rs in
  (forall r, Reduce.New c rnd = (Some r, None) ->
             all_return (fst (fst (run Reduce.Write ps r net))))
  /\ (forall u, Reuse.New c rnd = (Some u, None) ->
                all_return (fst (fst (run Reuse.Write ps u net))))
  /\ (forall m, Recycle.New c rnd = (Some m, None) ->
                all_return (fst (fst (run Recycle.Write ps m net)))).
Proof.
  intros all_return. unfold all_return.
  destruct (New_cases c rnd)
    as [(e & H1 & H2 & H3 & _)
       | (r & u & m & H1 & H2 & H3 & Hc & Hl & _ & F1 & _ & _ & F4 & _ & HM & HR & _)].
  { rewrite H1, H2, H3. split; [|split]; intros x Hx; discriminate Hx. }
  assert (Hu : Reduce_usable r).
  { split; [rewrite F4; exact Hc | rewrite F1; apply level_allowed_valid, Hl]. }
  destruct (Reduce_run_returns ps r net Hu) as (R1 & R2 & _).
  split; [|split].
  - intros r' Hr'. assert (r' = r) by congruence. subst r'. split; assumption.
  - intros u' Hu'. assert (u' = u) by congruence. subst u'.
    destruct (Reuse_run_simulates ps r u net HM) as (S1 & _).
    rewrite S1. split; assumption.
  - intros m' Hm'. assert (m' = m) by congruence. subst m'.
    assert (Hum : Recycle_usable m).
    { destruct HR as (_ & _ & Hcm & _ & Hrd). split; [|exact Hrd].
      rewrite Hcm, F4. exact Hc. }
    destruct (Recycle_run_returns ps m net Hum) as (M1 & M2 & _).
    split; assumption.
Qed.

(** X8.  The second version behaves as the first.  From clients that
    hold the same tag, address, transport and counter, the resource of
    the second being ready at the level of the first, and so from the
    clients [New] builds from one configuration, any sequence of calls
    returns the same values and makes the same calls to the transport,
    and leaves clients that agree in the same way. *)
Theorem Reuse_behaves_as_Reduce (c : Config) (rnd : RandRead)
        (r : Reduce.Client) (u : Reuse.Client)
        (ps : list (list byte)) (net : Net) :
  Reuse_matches r u
  \/ (Reduce.New c rnd = (Some r, None) /\ Reuse.New c rnd = (Some u, None)) ->
  fst (fst (run Reuse.Write ps u net)) = fst (fst (run Reduce.Write ps r net))
  /\ snd (run Reuse.Write ps u net) = snd (run Reduce.Write ps r net)
  /\ Reuse_matches (snd (fst (run Reduce.Write ps r net)))
                   (snd (fst (run Reuse.Write ps u net))).
Proof.
  intros H. apply Reuse_run_simulates.
  destruct H as [HM | [Hr Hu]]; [exact HM|].
  destruct (New_cases c rnd)
    as [(e & H1 & _) | (r' & u' & m & H1 & H2 & H3)]; [congruence|].
  assert (r' = r) by congruence. assert (u' = u) by congruence. subst r' u'.
  apply H3.
Qed.

(** X9.  The third version against the first, one call, from clients
    that hold the same tag, address, transport, level and counter, the
    pool of the third being ready: the two return the same and make the
    same calls to the transport.  They differ in the counter: the third
    draws the identifier before the size check, so a line that is too
    large advances its counter and not that of the first; for any other
    line the counters agree again after the call. *)
Theorem Recycle_Write_agrees (r : Reduce.Client) (m : Recycle.Client)
        (net : Net) (p : list byte) :
  Recycle_matches r m ->
  Recycle.messageCount m = Reduce.messageCount r ->
  let L := len (compressed (Reduce.compressionLevel r) p) in
  let r' := client_after (Reduce.Write r net p) in
  let m' := client_after (Recycle.Write m net p) in
  returned (Recycle.Write m net p) = returned (Reduce.Write r net p)
  /\ net_after (Recycle.Write m net p) = net_after (Reduce.Write r net p)
  /\ Recycle_matches r' m'
  /\ (newline_terminated p /\ maxChunkCount < chunkCount L ->
      Reduce.messageCount r' = Reduce.messageCount r
      /\ Recycle.messageCount m' = uint32 (Recycle.messageCount m + 1))
  /\ (~ (newline_terminated p /\ maxChunkCount < chunkCount L) ->
      Recycle.messageCount m' = Reduce.messageCount r').
Proof.
  intros HM Hmc L r' m'.
  pose proof HM as (Ht & Ha & Hc & Hl & Hr).
  assert (Hlvl : gzip.valid_level (Reduce.compressionLevel r)).
  { rewrite <- Hl. apply Hr. }
  assert (Hserved : Recycle_matches r (Recycle_served m)
                    /\ Recycle_matches (snd (Reduce.messageID r)) (Recycle_served m)
                    /\ Recycle.messageCount (Recycle_served m)
                       = uint32 (Recycle.messageCount m + 1)
                    /\ Reduce.messageCount (snd (Reduce.messageID r))
                       = uint32 (Recycle.messageCount m + 1)).
  { pose proof (Recycle_served_ready m Hr) as Hr'.
    unfold Reduce.messageID. rewrite Hmc.
    unfold Recycle_served, Recycle.with_state, Recycle_matches in *.
    unfold nextID. cbn [fst snd Recycle.instanceID Recycle.gl_addr Recycle.gl_conn
      Recycle.msgPool Recycle.newLevel Recycle.messageCount Reduce.instanceID
      Reduce.addr Reduce.conn Reduce.compressionLevel Reduce.messageCount] in *.
    rewrite Hmc in *.
    split; [|split; [|split; reflexivity]];
      (split; [exact Ht|]; split; [exact Ha|]; split; [exact Hc|];
       split; [exact Hl | exact Hr']). }
  destruct Hserved as (HS1 & HS2 & HC1 & HC2).
  unfold r', m'. clear r' m'.
  destruct (bytes.HasSuffix p newline) eqn:Hnl.
  - assert (Hnt : newline_terminated p) by (apply HasSuffix_newline; exact Hnl).
    rewrite (Recycle_Write_valid m net p Hr Hnl).
    rewrite (Reduce_Write_valid r net p Hlvl Hnl).
    rewrite Hl. fold L.
    destruct (chunkCount L >? maxChunkCount) eqn:E.
    + apply Z.gtb_lt in E.
      unfold returned, net_after, client_after. cbn [fst snd].
      split; [reflexivity|]. split; [reflexivity|]. split; [exact HS1|].
      split; [intros _; split; [reflexivity | exact HC1]|].
      intros Hn. exfalso. apply Hn. split; [exact Hnt | exact E].
    + rewrite Z.gtb_ltb in E. apply Z.ltb_ge in E.
      assert (Hid : fst (nextID (Recycle.instanceID m) (Recycle.messageCount m))
                    = fst (Reduce.messageID r)).
      { unfold Reduce.messageID. rewrite Ht, Hmc.
        destruct (nextID _ _); reflexivity. }
      rewrite Hid, Hc, Ha.
      destruct (sendChunks _ _ _ _ _ _ _ _) as [[x b] net'].
      unfold returned, net_after, client_after. cbn [fst snd].
      split; [reflexivity|]. split; [reflexivity|]. split; [exact HS2|].
      split; [intros [_ Hbig]; lia|].
      intros _. rewrite HC1, HC2. reflexivity.
  - rewrite (Recycle_Write_unterminated m net p Hnl),
            (Reduce_Write_unterminated r net p Hnl).
    unfold returned, net_after, client_after. cbn [fst snd].
    split; [reflexivity|]. split; [reflexivity|]. split; [exact HM|].
    split; [|intros _; exact Hmc].
    intros [Hnt _]. apply HasSuffix_newline in Hnt. congruence.
Qed.

End ThreeVersions.

Lemma demo_clients_of_New :
  Reduce.New demo_config demo_rand = (Some demo_reduce, None)
  /\ Reuse.New demo_config demo_rand = (Some demo_reuse, None)
  /\ Recycle.New demo_config demo_rand = (Some demo_recycle, None).
Proof. repeat split. Qed.

Lemma demo_recycle_matches : Recycle_matches demo_reduce demo_recycle.
Proof.
  destruct (New_cases demo_config demo_rand)
    as [(e & H & _) | (r & u & m & H1 & _ & H3 & Hrest)]; [discriminate H|].
  destruct demo_clients_of_New as (D1 & _ & D3).
  assert (r = demo_reduce) by congruence. assert (m = demo_recycle) by congruence.
  subst. apply Hrest.
Qed.

Lemma New_clients_never_panic_witness :
  length (fst (fst (run (Reduce.Write (codec := stored)) [hello; []; line_of 3000]
                        demo_reduce (failing_at 1 unreachable))))
  = 3%nat
  /\ length (fst (fst (run (Recycle.Write (codec := stored)) [hello; []; line_of 3000]
                           demo_recycle (failing_at 1 unreachable))))
     = 3%nat.
Proof.
  destruct (New_clients_never_panic (codec := stored) demo_config demo_rand
              [hello; []; line_of 3000] (failing_at 1 unreachable))
    as (H1 & _ & H3).
  split.
  - apply (H1 demo_reduce). reflexivity.
  - apply (H3 demo_recycle). reflexivity.
Defined.

Lemma Reuse_behaves_as_Reduce_witness :
  fst (fst (run (Reuse.Write (codec := stored)) [hello; line_of 3000; hello]
                demo_reuse (failing_at 1 unreachable)))
  = fst (fst (run (Reduce.Write (codec := stored)) [hello; line_of 3000; hello]
                  demo_reduce (failing_at 1 unreachable))).
Proof.
  apply (Reuse_behaves_as_Reduce (codec := stored) demo_config demo_rand).
  right. split; reflexivity.
Defined.

Lemma Recycle_Write_agrees_witness :
  Reduce.messageCount
    (client_after (Reduce.Write (codec := stored) demo_reduce quiet (line_of 181760)))
  = 0
  /\ Recycle.messageCount
       (client_after (Recycle.Write (codec := stored) demo_recycle quiet
                                    (line_of 181760)))
     = 1.
Proof.
  destruct (Recycle_Write_agrees (codec := stored) demo_reduce demo_recycle quiet
              (line_of 181760) demo_recycle_matches eq_refl) as (_ & _ & _ & H & _).
  apply H. split; [apply line_of_terminated|]. vm_compute. reflexivity.
Defined.

(* ================================================================== *)
(** * The third version over any [sync.Pool] *)

Lemma keep_some_Forall {A : Type} (P : A -> Prop) (keep : list bool) (l : list A) :
  Forall P l -> Forall P (keep_some keep l).
Proof.
  intros H. revert keep. induction H as [|x l Hx Hl IH]; intros keep.
  - destruct keep; constructor.
  - destruct keep as [|[|] keep]; cbn [keep_some].
    + constructor; [exact Hx | exact Hl].
    + constructor; [exact Hx | apply IH].
    + apply IH.
Qed.

(** Whatever [Get] hands out from a pool of ready messages is ready, and
    so is what it leaves. *)
Lemma Pool_Get_any_ready (pick : option nat) (pl : Recycle.Pool) :
  gzip.valid_level (Recycle.newLevel pl) ->
  Forall (message_ready (Recycle.newLevel pl)) (Recycle.pooled pl) ->
  message_ready (Recycle.newLevel pl) (fst (Pool_Get_any pick pl))
  /\ Recycle.newLevel (snd (Pool_Get_any pick pl)) = Recycle.newLevel pl
  /\ Forall (message_ready (Recycle.newLevel pl))
            (Recycle.pooled (snd (Pool_Get_any pick pl))).
Proof.
  intros Hlvl Hall.
  assert (Hnew : message_ready (Recycle.newLevel pl)
                               (Recycle.Pool_New (Recycle.newLevel pl))).
  { unfold message_ready, Recycle.Pool_New. cbn [Recycle.buf Recycle.zip].
    rewrite (NewWriterLevel_valid _ Hlvl). split; reflexivity. }
  unfold Pool_Get_any.
  destruct pick as [i|];
    [|split; [exact Hnew | split; [reflexivity | exact Hall]]].
  destruct (nth_error (Recycle.pooled pl) i) as [m|] eqn:Hi;
    [|split; [exact Hnew | split; [reflexivity | exact Hall]]].
  cbn [fst snd Recycle.newLevel Recycle.pooled].
  split; [|split; [reflexivity|]].
  - apply (proj1 (Forall_forall _ _) Hall). apply nth_error_In with i. exact Hi.
  - apply Forall_app. split.
    + rewrite <- (firstn_skipn i (Recycle.pooled pl)) in Hall.
      apply Forall_app in Hall. apply Hall.
    + rewrite <- (firstn_skipn (S i) (Recycle.pooled pl)) in Hall.
      apply Forall_app in Hall. apply Hall.
Qed.

Section AnyPool.
Context {codec : GzipCodec}.

(** Past the input checks, [Write] over the pool of the model runs
    [message.Write] on a message that is the same whatever the pool
    held. *)
Lemma Recycle_Write_message (gl : Recycle.Client) (net : Net) (p : list byte) :
  Recycle_ready gl ->
  bytes.HasSuffix p newline = true ->
  let msg := {| Recycle.buf := [];
                Recycle.zip := Some (open_writer (Recycle.newLevel (Recycle.msgPool gl)));
                Recycle.id := fst (nextID (Recycle.instanceID gl)
                                          (Recycle.messageCount gl));
                Recycle.conn := Recycle.gl_conn gl;
                Recycle.addr := Recycle.gl_addr gl |} in
  returned (Recycle.Write gl net p) = fst (fst (Recycle.message_Write msg net p))
  /\ net_after (Recycle.Write gl net p) = snd (Recycle.message_Write msg net p).
Proof.
  intros Hr Hnl. cbv zeta.
  pose proof (Get_ready gl Hr) as [[Hb Hz] _].
  unfold returned, net_after, Recycle.Write.
  rewrite (HasSuffix_nonempty p Hnl).
  change [x0a] with newline. rewrite Hnl. cbn [negb].
  unfold Recycle.newMessage.
  destruct (Recycle.Get (Recycle.msgPool gl)) as [m pl]. cbn [fst] in Hb, Hz.
  unfold Recycle.messageID, Recycle.with_state.
  cbn [Recycle.instanceID Recycle.messageCount Recycle.msgPool
       Recycle.gl_conn Recycle.gl_addr].
  destruct (nextID (Recycle.instanceID gl) (Recycle.messageCount gl)) as [i n].
  cbn [fst Recycle.instanceID Recycle.messageCount Recycle.msgPool
       Recycle.gl_conn Recycle.gl_addr].
  rewrite Hb, Hz.
  destruct (Recycle.message_Write _ net p) as [[r msg'] net'].
  split; reflexivity.
Qed.

(** The same over a pool that does as it likes, with the client it
    leaves. *)
Lemma Write_any_message (mv : PoolMove) (gl : Recycle.Client) (net : Net)
      (p : list byte) :
  Recycle_ready gl ->
  bytes.HasSuffix p newline = true ->
  let msg := {| Recycle.buf := [];
                Recycle.zip := Some (open_writer (Recycle.newLevel (Recycle.msgPool gl)));
                Recycle.id := fst (nextID (Recycle.instanceID gl)
                                          (Recycle.messageCount gl));
                Recycle.conn := Recycle.gl_conn gl;
                Recycle.addr := Recycle.gl_addr gl |} in
  let gl' := client_after (Write_any mv gl net p) in
  returned (Write_any mv gl net p) = fst (fst (Recycle.message_Write msg net p))
  /\ net_after (Write_any mv gl net p) = snd (Recycle.message_Write msg net p)
  /\ Recycle.instanceID gl' = Recycle.instanceID gl
  /\ Recycle.gl_addr gl' = Recycle.gl_addr gl
  /\ Recycle.gl_conn gl' = Recycle.gl_conn gl
  /\ Recycle.messageCount gl'
     = snd (nextID (Recycle.instanceID gl) (Recycle.messageCount gl))
  /\ Recycle.newLevel (Recycle.msgPool gl') = Recycle.newLevel (Recycle.msgPool gl)
  /\ Recycle_ready gl'.
Proof.
  intros [Hlvl Hall] Hnl. cbv zeta.
  set (lvl := Recycle.newLevel (Recycle.msgPool gl)) in *.
  pose proof (Pool_Get_any_ready (picked mv)
                (Pool_drop (dropped mv) (Recycle.msgPool gl))) as HG.
  change (Recycle.newLevel (Pool_drop (dropped mv) (Recycle.msgPool gl)))
    with lvl in HG.
  specialize (HG Hlvl (keep_some_Forall _ _ _ Hall)).
  destruct HG as ([Hb Hz] & HGl & HGall).
  unfold returned, net_after, client_after, Write_any.
  rewrite (HasSuffix_nonempty p Hnl).
  change [x0a] with newline. rewrite Hnl. cbn [negb].
  unfold newMessage_any, Recycle.with_state. cbn [Recycle.msgPool].
  destruct (Pool_Get_any (picked mv) (Pool_drop (dropped mv) (Recycle.msgPool gl)))
    as [m pl].
  cbn [fst snd] in Hb, Hz, HGl, HGall.
  unfold Recycle.messageID, Recycle.with_state.
  cbn [Recycle.instanceID Recycle.messageCount Recycle.msgPool
       Recycle.gl_conn Recycle.gl_addr].
  destruct (nextID (Recycle.instanceID gl) (Recycle.messageCount gl)) as [i n].
  cbn [fst snd Recycle.instanceID Recycle.messageCount Recycle.msgPool
       Recycle.gl_conn Recycle.gl_addr].
  rewrite Hb, Hz.
  match goal with
  | |- context [Recycle.message_Write ?m0 net p] =>
      pose proof (message_Write_zip m0 net p) as HZ;
      destruct (Recycle.message_Write m0 net p) as [[r msg'] net']
  end.
  cbn [fst snd Recycle.zip option_map] in HZ |- *.
  unfold Recycle.freeMessage, Recycle.Put, Recycle.with_state, Recycle_ready.
  cbn [Recycle.instanceID Recycle.messageCount Recycle.msgPool
       Recycle.gl_conn Recycle.gl_addr Recycle.newLevel Recycle.pooled].
  repeat (split; [reflexivity|]).
  split; [exact HGl|].
  rewrite HGl. split; [exact Hlvl|]. constructor; [|exact HGall].
  unfold message_ready. cbn [Recycle.buf Recycle.zip].
  split; [reflexivity|].
  destruct (Recycle.zip msg') as [z'|]; [|discriminate HZ].
  cbn [option_map] in HZ |- *. injection HZ as HZ.
  unfold gzip.Reset, open_writer. rewrite HZ. reflexivity.
Qed.

(** One call: over a pool that does as it likes, [Write] returns what it
    returns over the pool of the model and makes the same calls to the
    transport; the two clients differ in what their pools hold at most,
    and that is ready. *)
Lemma Write_any_agrees (mv : PoolMove) (a b : Recycle.Client) (net : Net)
      (p : list byte) :
  same_but_pool a b ->
  returned (Write_any mv a net p) = returned (Recycle.Write b net p)
  /\ net_after (Write_any mv a net p) = net_after (Recycle.Write b net p)
  /\ same_but_pool (client_after (Write_any mv a net p))
                   (client_after (Recycle.Write b net p)).
Proof.
  intros (Hid & Haddr & Hconn & Hmc & Hlv & Hra & Hrb).
  pose proof (Recycle_Write_keeps_ready b net p Hrb) as Hrb'.
  pose proof (Recycle_Write_client b net p Hrb) as Hcb.
  destruct (bytes.HasSuffix p newline) eqn:Hnl.
  - destruct (Write_any_message mv a net p Hra Hnl)
      as (A1 & A2 & A3 & A4 & A5 & A6 & A7 & A8).
    destruct (Recycle_Write_message b net p Hrb Hnl) as (B1 & B2).
    split; [rewrite A1, B1, Hid, Haddr, Hconn, Hmc, Hlv; reflexivity|].
    split; [rewrite A2, B2, Hid, Haddr, Hconn, Hmc, Hlv; reflexivity|].
    rewrite Hcb in Hrb' |- *.
    unfold same_but_pool.
    split; [rewrite A3; exact Hid|].
    split; [rewrite A4; exact Haddr|].
    split; [rewrite A5; exact Hconn|].
    split; [rewrite A6, Hid, Hmc; reflexivity|].
    split; [rewrite A7; exact Hlv|].
    split; [exact A8 | exact Hrb'].
  - rewrite Hcb. clear Hcb Hrb'.
    unfold returned, net_after, client_after, Write_any, Recycle.Write.
    change [x0a] with newline. rewrite Hnl. cbn [negb].
    assert (Hdrop : same_but_pool
                      (Recycle.with_state a (Recycle.messageCount a)
                         (Pool_drop (dropped mv) (Recycle.msgPool a))) b).
    { unfold same_but_pool, Recycle.with_state, Pool_drop, Recycle_ready.
      cbn [Recycle.instanceID Recycle.messageCount Recycle.msgPool
           Recycle.gl_conn Recycle.gl_addr Recycle.newLevel Recycle.pooled].
      repeat (split; [assumption|]).
      split; [|exact Hrb].
      split; [apply Hra | apply keep_some_Forall; apply Hra]. }
    destruct (len p =? 0); cbn [fst snd];
      (split; [reflexivity|]; split; [reflexivity | exact Hdrop]).
Qed.

(** Calls in a row. *)
Lemma run_any_agrees (calls : list (PoolMove * list byte)) :
  forall (a b : Recycle.Client) (net : Net),
    same_but_pool a b ->
    fst (fst (run_any calls a net))
    = fst (fst (run Recycle.Write (map snd calls) b net))
    /\ snd (run_any calls a net) = snd (run Recycle.Write (map snd calls) b net)
    /\ same_but_pool (snd (fst (run_any calls a net)))
                     (snd (fst (run Recycle.Write (map snd calls) b net))).
Proof.
  induction calls as [|[mv p] calls IH]; intros a b net Hab.
  - cbn. split; [reflexivity|]. split; [reflexivity | exact Hab].
  - cbn [run_any run map snd].
    destruct (Write_any_agrees mv a b net p Hab) as (H1 & H2 & H3).
    unfold returned, net_after, client_after in *.
    destruct (Write_any mv a net p) as [[x a1] n1].
    destruct (Recycle.Write b net p) as [[y b1] n2].
    cbn [fst snd] in *. subst y n2.
    destruct x as [v|].
    + destruct (IH a1 b1 n1 H3) as (I1 & I2 & I3).
      destruct (run_any calls a1 n1) as [[xs a2] n3].
      destruct (run Recycle.Write (map snd calls) b1 n1) as [[ys b2] n4].
      cbn [fst snd] in *. subst.
      split; [reflexivity|]. split; [reflexivity | exact I3].
    + cbn [fst snd]. split; [reflexivity|]. split; [reflexivity | exact H3].
Qed.

(** X10.  The third version does not depend on what [sync.Pool] does.
    Let [Get] hand out any message the pool holds, or ignore them and
    make a new one, and let the pool drop messages between the calls: a
    sequence of calls returns the same values, makes the same calls to
    the transport and moves the counter alike as over the pool of the
    model, which hands out the message put back last and drops nothing.
    Either way the pool holds only messages that are reset: an empty
    buffer and a compressor open on it.  This holds from any two clients
    that differ in what their pools hold at most, and so from a client
    [New] returned. *)
Theorem Recycle_whatever_the_pool_does (c : Config) (rnd : RandRead)
        (calls : list (PoolMove * list byte)) (a b : Recycle.Client) (net : Net) :
  same_but_pool a b \/ (Recycle.New c rnd = (Some a, None) /\ b = a) ->
  fst (fst (run_any calls a net))
  = fst (fst (run Recycle.Write (map snd calls) b net))
  /\ snd (run_any calls a net) = snd (run Recycle.Write (map snd calls) b net)
  /\ same_but_pool (snd (fst (run_any calls a net)))
                   (snd (fst (run Recycle.Write (map snd calls) b net))).
Proof.
  intros H. apply run_any_agrees.
  destruct H as [H | [HN ->]]; [exact H|].
  destruct (New_cases c rnd)
    as [(e & _ & _ & H3 & _) | (r & u & m & _ & _ & H3 & Hrest)]; [congruence|].
  assert (m = a) by congruence. subst m.
  destruct Hrest as (_ & _ & _ & _ & _ & _ & _ & _ & _ & HR & _).
  destruct HR as (_ & _ & _ & _ & Hready).
  unfold same_but_pool. repeat (split; [reflexivity|]). split; exact Hready.
Qed.

End AnyPool.

Lemma Recycle_whatever_the_pool_does_witness :
  fst (fst (run_any (codec := stored)
              [({| dropped := []; picked := None |}, hello);
               ({| dropped := []; picked := None |}, line_of 3000);
               ({| dropped := [false]; picked := Some 0%nat |}, hello)]
              demo_recycle (failing_at 1 unreachable)))
  = fst (fst (run (Recycle.Write (codec := stored)) [hello; line_of 3000; hello]
                  demo_recycle (failing_at 1 unreachable))).
Proof.
  apply (Recycle_whatever_the_pool_does (codec := stored) demo_config demo_rand
           [({| dropped := []; picked := None |}, hello);
            ({| dropped := []; picked := None |}, line_of 3000);
            ({| dropped := [false]; picked := Some 0%nat |}, hello)]).
  right. split; reflexivity.
Defined.

(** A pool whose [Get] misses twice holds two messages. *)
Example pool_may_hold_two :
  length (Recycle.pooled (Recycle.msgPool (snd (fst
            (run_any (codec := stored)
               [({| dropped := []; picked := None |}, hello);
                ({| dropped := []; picked := None |}, hello)]
               demo_recycle quiet)))))
  = 2%nat.
Proof. vm_compute. reflexivity. Qed.

(* ================================================================== *)
(** * White space: the characters and their encodings *)

Lemma u8_Zb (b : byte) : u8 (Zb b) = b.
Proof.
  apply Zb_inj. apply Zb_u8_small. apply Zb_range.
Qed.

(** The encodings listed are those of the runes [unicode.IsSpace]
    accepts. *)
Lemma White_Space_utf8_runes (u : list byte) :
  In u White_Space_utf8
  <-> exists r, unicode.IsSpace r = true /\ u = utf8.EncodeRune r.
Proof.
  split.
  - intros H. cbn [In White_Space_utf8] in H.
    repeat (destruct H as [<-|H]); [..|contradiction].
    + exists 0x09. split; reflexivity.
    + exists 0x0A. split; reflexivity.
    + exists 0x0B. split; reflexivity.
    + exists 0x0C. split; reflexivity.
    + exists 0x0D. split; reflexivity.
    + exists 0x20. split; reflexivity.
    + exists 0x85. split; reflexivity.
    + exists 0xA0. split; reflexivity.
    + exists 0x1680. split; reflexivity.
    + exists 0x2000. split; reflexivity.
    + exists 0x2001. split; reflexivity.
    + exists 0x2002. split; reflexivity.
    + exists 0x2003. split; reflexivity.
    + exists 0x2004. split; reflexivity.
    + exists 0x2005. split; reflexivity.
    + exists 0x2006. split; reflexivity.
    + exists 0x2007. split; reflexivity.
    + exists 0x2008. split; reflexivity.
    + exists 0x2009. split; reflexivity.
    + exists 0x200A. split; reflexivity.
    + exists 0x2028. split; reflexivity.
    + exists 0x2029. split; reflexivity.
    + exists 0x202F. split; reflexivity.
    + exists 0x205F. split; reflexivity.
    + exists 0x3000. split; reflexivity.
  - intros (r & Hr & ->). apply IsSpace_cases in Hr. cbn [In] in Hr.
    repeat (destruct Hr as [<-|Hr]); [..|contradiction];
      vm_compute; tauto.
Qed.

Lemma blank_runes (s : list byte) :
  blank s
  <-> exists ws, Forall (fun r => unicode.IsSpace r = true) ws
                 /\ s = flat_map utf8.EncodeRune ws.
Proof.
  split.
  - intros (us & Hus & ->). induction Hus as [|u us Hu _ (ws & Hws & IH)].
    + exists []. split; [constructor | reflexivity].
    + apply White_Space_utf8_runes in Hu as (r & Hr & ->).
      exists (r :: ws). split; [constructor; assumption|].
      cbn [List.concat flat_map]. rewrite IH. reflexivity.
  - intros (ws & Hws & ->). induction Hws as [|r ws Hr _ (us & Hus & IH)].
    + exists []. split; [constructor | reflexivity].
    + exists (utf8.EncodeRune r :: us). split.
      * constructor; [|exact Hus]. apply White_Space_utf8_runes.
        exists r. split; [exact Hr | reflexivity].
      * cbn [List.concat flat_map]. rewrite IH. reflexivity.
Qed.

Lemma blank_nil : blank [].
Proof. exists []. split; [constructor | reflexivity]. Qed.

Lemma blank_app (a b : list byte) : blank a -> blank b -> blank (a ++ b).
Proof.
  intros (ua & Ha & ->) (ub & Hb & ->). exists (ua ++ ub).
  split; [apply Forall_app; split; assumption | symmetry; apply concat_app].
Qed.

Lemma blank_unit (u : list byte) : In u White_Space_utf8 -> blank u.
Proof.
  intros H. exists [u]. split; [constructor; [exact H | constructor]|].
  cbn. rewrite app_nil_r. reflexivity.
Qed.

(** A white-space character takes one to three bytes; its first byte is
    no continuation byte, the others are. *)
Lemma unit_shape (u : list byte) :
  In u White_Space_utf8 ->
  exists b0 cs,
    u = b0 :: cs
    /\ (length cs <= 2)%nat
    /\ ~ (0x80 <= Zb b0 <= 0xBF)
    /\ (cs = [] <-> Zb b0 < 0x80)
    /\ Forall (fun c => 0x80 <= Zb c <= 0xBF) cs.
Proof.
  intros H. cbn [In White_Space_utf8] in H.
  repeat (destruct H as [<-|H]); [..|contradiction];
    eexists; eexists; (split; [reflexivity|]);
    (split; [simpl; lia|]);
    repeat match goal with
      | |- context [Zb ?b] =>
          let v := eval vm_compute in (Zb b) in change (Zb b) with v
      end;
    (split; [lia|]);
    (split; [split; [intros E; first [discriminate E | lia]
                    | intros E; first [reflexivity | lia]]|]);
    repeat constructor;
    repeat match goal with
      | |- context [Zb ?b] =>
          let v := eval vm_compute in (Zb b) in change (Zb b) with v
      end; lia.
Qed.

(** White space that is not empty does not begin with a continuation
    byte. *)
Lemma blank_head (b : byte) (rest : list byte) :
  blank (b :: rest) -> ~ (0x80 <= Zb b <= 0xBF).
Proof.
  intros (us & Hus & E). induction Hus as [|u us Hu _ IH].
  - discriminate E.
  - destruct (unit_shape u Hu) as (b0 & cs & -> & _ & Hb0 & _).
    cbn [List.concat app] in E. injection E as -> _. exact Hb0.
Qed.

Lemma prefixb_spec (u t : list byte) :
  prefixb u t = true <-> exists rest, t = u ++ rest.
Proof.
  revert t. induction u as [|x u IH]; intros t.
  - split; [intros _; exists t; reflexivity | reflexivity].
  - destruct t as [|y t]; cbn [prefixb].
    + split; [discriminate | intros [rest E]; discriminate E].
    + rewrite andb_true_iff, IH. split.
      * intros [Hxy [rest ->]]. apply Byte.byte_dec_bl in Hxy. subst y.
        exists rest. reflexivity.
      * intros [rest E]. injection E as -> ->. split; [|exists rest; reflexivity].
        apply Byte.byte_dec_lb. reflexivity.
Qed.

Lemma starts_blankb_spec (t : list byte) :
  starts_blankb t = true <-> starts_blank t.
Proof.
  unfold starts_blankb, starts_blank. rewrite existsb_exists. split.
  - intros (u & Hu & Hp). apply prefixb_spec in Hp as [rest ->].
    exists u, rest. split; [exact Hu | reflexivity].
  - intros (u & rest & Hu & ->). exists u. split; [exact Hu|].
    apply prefixb_spec. exists rest. reflexivity.
Qed.

Lemma ends_blankb_spec (t : list byte) :
  ends_blankb t = true <-> ends_blank t.
Proof.
  unfold ends_blankb, ends_blank. rewrite existsb_exists. split.
  - intros (u & Hu & Hp). apply prefixb_spec in Hp as [rest E].
    exists u, (rev rest). split; [exact Hu|].
    apply (f_equal (@rev byte)) in E. rewrite rev_involutive, rev_app_distr in E.
    rewrite rev_involutive in E. exact E.
  - intros (u & init & Hu & ->). exists u. split; [exact Hu|].
    apply prefixb_spec. exists (rev init). apply rev_app_distr.
Qed.

(** Every line has a stripped form. *)
Lemma strip_left (n : nat) :
  forall p, (length p <= n)%nat ->
            exists pre s, p = pre ++ s /\ blank pre /\ ~ starts_blank s.
Proof.
  induction n as [|n IH]; intros p Hn.
  - destruct p; [|simpl in Hn; lia]. exists [], []. split; [reflexivity|].
    split; [apply blank_nil|]. intros (u & rest & Hu & E).
    destruct (unit_shape u Hu) as (b0 & cs & -> & _). discriminate E.
  - destruct (starts_blankb p) eqn:E.
    + apply starts_blankb_spec in E as (u & rest & Hu & ->).
      destruct (unit_shape u Hu) as (b0 & cs & Eu & _).
      destruct (IH rest) as (pre & s & -> & Hpre & Hs).
      { rewrite length_app in Hn. subst u. simpl in Hn. lia. }
      exists (u ++ pre), s. split; [apply app_assoc|].
      split; [apply blank_app; [apply blank_unit; exact Hu | exact Hpre] | exact Hs].
    + exists [], p. split; [reflexivity|]. split; [apply blank_nil|].
      intros H. apply starts_blankb_spec in H. congruence.
Qed.

Lemma strip_right (n : nat) :
  forall s, (length s <= n)%nat -> ~ starts_blank s ->
            exists t post, s = t ++ post /\ blank post
                           /\ ~ starts_blank t /\ ~ ends_blank t.
Proof.
  induction n as [|n IH]; intros s Hn Hs.
  - destruct s; [|simpl in Hn; lia]. exists [], []. split; [reflexivity|].
    split; [apply blank_nil|]. split; [exact Hs|].
    intros (u & init & Hu & E).
    destruct (unit_shape u Hu) as (b0 & cs & -> & _).
    destruct init; discriminate E.
  - destruct (ends_blankb s) eqn:E.
    + apply ends_blankb_spec in E as (u & init & Hu & ->).
      destruct (unit_shape u Hu) as (b0 & cs & Eu & _).
      destruct (IH init) as (t & post & -> & Hpost & Ht1 & Ht2).
      { rewrite length_app in Hn. subst u. simpl in Hn. lia. }
      { intros (u0 & rest & Hu0 & ->). apply Hs.
        exists u0, (rest ++ u). split; [exact Hu0 | symmetry; apply app_assoc]. }
      exists t, (post ++ u). split; [symmetry; apply app_assoc|].
      split; [apply blank_app; [exact Hpost | apply blank_unit; exact Hu]|].
      split; assumption.
    + exists s, []. split; [symmetry; apply app_nil_r|]. split; [apply blank_nil|].
      split; [exact Hs|]. intros H. apply ends_blankb_spec in H. congruence.
Qed.

Lemma stripped_exists (p : list byte) : exists t, stripped p t.
Proof.
  destruct (strip_left (length p) p (le_n _)) as (pre & s & -> & Hpre & Hs).
  destruct (strip_right (length s) s (le_n _) Hs) as (t & post & -> & Hpost & H1 & H2).
  exists t, pre, post. repeat split; assumption.
Qed.

(* ================================================================== *)
(** * The decoders, on their results *)

Ltac bool_to_Z :=
  repeat match goal with
    | H : (_ || _) = false |- _ => apply orb_false_elim in H; destruct H
    | H : (_ || _) = true |- _ => apply orb_prop in H
    | H : (_ <? _) = false |- _ => apply Z.ltb_ge in H
    | H : (_ <? _) = true |- _ => apply Z.ltb_lt in H
    | H : (_ <=? _) = false |- _ => apply Z.leb_gt in H
    | H : (_ <=? _) = true |- _ => apply Z.leb_le in H
    | H : (_ =? _) = false |- _ => apply Z.eqb_neq in H
    | H : (_ =? _) = true |- _ => apply Z.eqb_eq in H
    | H : (_ >=? _) = false |- _ => rewrite Z.geb_leb in H
    | H : (_ >=? _) = true |- _ => rewrite Z.geb_leb in H
    end.

(** Unfolds [DecodeRune p] along the tests it makes, the entry of the
    [first] table and the accept range computed on each path. *)
Ltac decode_paths p :=
  unfold utf8.DecodeRune; cbv zeta;
  destruct (len p <? 1) eqn:?;
  [| unfold utf8.first;
     repeat match goal with
       | |- context [if Zb (at_ p 0) <? ?k then _ else _] =>
           destruct (Zb (at_ p 0) <? k) eqn:?
       | |- context [if Zb (at_ p 0) =? ?k then _ else _] =>
           destruct (Zb (at_ p 0) =? k) eqn:?
       end;
     repeat match goal with
       | |- context [utf8.acceptRanges ?k] =>
           let v := eval vm_compute in (utf8.acceptRanges k) in
           change (utf8.acceptRanges k) with v
       end;
     cbv iota beta;
     repeat match goal with
       | |- context [Z.land ?x 7] =>
           let v := eval vm_compute in (Z.land x 7) in
           change (Z.land x 7) with v
       end;
     repeat match goal with
       | |- context [?x >=? utf8.as_] =>
           let v := eval vm_compute in (x >=? utf8.as_) in
           change (x >=? utf8.as_) with v
       end;
     cbv iota;
     repeat match goal with
       | |- context [if ?c then _ else _] => destruct c eqn:?
       end ].

(** The ways [DecodeRune] has to report a rune wider than one byte. *)
Lemma DecodeRune_shape (p : list byte) :
  let r := fst (utf8.DecodeRune p) in
  let w := snd (utf8.DecodeRune p) in
  let cont i := 0x80 <= Zb (at_ p i) <= 0xBF in
  w <= 1
  \/ (w = 2 /\ 2 <= len p /\ 0xC2 <= Zb (at_ p 0) <= 0xDF /\ cont 1
      /\ r = Z.lor (Z.shiftl (Z.land (Zb (at_ p 0)) utf8.mask2) 6)
                   (Z.land (Zb (at_ p 1)) utf8.maskx))
  \/ (w = 3 /\ 3 <= len p /\ 0xE0 <= Zb (at_ p 0) <= 0xEF
      /\ (Zb (at_ p 0) = 0xE0 -> 0xA0 <= Zb (at_ p 1))
      /\ cont 1 /\ cont 2
      /\ r = Z.lor (Z.lor (Z.shiftl (Z.land (Zb (at_ p 0)) utf8.mask3) 12)
                          (Z.shiftl (Z.land (Zb (at_ p 1)) utf8.maskx) 6))
                   (Z.land (Zb (at_ p 2)) utf8.maskx))
  \/ (w = 4 /\ 4 <= len p /\ 0xF0 <= Zb (at_ p 0) <= 0xF4
      /\ (Zb (at_ p 0) = 0xF0 -> 0x90 <= Zb (at_ p 1))
      /\ cont 1 /\ cont 2 /\ cont 3
      /\ r = Z.lor (Z.lor (Z.lor (Z.shiftl (Z.land (Zb (at_ p 0)) utf8.mask4) 18)
                                 (Z.shiftl (Z.land (Zb (at_ p 1)) utf8.maskx) 12))
                          (Z.shiftl (Z.land (Zb (at_ p 2)) utf8.maskx) 6))
                   (Z.land (Zb (at_ p 3)) utf8.maskx)).
Proof.
  cbv zeta. decode_paths p; cbn [fst snd];
    try (left; lia);
    bool_to_Z; unfold utf8.locb, utf8.hicb in *;
    first
      [ right; left; repeat split; try lia; reflexivity
      | right; right; left; repeat split; try lia; reflexivity
      | right; right; right; repeat split; try lia; reflexivity ].
Qed.

(** A byte that is not ASCII and decodes on its own decodes to
    [RuneError]. *)
Lemma DecodeRune_narrow (p : list byte) :
  utf8.RuneSelf <= Zb (at_ p 0) ->
  snd (utf8.DecodeRune p) <= 1 ->
  fst (utf8.DecodeRune p) = utf8.RuneError.
Proof.
  unfold utf8.RuneSelf. intros H0.
  decode_paths p; cbn [fst snd]; intros Hw; try reflexivity; try lia;
    bool_to_Z; try lia;
    match goal with
    | |- context [Z.shiftr (int32 (Z.shiftl ?x 31)) 31] =>
        let v := eval vm_compute in (Z.shiftr (int32 (Z.shiftl x 31)) 31) in
        change (Z.shiftr (int32 (Z.shiftl x 31)) 31) with v
    end;
    change (Z.lnot (-1)) with 0; rewrite Z.land_0_r; reflexivity.
Qed.

Lemma forallb_range (f : Z -> bool) (lo : Z) (n : nat) :
  forallb f (map (fun i => lo + Z.of_nat i) (seq 0 n)) = true ->
  forall z, lo <= z < lo + Z.of_nat n -> f z = true.
Proof.
  intros H z Hz. rewrite forallb_forall in H. apply H.
  apply in_map_iff. exists (Z.to_nat (z - lo)). split; [lia|].
  apply in_seq. lia.
Qed.

Lemma In_White_Space_utf8 (u : list byte) :
  existsb (bytes.Equal u) White_Space_utf8 = true -> In u White_Space_utf8.
Proof.
  intros H. apply existsb_exists in H as (v & Hv & E).
  apply Equal_eq in E. subst v. exact Hv.
Qed.

(** An ASCII byte that is a space. *)
Lemma space_ascii (b : byte) :
  Zb b < utf8.RuneSelf -> unicode.IsSpace (Zb b) = true -> In [b] White_Space_utf8.
Proof.
  unfold utf8.RuneSelf. intros Hb Hs. rewrite <- (u8_Zb b).
  pose proof (Zb_range b) as Hr.
  apply In_White_Space_utf8.
  assert (H : forall z, 0 <= z < 0 + Z.of_nat 128 ->
                        negb (unicode.IsSpace z)
                        || existsb (bytes.Equal [u8 z]) White_Space_utf8 = true).
  { apply forallb_range. vm_compute. reflexivity. }
  specialize (H (Zb b) ltac:(lia)). rewrite Hs in H. exact H.
Qed.

(** The two-byte and three-byte sequences that decode to a space are
    the encodings listed. *)
Lemma space_two_bytes (z0 z1 : Z) :
  0xC2 <= z0 <= 0xDF -> 0x80 <= z1 <= 0xBF ->
  unicode.IsSpace (Z.lor (Z.shiftl (Z.land z0 utf8.mask2) 6) (Z.land z1 utf8.maskx))
  = true ->
  In [u8 z0; u8 z1] White_Space_utf8.
Proof.
  intros H0 H1 Hs. apply In_White_Space_utf8.
  assert (H : forall a, 0xC2 <= a < 0xC2 + Z.of_nat 30 ->
              forallb (fun b =>
                negb (unicode.IsSpace
                        (Z.lor (Z.shiftl (Z.land a utf8.mask2) 6) (Z.land b utf8.maskx)))
                || existsb (bytes.Equal [u8 a; u8 b]) White_Space_utf8)
                (map (fun i => 0x80 + Z.of_nat i) (seq 0 64)) = true).
  { apply forallb_range. vm_compute. reflexivity. }
  specialize (H z0 ltac:(lia)).
  pose proof (forallb_range _ _ _ H z1 ltac:(lia)) as H'. cbv beta in H'.
  rewrite Hs in H'. exact H'.
Qed.

Lemma space_three_bytes (z0 z1 z2 : Z) :
  0xE0 <= z0 <= 0xEF -> (z0 = 0xE0 -> 0xA0 <= z1) ->
  0x80 <= z1 <= 0xBF -> 0x80 <= z2 <= 0xBF ->
  unicode.IsSpace
    (Z.lor (Z.lor (Z.shiftl (Z.land z0 utf8.mask3) 12)
                  (Z.shiftl (Z.land z1 utf8.maskx) 6))
           (Z.land z2 utf8.maskx)) = true ->
  In [u8 z0; u8 z1; u8 z2] White_Space_utf8.
Proof.
  intros H0 H01 H1 H2 Hs. apply In_White_Space_utf8.
  assert (H : forall a, 0xE0 <= a < 0xE0 + Z.of_nat 16 ->
              forallb (fun b =>
                forallb (fun c =>
                  ((a =? 0xE0) && (b <? 0xA0))
                  || negb (unicode.IsSpace
                          (Z.lor (Z.lor (Z.shiftl (Z.land a utf8.mask3) 12)
                                        (Z.shiftl (Z.land b utf8.maskx) 6))
                                 (Z.land c utf8.maskx)))
                  || existsb (bytes.Equal [u8 a; u8 b; u8 c]) White_Space_utf8)
                  (map (fun i => 0x80 + Z.of_nat i) (seq 0 64)))
                (map (fun i => 0x80 + Z.of_nat i) (seq 0 64)) = true).
  { apply forallb_range. vm_compute. reflexivity. }
  specialize (H z0 ltac:(lia)).
  pose proof (forallb_range _ _ _ H z1 ltac:(lia)) as H'. cbv beta in H'.
  pose proof (forallb_range _ _ _ H' z2 ltac:(lia)) as H''. cbv beta in H''.
  rewrite Hs in H''. cbn [negb] in H''. rewrite orb_false_r in H''.
  apply orb_prop in H'' as [H''|H'']; [|exact H''].
  apply andb_prop in H'' as [E1 E2]. apply Z.eqb_eq in E1. apply Z.ltb_lt in E2.
  specialize (H01 E1). lia.
Qed.

(** No four-byte sequence decodes to a space: its rune is U+10000 at
    least. *)
Lemma space_four_bytes (z0 z1 z2 z3 : Z) :
  0xF0 <= z0 <= 0xF4 -> (z0 = 0xF0 -> 0x90 <= z1) -> 0x80 <= z1 <= 0xBF ->
  0 <= z2 -> 0 <= z3 ->
  unicode.IsSpace
    (Z.lor (Z.lor (Z.lor (Z.shiftl (Z.land z0 utf8.mask4) 18)
                         (Z.shiftl (Z.land z1 utf8.maskx) 12))
                  (Z.shiftl (Z.land z2 utf8.maskx) 6))
           (Z.land z3 utf8.maskx)) = false.
Proof.
  intros H0 H01 H1 H2 H3.
  set (A := Z.shiftl (Z.land z0 utf8.mask4) 18).
  set (B := Z.shiftl (Z.land z1 utf8.maskx) 12).
  set (C := Z.shiftl (Z.land z2 utf8.maskx) 6).
  set (D := Z.land z3 utf8.maskx).
  assert (HA : 0 <= A) by (apply Z.shiftl_nonneg, Z.land_nonneg; left; lia).
  assert (HB : 0 <= B) by (apply Z.shiftl_nonneg, Z.land_nonneg; left; lia).
  assert (HC : 0 <= C) by (apply Z.shiftl_nonneg, Z.land_nonneg; left; lia).
  assert (HD : 0 <= D) by (apply Z.land_nonneg; left; lia).
  assert (HAB : 16 <= Z.log2 (Z.lor A B)).
  { assert (H : forall a, 0xF0 <= a < 0xF0 + Z.of_nat 5 ->
                forallb (fun b =>
                  ((a =? 0xF0) && (b <? 0x90))
                  || (16 <=? Z.log2 (Z.lor (Z.shiftl (Z.land a utf8.mask4) 18)
                                           (Z.shiftl (Z.land b utf8.maskx) 12))))
                  (map (fun i => 0x80 + Z.of_nat i) (seq 0 64)) = true).
    { apply forallb_range. vm_compute. reflexivity. }
    specialize (H z0 ltac:(lia)).
    pose proof (forallb_range _ _ _ H z1 ltac:(lia)) as H'. cbv beta in H'.
    apply orb_prop in H' as [H'|H'].
    - apply andb_prop in H' as [E1 E2]. apply Z.eqb_eq in E1. apply Z.ltb_lt in E2.
      specialize (H01 E1). lia.
    - apply Z.leb_le in H'. exact H'. }
  assert (Hlog : 16 <= Z.log2 (Z.lor (Z.lor (Z.lor A B) C) D)).
  { assert (HAB0 : 0 <= Z.lor A B) by (apply Z.lor_nonneg; split; assumption).
    assert (HABC0 : 0 <= Z.lor (Z.lor A B) C)
      by (apply Z.lor_nonneg; split; assumption).
    rewrite (Z.log2_lor _ D HABC0 HD), (Z.log2_lor _ C HAB0 HC). lia. }
  destruct (unicode.IsSpace _) eqn:Hs; [|reflexivity].
  apply IsSpace_cases in Hs.
  set (r := Z.lor (Z.lor (Z.lor A B) C) D) in *.
  assert (Hr : r <= 0x3000) by (cbn [In] in Hs; lia).
  assert (0 <= r) by (cbn [In] in Hs; lia).
  pose proof (Z.log2_le_mono r 0x3000 Hr) as Hm.
  change (Z.log2 0x3000) with 13 in Hm. lia.
Qed.

Lemma at_0_hd (p : list byte) : at_ p 0 = hd x00 p.
Proof. destruct p; reflexivity. Qed.

Lemma split_at_2 (p : list byte) :
  2 <= len p -> p = [at_ p 0; at_ p 1] ++ slice_from p 2.
Proof.
  destruct p as [|b0 [|b1 rest]]; unfold len; simpl length; try lia. reflexivity.
Qed.

Lemma split_at_3 (p : list byte) :
  3 <= len p -> p = [at_ p 0; at_ p 1; at_ p 2] ++ slice_from p 3.
Proof.
  destruct p as [|b0 [|b1 [|b2 rest]]]; unfold len; simpl length; try lia.
  reflexivity.
Qed.

(** A slice that begins with a byte above ASCII and decodes to a space
    begins with the encoding of a white-space character, of the width
    [DecodeRune] reports. *)
Lemma DecodeRune_space (p : list byte) :
  utf8.RuneSelf <= Zb (at_ p 0) ->
  unicode.IsSpace (fst (utf8.DecodeRune p)) = true ->
  exists u rest,
    In u White_Space_utf8 /\ p = u ++ rest
    /\ len u = snd (utf8.DecodeRune p) /\ 2 <= len u.
Proof.
  intros H0 Hs.
  pose proof (DecodeRune_shape p) as Hsh. cbv zeta in Hsh.
  destruct Hsh as [Hw | [(Hw & Hl & Hb0 & Hb1 & Hr)
                  | [(Hw & Hl & Hb0 & He0 & Hb1 & Hb2 & Hr)
                  | (Hw & Hl & Hb0 & Hf0 & Hb1 & Hb2 & Hb3 & Hr)]]].
  - rewrite (DecodeRune_narrow p H0 Hw) in Hs. discriminate Hs.
  - rewrite Hr in Hs.
    pose proof (space_two_bytes _ _ Hb0 Hb1 Hs) as Hin. rewrite !u8_Zb in Hin.
    exists [at_ p 0; at_ p 1], (slice_from p 2).
    split; [exact Hin|]. split; [apply split_at_2; exact Hl|].
    rewrite Hw. split; [reflexivity | unfold len; simpl; lia].
  - rewrite Hr in Hs.
    pose proof (space_three_bytes _ _ _ Hb0 He0 Hb1 Hb2 Hs) as Hin.
    rewrite !u8_Zb in Hin.
    exists [at_ p 0; at_ p 1; at_ p 2], (slice_from p 3).
    split; [exact Hin|]. split; [apply split_at_3; exact Hl|].
    rewrite Hw. split; [reflexivity | unfold len; simpl; lia].
  - rewrite Hr in Hs.
    rewrite (space_four_bytes (Zb (at_ p 0)) (Zb (at_ p 1)) (Zb (at_ p 2))
               (Zb (at_ p 3)) Hb0 Hf0 Hb1 ltac:(lia) ltac:(lia)) in Hs.
    discriminate Hs.
Qed.

(** A rune wider than one byte is decoded alike when more bytes follow
    the slice. *)
Lemma DecodeRune_extend (a b : list byte) :
  2 <= snd (utf8.DecodeRune a) ->
  utf8.DecodeRune (a ++ b) = utf8.DecodeRune a.
Proof.
  assert (Hat : forall i, 0 <= i < len a -> at_ (a ++ b) i = at_ a i).
  { intros i Hi. unfold at_, len in *. apply app_nth1. lia. }
  assert (Hlen : len a <= len (a ++ b)).
  { rewrite len_app. pose proof (len_nonneg b). lia. }
  pose proof (len_nonneg a) as Ha.
  unfold utf8.DecodeRune. cbv zeta.
  destruct (len a <? 1) eqn:E1; [cbn [snd]; lia|].
  apply Z.ltb_ge in E1.
  assert (E1' : (len (a ++ b) <? 1) = false) by (apply Z.ltb_ge; lia).
  rewrite E1', (Hat 0) by lia.
  unfold utf8.first.
  repeat match goal with
    | |- context [if Zb (at_ a 0) <? ?k then _ else _] =>
        destruct (Zb (at_ a 0) <? k) eqn:?
    | |- context [if Zb (at_ a 0) =? ?k then _ else _] =>
        destruct (Zb (at_ a 0) =? k) eqn:?
    end;
    repeat match goal with
      | |- context [utf8.acceptRanges ?k] =>
          let v := eval vm_compute in (utf8.acceptRanges k) in
          change (utf8.acceptRanges k) with v
      end;
    cbv iota beta;
    repeat match goal with
      | |- context [Z.land ?x 7] =>
          let v := eval vm_compute in (Z.land x 7) in
          change (Z.land x 7) with v
      end;
    repeat match goal with
      | |- context [?x >=? utf8.as_] =>
          let v := eval vm_compute in (x >=? utf8.as_) in
          change (x >=? utf8.as_) with v
      end;
    cbv iota;
    try (cbn [snd]; lia);
    match goal with
    | |- context [if len a <? ?sz then _ else _] =>
        destruct (len a <? sz) eqn:E2; [cbn [snd]; lia|];
        apply Z.ltb_ge in E2;
        let E := fresh in
        assert (E : (len (a ++ b) <? sz) = false) by (apply Z.ltb_ge; lia);
        rewrite E
    end;
    rewrite ?(Hat 1), ?(Hat 2), ?(Hat 3) by lia;
    repeat match goal with
      | |- context [if ?c then _ else _] => destruct c eqn:?
      end;
    try (cbn [snd]; lia); intros _; reflexivity.
Qed.

(** A byte above ASCII followed by no continuation byte decodes on its
    own. *)
Lemma DecodeRune_alone (b : byte) (rest : list byte) :
  ~ (0x80 <= Zb (hd x00 rest) <= 0xBF) \/ rest = [] ->
  snd (utf8.DecodeRune (b :: rest)) = 1.
Proof.
  intros H.
  pose proof (DecodeRune_size (b :: rest) ltac:(discriminate)) as Hsz.
  pose proof (DecodeRune_shape (b :: rest)) as Hsh. cbv zeta in Hsh.
  assert (Hnot : ~ (0x80 <= Zb (at_ (b :: rest) 1) <= 0xBF /\ 2 <= len (b :: rest))).
  { intros [Hc Hl]. destruct H as [H | ->].
    - apply H. destruct rest; exact Hc.
    - unfold len in Hl. simpl in Hl. lia. }
  destruct Hsh as [Hw | [(Hw & Hl & _ & Hb1 & _)
                  | [(Hw & Hl & _ & _ & Hb1 & _)
                  | (Hw & Hl & _ & _ & Hb1 & _)]]];
    [lia | exfalso; apply Hnot; split; [exact Hb1 | lia] ..].
Qed.

Lemma at_end_last (q : list byte) : q <> [] -> at_ q (len q - 1) = last q x00.
Proof.
  intros Hq. pose proof (at_last q [] Hq) as H. rewrite app_nil_r in H. exact H.
Qed.

Lemma slice_from_last (q : list byte) :
  q <> [] -> slice_from q (len q - 1) = [last q x00].
Proof.
  intros Hq. destruct (exists_last Hq) as (q' & b & ->).
  rewrite last_last, len_app. change (len [b]) with 1.
  replace (len q' + 1 - 1) with (len q') by lia. apply slice_from_app.
Qed.

Lemma slice_to_slice_from (q : list byte) (s : Z) :
  0 <= s <= len q -> slice_to (slice_from q s) (len q - s) = slice_from q s.
Proof.
  intros Hs. unfold slice_to, slice_from, len in *.
  apply firstn_all2. rewrite length_skipn. lia.
Qed.

Lemma slice_to_from (q : list byte) (s : Z) :
  0 <= s -> q = slice_to q s ++ slice_from q s.
Proof.
  intros _. unfold slice_to, slice_from. symmetry. apply firstn_skipn.
Qed.

(** What [DecodeLastRune] reports for a slice that ends above ASCII:
    [RuneError] with width one, or the rune [DecodeRune] finds in the
    last [size] bytes, which it fills. *)
Lemma DecodeLastRune_shape (q : list byte) :
  q <> [] ->
  utf8.RuneSelf <= Zb (last q x00) ->
  let r := fst (utf8.DecodeLastRune q) in
  let size := snd (utf8.DecodeLastRune q) in
  (size = 1 /\ r = utf8.RuneError)
  \/ (2 <= size <= len q
      /\ utf8.DecodeRune (slice_from q (len q - size)) = (r, size)).
Proof.
  intros Hq Hlast. cbv zeta. unfold utf8.DecodeLastRune. cbv zeta.
  assert (Hlen : 1 <= len q).
  { destruct q; [congruence|]. unfold len. simpl length. lia. }
  destruct (len q =? 0) eqn:E0; [apply Z.eqb_eq in E0; lia|].
  rewrite (at_end_last q Hq).
  assert (E1 : (Zb (last q x00) <? utf8.RuneSelf) = false) by (apply Z.ltb_ge; lia).
  rewrite E1.
  match goal with
  | |- context [utf8.scanBack ?f ?p ?s ?l] =>
      pose proof (scanBack_le f p s l) as Hs;
      set (back := utf8.scanBack f p s l) in *
  end.
  set (start := Z.max 0 back).
  assert (Hstart : 0 <= start <= len q - 1) by (unfold start; lia).
  rewrite (slice_to_slice_from q start) by lia.
  assert (Hne : slice_from q start <> []).
  { intros E. apply (f_equal (@length byte)) in E. unfold slice_from in E.
    rewrite length_skipn in E. unfold len in *. simpl in E. lia. }
  pose proof (DecodeRune_size _ Hne) as Hsz.
  destruct (utf8.DecodeRune (slice_from q start)) as [r size] eqn:ED.
  cbn [snd] in Hsz.
  destruct (negb (start + size =? len q)) eqn:E; cbn [fst snd];
    [left; split; reflexivity|].
  apply negb_false_iff, Z.eqb_eq in E.
  destruct (Z.eq_dec size 1) as [->|Hn1].
  - left. split; [reflexivity|].
    replace start with (len q - 1) in ED by lia.
    rewrite (slice_from_last q Hq) in ED.
    pose proof (DecodeRune_narrow [last q x00] Hlast) as Hn.
    rewrite ED in Hn. cbn [fst snd] in Hn. apply Hn. lia.
  - right. split; [lia|].
    replace (len q - size) with start by lia. exact ED.
Qed.

(** A slice whose last rune is a space ends with the encoding of a
    white-space character. *)
Lemma rune_at_end_space (q : list byte) :
  q <> [] ->
  unicode.IsSpace (fst (rune_at_end q)) = true -> ends_blank q.
Proof.
  intros Hq Hs. unfold rune_at_end in Hs.
  destruct (Zb (last q x00) >=? utf8.RuneSelf) eqn:E.
  - rewrite Z.geb_leb in E. apply Z.leb_le in E.
    destruct (DecodeLastRune_shape q Hq E) as [[_ Hr] | [Hsz HD]].
    + rewrite Hr in Hs. discriminate Hs.
    + set (size := snd (utf8.DecodeLastRune q)) in *.
      set (r := fst (utf8.DecodeLastRune q)) in *.
      assert (Hne : 0 <= len q - size < len q) by lia.
      assert (H0 : utf8.RuneSelf <= Zb (at_ (slice_from q (len q - size)) 0)).
      { pose proof (DecodeRune_shape (slice_from q (len q - size))) as Hsh.
        cbv zeta in Hsh. rewrite HD in Hsh. cbn [fst snd] in Hsh.
        unfold utf8.RuneSelf.
        destruct Hsh as [Hw | [(_ & _ & Hb & _) | [(_ & _ & Hb & _)
                        | (_ & _ & Hb & _)]]]; lia. }
      destruct (DecodeRune_space _ H0) as (u & rest & Hu & Hsplit & Hlu & _).
      { rewrite HD. exact Hs. }
      rewrite HD in Hlu. cbn [snd] in Hlu.
      assert (Hrest : rest = []).
      { apply (f_equal (@length byte)) in Hsplit. unfold slice_from in Hsplit.
        rewrite length_skipn, length_app in Hsplit. unfold len in *.
        destruct rest; [reflexivity|]. simpl length in Hsplit. lia. }
      subst rest. rewrite app_nil_r in Hsplit.
      exists u, (slice_to q (len q - size)). split; [exact Hu|].
      rewrite <- Hsplit. apply slice_to_from. lia.
  - rewrite Z.geb_leb in E. apply Z.leb_gt in E. cbn [fst] in Hs.
    destruct (exists_last Hq) as (q' & b & ->). rewrite last_last in *.
    exists [b], q'. split; [|reflexivity]. apply space_ascii; assumption.
Qed.

(** A slice whose first rune is a space begins with the encoding of a
    white-space character, all within [t] when white space follows. *)
Lemma rune_at_head_space (t post : list byte) :
  t <> [] -> blank post ->
  unicode.IsSpace (fst (rune_at_head (t ++ post))) = true -> starts_blank t.
Proof.
  intros Ht Hpost Hs. unfold rune_at_head in Hs.
  destruct t as [|b0 t']; [congruence|]. cbn [app hd] in Hs.
  destruct (Zb b0 >=? utf8.RuneSelf) eqn:E.
  - rewrite Z.geb_leb in E. apply Z.leb_le in E.
    destruct (DecodeRune_space (b0 :: t' ++ post) E Hs)
      as (u & rest & Hu & Hsplit & _ & _).
    destruct (unit_shape u Hu) as (c0 & cs & -> & Hcs & _ & _ & Hcont).
    cbn [app] in Hsplit. injection Hsplit as <- Hsplit.
    (* the continuation bytes of the character lie within [t'] *)
    assert (Hin : exists rest', t' = cs ++ rest').
    { clear Hu Hs Ht. revert t' Hsplit.
      induction Hcont as [|c cs Hc _ IH]; intros t' Hsplit.
      - exists t'. reflexivity.
      - destruct t' as [|b1 t''].
        + cbn [app] in Hsplit. destruct post as [|p0 post']; [discriminate Hsplit|].
          injection Hsplit as -> _. exfalso.
          apply (blank_head c post' Hpost). exact Hc.
        + cbn [app] in Hsplit. injection Hsplit as -> Hsplit.
          destruct (IH ltac:(simpl in Hcs; lia) t'' Hsplit) as [rest' ->].
          exists rest'. reflexivity. }
    destruct Hin as [rest' ->].
    exists (b0 :: cs), rest'. split; [exact Hu | reflexivity].
  - rewrite Z.geb_leb in E. apply Z.leb_gt in E. cbn [fst] in Hs.
    exists [b0], t'. split; [|reflexivity]. apply space_ascii; assumption.
Qed.

(* ================================================================== *)
(** * [TrimFunc] strips the white space at the two ends *)

(** [indexFunc] steps over leading white space and stops at the first
    rune that is not a space. *)
Lemma indexFunc_stops_at (ws : list Z) :
  Forall (fun r => unicode.IsSpace r = true) ws ->
  forall fuel pre s,
    (length ws < fuel)%nat ->
    s <> [] ->
    unicode.IsSpace (fst (rune_at_head s)) = false ->
    bytes.indexFunc_loop fuel (pre ++ flat_map utf8.EncodeRune ws ++ s)
                         unicode.IsSpace false (len pre)
    = len pre + len (flat_map utf8.EncodeRune ws).
Proof.
  induction 1 as [|r ws Hr Hws IH]; intros fuel pre s Hf Hs Hns.
  - destruct fuel; [simpl in Hf; lia|]. cbn [bytes.indexFunc_loop flat_map app].
    assert (Hlt : (len pre <? len (pre ++ s)) = true).
    { apply Z.ltb_lt. rewrite len_app. destruct s; [congruence|].
      unfold len at 3. simpl length. lia. }
    rewrite Hlt, at_app_hd, slice_from_app.
    fold (rune_at_head s). destruct (rune_at_head s) as [r wid].
    cbn [fst] in Hns. rewrite Hns. cbn [Bool.eqb].
    change (len (@nil byte)) with 0. lia.
  - destruct fuel; [simpl in Hf; lia|]. cbn [bytes.indexFunc_loop flat_map].
    rewrite <- app_assoc.
    destruct (space_step r (flat_map utf8.EncodeRune ws ++ s) Hr) as [Hstep Hpos].
    cbv zeta in Hstep.
    assert (Hlt : (len pre <? len (pre ++ utf8.EncodeRune r
                                       ++ flat_map utf8.EncodeRune ws ++ s)) = true).
    { apply Z.ltb_lt. rewrite !len_app.
      pose proof (len_nonneg (flat_map utf8.EncodeRune ws)).
      pose proof (len_nonneg s). lia. }
    rewrite Hlt, at_app_hd, slice_from_app, Hstep, Hr. cbn [Bool.eqb].
    rewrite <- len_app, app_assoc.
    rewrite IH by (try assumption; simpl in Hf; lia).
    rewrite !len_app. lia.
Qed.

(** [lastIndexFunc] steps back over trailing white space and stops at
    the last rune that is not a space. *)
Lemma lastIndexFunc_stops_at (t : list byte) (ws : list Z) :
  t <> [] ->
  unicode.IsSpace (fst (rune_at_end t)) = false ->
  Forall (fun r => unicode.IsSpace r = true) ws ->
  forall fuel suffix,
    (length ws < fuel)%nat ->
    bytes.lastIndexFunc_loop fuel (t ++ flat_map utf8.EncodeRune ws ++ suffix)
                             unicode.IsSpace false
                             (len (t ++ flat_map utf8.EncodeRune ws))
    = len t - snd (rune_at_end t).
Proof.
  intros Ht Hns. induction ws as [|r ws IH] using rev_ind;
    intros Hws fuel suffix Hf.
  - destruct fuel; [simpl in Hf; lia|].
    cbn [bytes.lastIndexFunc_loop flat_map app]. rewrite app_nil_r.
    assert (Hpos : (len t >? 0) = true).
    { rewrite Z.gtb_ltb. apply Z.ltb_lt. destruct t; [congruence|].
      unfold len. simpl length. lia. }
    rewrite Hpos, at_last, slice_to_app by exact Ht.
    fold (rune_at_end t). destruct (rune_at_end t) as [r size].
    cbn [fst snd] in *. rewrite Hns. reflexivity.
  - apply Forall_app in Hws as [Hws Hr]. inversion Hr as [|? ? Hr' _]; subst.
    destruct fuel; [simpl in Hf; lia|].
    rewrite length_app in Hf. simpl in Hf.
    rewrite flat_map_app. cbn [flat_map]. rewrite app_nil_r.
    cbn [bytes.lastIndexFunc_loop].
    set (pre := t ++ flat_map utf8.EncodeRune ws).
    assert (Hq : t ++ flat_map utf8.EncodeRune ws ++ utf8.EncodeRune r
                 = pre ++ utf8.EncodeRune r) by (unfold pre; apply app_assoc).
    rewrite Hq.
    assert (Hs : t ++ (flat_map utf8.EncodeRune ws ++ utf8.EncodeRune r) ++ suffix
                 = (pre ++ utf8.EncodeRune r) ++ suffix)
      by (unfold pre; rewrite <- !app_assoc; reflexivity).
    rewrite Hs.
    destruct (space_step r [] Hr') as [_ Hlen].
    assert (Hpos : (len (pre ++ utf8.EncodeRune r) >? 0) = true).
    { rewrite Z.gtb_ltb. apply Z.ltb_lt. rewrite len_app.
      pose proof (len_nonneg pre). lia. }
    rewrite Hpos, slice_to_app.
    assert (Hne : pre ++ utf8.EncodeRune r <> []).
    { intros E. apply (f_equal (@length byte)) in E. rewrite length_app in E.
      unfold len in Hlen. simpl in E. lia. }
    rewrite (at_last _ suffix Hne).
    pose proof (space_step_back r pre Hr') as Hback. cbv zeta in Hback.
    rewrite Hback, Hr'. cbn [Bool.eqb].
    rewrite len_app.
    replace (len pre + len (utf8.EncodeRune r) - len (utf8.EncodeRune r))
      with (len pre) by lia.
    unfold pre. rewrite <- !app_assoc.
    apply IH; [exact Hws | lia].
Qed.

Lemma slice_from_app_l (t post : list byte) (j : Z) :
  0 <= j <= len t -> slice_from (t ++ post) j = slice_from t j ++ post.
Proof.
  intros Hj. unfold slice_from, len in *. rewrite skipn_app.
  replace (Z.to_nat j - length t)%nat with 0%nat by lia. reflexivity.
Qed.

Lemma at_app_l (t post : list byte) (j : Z) :
  0 <= j < len t -> at_ (t ++ post) j = at_ t j.
Proof. intros Hj. unfold at_, len in *. apply app_nth1. lia. Qed.

Lemma at_slice_from_0 (t : list byte) (j : Z) :
  0 <= j -> at_ (slice_from t j) 0 = at_ t j.
Proof.
  intros Hj. unfold at_, slice_from. rewrite nth_skipn. f_equal. lia.
Qed.

(** On the right, [TrimRightFunc] cuts just after the last rune that is
    not a space. *)
Lemma TrimRightFunc_between (t post : list byte) :
  t <> [] -> blank post -> ~ ends_blank t ->
  bytes.TrimRightFunc (t ++ post) unicode.IsSpace = t.
Proof.
  intros Ht Hpost Hend.
  pose proof Hpost as Hpost'. apply blank_runes in Hpost' as (ws & Hws & ->).
  assert (Hns : unicode.IsSpace (fst (rune_at_end t)) = false).
  { destruct (unicode.IsSpace (fst (rune_at_end t))) eqn:E; [|reflexivity].
    exfalso. apply Hend. apply rune_at_end_space; assumption. }
  assert (Hlen : 1 <= len t).
  { destruct t; [congruence|]. unfold len. simpl length. lia. }
  unfold bytes.TrimRightFunc, bytes.lastIndexFunc. cbv zeta.
  pose proof (lastIndexFunc_stops_at t ws Ht Hns Hws
                (length (t ++ flat_map utf8.EncodeRune ws)) []) as HL.
  rewrite !app_nil_r in HL. rewrite HL.
  2:{ rewrite length_app. pose proof (spaces_length ws Hws).
      unfold len in Hlen. lia. }
  clear HL.
  set (post := flat_map utf8.EncodeRune ws) in *.
  assert (Hcut :
    (if (len t - snd (rune_at_end t) >=? 0)
        && (Zb (at_ (t ++ post) (len t - snd (rune_at_end t))) >=? utf8.RuneSelf)
     then let '(_, wid) :=
            utf8.DecodeRune (slice_from (t ++ post) (len t - snd (rune_at_end t))) in
          len t - snd (rune_at_end t) + wid
     else len t - snd (rune_at_end t) + 1) = len t).
  { unfold rune_at_end.
    destruct (Zb (last t x00) >=? utf8.RuneSelf) eqn:E.
    - rewrite Z.geb_leb in E. apply Z.leb_le in E.
      destruct (DecodeLastRune_shape t Ht E) as [[Hsz _] | [Hsz HD]].
      + rewrite Hsz.
        assert (E1 : (len t - 1 >=? 0) = true)
          by (rewrite Z.geb_leb; apply Z.leb_le; lia).
        rewrite E1, (at_last t post Ht).
        assert (E2 : (Zb (last t x00) >=? utf8.RuneSelf) = true)
          by (rewrite Z.geb_leb; apply Z.leb_le; exact E).
        rewrite E2. cbn [andb].
        rewrite slice_from_app_l by lia. rewrite (slice_from_last t Ht).
        cbn [app].
        pose proof (DecodeRune_alone (last t x00) post) as Hal.
        destruct (utf8.DecodeRune (last t x00 :: post)) as [r wid].
        cbn [snd] in Hal. rewrite Hal; [lia|].
        destruct post as [|p0 post'] eqn:Ep; [right; reflexivity|].
        left. cbn [hd]. rewrite <- Ep in Hpost. subst post.
        rewrite Ep in Hpost. apply (blank_head p0 post' Hpost).
      + set (size := snd (utf8.DecodeLastRune t)) in *.
        set (r := fst (utf8.DecodeLastRune t)) in *.
        assert (E1 : (len t - size >=? 0) = true)
          by (rewrite Z.geb_leb; apply Z.leb_le; lia).
        rewrite E1, at_app_l by lia.
        assert (Hlead : utf8.RuneSelf <= Zb (at_ t (len t - size))).
        { rewrite <- at_slice_from_0 by lia.
          pose proof (DecodeRune_shape (slice_from t (len t - size))) as Hsh.
          cbv zeta in Hsh. rewrite HD in Hsh. cbn [fst snd] in Hsh.
          unfold utf8.RuneSelf.
          destruct Hsh as [Hw | [(_ & _ & Hb & _) | [(_ & _ & Hb & _)
                          | (_ & _ & Hb & _)]]]; lia. }
        assert (E2 : (Zb (at_ t (len t - size)) >=? utf8.RuneSelf) = true)
          by (rewrite Z.geb_leb; apply Z.leb_le; exact Hlead).
        rewrite E2. cbn [andb].
        rewrite slice_from_app_l by lia.
        rewrite DecodeRune_extend by (rewrite HD; cbn [snd]; lia).
        rewrite HD. lia.
    - cbn [snd].
      assert (E1 : (len t - 1 >=? 0) = true)
        by (rewrite Z.geb_leb; apply Z.leb_le; lia).
      rewrite E1, (at_last t post Ht), E. cbn [andb]. lia. }
  rewrite Hcut. apply slice_to_app.
Qed.

(** [TrimFunc] returns what lies between the white space at the head
    and the white space at the end. *)
Lemma TrimFunc_between (pre t post : list byte) :
  blank pre -> blank post -> ~ starts_blank t -> ~ ends_blank t ->
  bytes.TrimFunc (pre ++ t ++ post) unicode.IsSpace = t.
Proof.
  intros Hpre Hpost Hs He.
  destruct t as [|b t'] eqn:Et.
  - cbn [app]. pose proof (blank_app pre post Hpre Hpost) as Hb.
    apply blank_runes in Hb as (ws & Hws & ->). apply TrimFunc_spaces. exact Hws.
  - rewrite <- Et in *. assert (Ht : t <> []) by (rewrite Et; discriminate).
    clear Et b t'.
    pose proof Hpre as Hpre'. apply blank_runes in Hpre' as (ws1 & H1 & ->).
    assert (Hns : unicode.IsSpace (fst (rune_at_head (t ++ post))) = false).
    { destruct (unicode.IsSpace (fst (rune_at_head (t ++ post)))) eqn:E;
        [|reflexivity].
      exfalso. apply Hs. apply (rune_at_head_space t post); assumption. }
    unfold bytes.TrimFunc.
    assert (Hleft : bytes.TrimLeftFunc
                      (flat_map utf8.EncodeRune ws1 ++ t ++ post) unicode.IsSpace
                    = t ++ post).
    { unfold bytes.TrimLeftFunc, bytes.indexFunc. cbv zeta.
      pose proof (indexFunc_stops_at ws1 H1
                    (length (flat_map utf8.EncodeRune ws1 ++ t ++ post))
                    [] (t ++ post)) as HI.
      cbn [app] in HI. change (len (@nil byte)) with 0 in HI.
      rewrite HI; [| | | exact Hns].
      - rewrite Z.add_0_l.
        pose proof (len_nonneg (flat_map utf8.EncodeRune ws1)).
        destruct (len (flat_map utf8.EncodeRune ws1) =? -1) eqn:E;
          [apply Z.eqb_eq in E; lia|].
        apply slice_from_app.
      - rewrite !length_app. pose proof (spaces_length ws1 H1).
        destruct t; [congruence|]. simpl length. lia.
      - destruct t; [congruence | discriminate]. }
    rewrite Hleft. apply TrimRightFunc_between; assumption.
Qed.

(** The stripped form of a line is what [TrimFunc] returns, and no
    other. *)
Lemma stripped_TrimFunc (p t : list byte) :
  stripped p t <-> t = bytes.TrimFunc p unicode.IsSpace.
Proof.
  split.
  - intros (pre & post & -> & Hpre & Hpost & Hs & He).
    symmetry. apply TrimFunc_between; assumption.
  - intros ->. destruct (stripped_exists p) as [t Ht].
    pose proof Ht as (pre & post & -> & Hpre & Hpost & Hs & He).
    rewrite (TrimFunc_between pre t post Hpre Hpost Hs He). exact Ht.
Qed.

(* ================================================================== *)
(** * The round trip of a line *)

Section ReduceRoundTrip.
Context {codec : GzipCodec}.

(** C1.  A well-formed line whose compressed form fits the chunk limit,
    written by a usable client over a transport that takes every chunk:
    the payloads of the datagrams that went out, put in sequence-index
    order, concatenated and gunzipped, are the line with its leading and
    trailing Unicode white space stripped.  The stripped line [t] is
    told from the line alone: [p] is white space, then [t], then white
    space, and [t] neither begins nor ends with a white-space character;
    there is one such [t].  The newline test is made on the line as
    given, and the stripped line is what was compressed. *)
Theorem Reduce_Write_round_trip (gl : Reduce.Client) (net : Net)
        (p : list byte) (c : PacketConn) :
  codec_round_trip codec ->
  Reduce.conn gl = Some c ->
  gzip.valid_level (Reduce.compressionLevel gl) ->
  p <> [] ->
  newline_terminated p ->
  chunkCount (len (compressed (Reduce.compressionLevel gl) p)) <= maxChunkCount ->
  accepts net (chunkCount (len (compressed (Reduce.compressionLevel gl) p))) ->
  let sent := delivered (sent_by net (net_after (Reduce.Write gl net p))) in
  exists t,
    stripped p t
    /\ (forall t', stripped p t' -> t' = t)
    /\ reassemble sent = gzip_stream (Reduce.compressionLevel gl) t
    /\ gunzip (reassemble sent) = Some t.
Proof.
  intros RT Hc Hlvl _ Hnl Hfit Hacc sent.
  exists (bytes.TrimFunc p unicode.IsSpace).
  split; [apply stripped_TrimFunc; reflexivity|].
  split; [intros t' Ht'; apply stripped_TrimFunc; exact Ht'|].
  apply HasSuffix_newline in Hnl.
  unfold sent. clear sent.
  unfold returned, net_after.
  rewrite (Reduce_Write_delivers gl net p c Hc Hlvl Hnl Hfit Hacc).
  cbn [snd]. rewrite sent_by_extend, delivered_sent_ok.
  set (stream := compressed (Reduce.compressionLevel gl) p) in *.
  pose proof (chunkCount_bounds (len stream) (len_nonneg _)) as (Hc0 & Hle & _).
  rewrite reassemble_frames.
  - split; [reflexivity|]. apply RT. exact Hlvl.
  - apply Reduce_messageID_length.
  - rewrite Z2Nat.id by lia. unfold maxChunkCount in Hfit. lia.
  - rewrite Z2Nat.id by lia. exact Hle.
Qed.

End ReduceRoundTrip.

(** A line of 3000 letters goes out in three chunks and comes back
    without its newline. *)
Lemma Reduce_Write_round_trip_witness :
  chunkCount (len (compressed (codec := stored) gzip.NoCompression
                              (line_of 3000))) = 3
  /\ gunzip (reassemble (delivered
               (sent_by quiet (net_after (Reduce.Write (codec := stored) demo_reduce
                                                 quiet (line_of 3000))))))
     = Some (repeat "a"%byte 3000).
Proof.
  split; [vm_compute; reflexivity|].
  destruct (Reduce_Write_round_trip (codec := stored) demo_reduce quiet
                                    (line_of 3000) 1%nat)
    as (t & _ & Hone & _ & Hback).
  - exact stored_round_trip.
  - reflexivity.
  - exact demo_level_valid.
  - apply line_of_nonempty.
  - apply line_of_terminated.
  - vm_compute. discriminate.
  - apply quiet_accepts.
  - rewrite Hback. f_equal. symmetry. apply Hone.
    exists [], newline. split; [reflexivity|].
    split; [exists []; split; [constructor | reflexivity]|].
    split; [exists [newline]; split;
            [constructor; [vm_compute; tauto | constructor] | reflexivity]|].
    split; intros H.
    + apply starts_blankb_spec in H. vm_compute in H. discriminate H.
    + apply ends_blankb_spec in H. vm_compute in H. discriminate H.
Defined.

(* ================================================================== *)
(** * [bufio.Writer] *)

Lemma Sink_Write_answer (s : Sink) (p : list byte) :
  0 <= fst (snd (Sink_Write s p)) <= len p
  /\ (snd (snd (Sink_Write s p)) = None -> fst (snd (Sink_Write s p)) = len p).
Proof.
  unfold Sink_Write. cbn [snd]. pose proof (len_nonneg p).
  destruct (answer s (length (written s))) as [[n e]|]; cbn [fst snd].
  - split; [lia | discriminate].
  - split; [lia | reflexivity].
Qed.

Lemma slice_from_all {A} (p : list A) : slice_from p (len p) = [].
Proof. unfold slice_from, len. rewrite Nat2Z.id. apply skipn_all. Qed.

(** The test of the loop of [Write]. *)
Lemma Write_loop_stop (k : nat) (b : bufio.Writer) (w : Sink) (p : list byte) (nn : Z) :
  (len p >? bufio.Available b) && is_nil (bufio.err b) = false ->
  bufio.Write_loop k b w p nn = (b, w, p, nn).
Proof.
  intros H. destruct k; [reflexivity|]. cbn [bufio.Write_loop]. rewrite H. reflexivity.
Qed.

(** A large write on an empty buffer: one call of the underlying
    writer, after which the loop is left. *)
Lemma Write_loop_direct (b : bufio.Writer) (w : Sink) (p : list byte) (nn : Z) :
  (len p >? bufio.Available b) && is_nil (bufio.err b) = true ->
  bufio.Buffered b = 0 ->
  let w1 := fst (Sink_Write w p) in
  let n := fst (snd (Sink_Write w p)) in
  let e := snd (snd (Sink_Write w p)) in
  let b1 := {| bufio.err := e; bufio.buf := bufio.buf b |} in
  (len (slice_from p n) >? bufio.Available b1) && is_nil (bufio.err b1) = false
  /\ forall k, bufio.Write_loop (S k) b w p nn = (b1, w1, slice_from p n, nn + n).
Proof.
  intros C B0 w1 n e b1.
  assert (Hexit : (len (slice_from p n) >? bufio.Available b1)
                  && is_nil (bufio.err b1) = false).
  { destruct (Sink_Write_answer w p) as [_ Hn]. fold n e in Hn.
    unfold b1. cbn [bufio.err]. destruct e as [e'|]; [apply andb_false_r|].
    rewrite (Hn eq_refl), slice_from_all.
    unfold bufio.Available, bufio.Buffered in *. cbn [bufio.buf]. rewrite B0.
    reflexivity. }
  split; [exact Hexit|].
  intros k. cbn [bufio.Write_loop]. rewrite C.
  replace (bufio.Buffered b =? 0) with true by (symmetry; apply Z.eqb_eq; exact B0).
  unfold w1, n, e, b1 in *.
  destruct (Sink_Write w p) as [w2 [n2 e2]]. cbn [fst snd] in *.
  apply Write_loop_stop. exact Hexit.
Qed.

(** A write that does not fit a buffer in use: the buffer is filled and
    flushed, and is empty, or in error, for the next turn. *)
Lemma Write_loop_fill (b : bufio.Writer) (w : Sink) (p : list byte) (nn : Z) :
  (len p >? bufio.Available b) && is_nil (bufio.err b) = true ->
  bufio.Buffered b <> 0 ->
  len (bufio.buf b) <= bufio.defaultBufSize ->
  exists b1 w1 n,
    (is_nil (bufio.err b1) = false \/ bufio.Buffered b1 = 0)
    /\ forall k, bufio.Write_loop (S k) b w p nn
                 = bufio.Write_loop k b1 w1 (slice_from p n) (nn + n).
Proof.
  intros C B0 Hb.
  apply andb_prop in C as [C E]. apply Z.gtb_lt in C.
  destruct (bufio.err b) eqn:Eb; [discriminate|]. clear E.
  unfold bufio.Buffered, bufio.Available in *.
  pose proof (len_nonneg (bufio.buf b)) as Hb0.
  set (n0 := Z.min (len p) (bufio.defaultBufSize - len (bufio.buf b))).
  assert (Hfull : len (bufio.buf b ++ slice_to p n0) = bufio.defaultBufSize).
  { rewrite len_app. unfold len at 2. unfold slice_to. rewrite length_firstn.
    unfold len in *. lia. }
  set (filled := {| bufio.err := bufio.err b;
                    bufio.buf := bufio.buf b ++ slice_to p n0 |}).
  exists (fst (fst (bufio.Flush filled w))), (snd (fst (bufio.Flush filled w))), n0.
  split.
  - unfold bufio.Flush, filled. cbn [bufio.err bufio.buf]. rewrite Eb, Hfull.
    change (bufio.defaultBufSize =? 0) with false. cbv iota.
    destruct (Sink_Write_answer w (bufio.buf b ++ slice_to p n0)) as [_ Hn].
    destruct (Sink_Write w (bufio.buf b ++ slice_to p n0)) as [w2 [n e]].
    cbn [fst snd] in *.
    destruct e as [e|].
    + rewrite andb_false_r. left. reflexivity.
    + rewrite (Hn eq_refl), Hfull, Z.ltb_irrefl. cbn. right. reflexivity.
  - intros k. cbn [bufio.Write_loop]. unfold bufio.Available, bufio.Buffered.
    assert (C' : (len p >? bufio.defaultBufSize - len (bufio.buf b)) = true)
      by (apply Z.gtb_lt; exact C).
    rewrite C', Eb. cbn [is_nil andb].
    replace (len (bufio.buf b) =? 0) with false by (symmetry; apply Z.eqb_neq; exact B0).
    fold n0. rewrite <- Eb. fold filled.
    destruct (bufio.Flush filled w) as [[b1 w1] e1]. reflexivity.
Qed.

(** Two turns are enough: the loop of [Write] is left in the state
    [Write_loop 2] returns, and further turns change nothing. *)
Lemma Write_loop_exits (b : bufio.Writer) (w : Sink) (p : list byte) (nn : Z) :
  len (bufio.buf b) <= bufio.defaultBufSize ->
  exists b' w' p' nn',
    (forall k, bufio.Write_loop (2 + k) b w p nn = (b', w', p', nn'))
    /\ (len p' >? bufio.Available b') && is_nil (bufio.err b') = false.
Proof.
  intros Hb.
  destruct ((len p >? bufio.Available b) && is_nil (bufio.err b)) eqn:C1.
  2:{ exists b, w, p, nn. split; [|exact C1].
      intros k. apply Write_loop_stop. exact C1. }
  destruct (Z.eq_dec (bufio.Buffered b) 0) as [B0|B0].
  - destruct (Write_loop_direct b w p nn C1 B0) as [Hexit Hk].
    do 4 eexists. split; [|exact Hexit]. intros k. apply (Hk (S k)).
  - destruct (Write_loop_fill b w p nn C1 B0 Hb) as (b1 & w1 & n & Hnext & Hk).
    destruct ((len (slice_from p n) >? bufio.Available b1) && is_nil (bufio.err b1))
      eqn:C2.
    + destruct Hnext as [He|B1];
        [apply andb_prop in C2 as [_ C2]; congruence|].
      destruct (Write_loop_direct b1 w1 (slice_from p n) (nn + n) C2 B1)
        as [Hexit Hk2].
      do 4 eexists. split; [|exact Hexit].
      intros k. cbn [Nat.add]. rewrite Hk. apply Hk2.
    + exists b1, w1, (slice_from p n), (nn + n). split; [|exact C2].
      intros k. cbn [Nat.add]. rewrite Hk. apply Write_loop_stop. exact C2.
Qed.

(* ================================================================== *)
(** * One turn of a goroutine *)

Lemma slice_to_all {A} (p : list A) : slice_to p (len p) = p.
Proof. unfold slice_to, len. rewrite Nat2Z.id. apply firstn_all. Qed.

(** What a goroutine does with a message, from a buffer just made or
    reset: nothing for an empty one; one call of the underlying writer
    with the whole message otherwise, whose answer is passed on only for
    a message larger than the buffer. *)
Lemma serve_cases (w : Sink) (p : list byte) :
  serve w p =
  if len p =? 0 then (w, (0, None))
  else if len p <=? bufio.defaultBufSize then (fst (Sink_Write w p), (len p, None))
  else Sink_Write w p.
Proof.
  pose proof (len_nonneg p) as Hp.
  unfold serve, bufio.Write.
  destruct (len p <=? bufio.defaultBufSize) eqn:Hfit.
  - assert (C : (len p >? bufio.Available bufio.NewWriter)
                && is_nil (bufio.err bufio.NewWriter) = false).
    { unfold bufio.Available. cbn [bufio.NewWriter bufio.buf bufio.err is_nil].
      change (len (@nil byte)) with 0. rewrite Z.sub_0_r, Z.gtb_ltb.
      rewrite Z.leb_antisym in Hfit. apply negb_true_iff in Hfit. rewrite Hfit.
      reflexivity. }
    rewrite (Write_loop_stop 2 _ w p 0 C).
    cbn [bufio.NewWriter bufio.err bufio.buf]. unfold bufio.Available.
    cbn [bufio.buf app]. change (len (@nil byte)) with 0. rewrite Z.sub_0_r.
    apply Z.leb_le in Hfit.
    replace (Z.min (len p) bufio.defaultBufSize) with (len p) by lia.
    rewrite slice_to_all. unfold bufio.Flush. cbn [bufio.err bufio.buf].
    destruct (len p =? 0) eqn:E0.
    + apply Z.eqb_eq in E0. rewrite E0. reflexivity.
    + destruct (Sink_Write w p) as [w1 [n e]]. cbn [fst].
      destruct (if (n <? len p) && is_nil e then Some bufio.ErrShortWrite else e);
        reflexivity.
  - apply Z.leb_gt in Hfit.
    assert (E0 : (len p =? 0) = false).
    { apply Z.eqb_neq. unfold bufio.defaultBufSize in Hfit. lia. }
    rewrite E0.
    assert (C : (len p >? bufio.Available bufio.NewWriter)
                && is_nil (bufio.err bufio.NewWriter) = true).
    { unfold bufio.Available. cbn [bufio.NewWriter bufio.buf bufio.err is_nil].
      change (len (@nil byte)) with 0. rewrite Z.sub_0_r, andb_true_r.
      apply Z.gtb_lt. exact Hfit. }
    destruct (Write_loop_direct bufio.NewWriter w p 0 C eq_refl) as [_ Hk].
    rewrite (Hk 1%nat).
    destruct (Sink_Write_answer w p) as [_ Hn].
    destruct (Sink_Write w p) as [w1 [n e]]. cbn [fst snd] in *.
    cbn [bufio.err bufio.NewWriter bufio.buf].
    destruct e as [e|].
    + unfold bufio.Flush. cbn [bufio.err]. reflexivity.
    + rewrite (Hn eq_refl), slice_from_all. unfold bufio.Available.
      cbn [bufio.buf app]. change (len (@nil byte)) with 0.
      change (slice_to [] (Z.min 0 (bufio.defaultBufSize - 0))) with (@nil byte).
      unfold bufio.Flush. cbn [bufio.err bufio.buf app].
      change (len (@nil byte) =? 0) with true. cbv iota.
      replace (0 + len p + Z.min 0 (bufio.defaultBufSize - 0)) with (len p)
        by (unfold bufio.defaultBufSize; lia).
      reflexivity.
Qed.

Lemma serve_written (w : Sink) (p : list byte) :
  written (fst (serve w p)) = written w ++ (if len p =? 0 then [] else [p])
  /\ answer (fst (serve w p)) = answer w.
Proof.
  rewrite serve_cases.
  destruct (len p =? 0); [cbn; rewrite app_nil_r; split; reflexivity|].
  destruct (len p <=? bufio.defaultBufSize); split; reflexivity.
Qed.

Lemma serve_all_app (done : list (list byte)) (p : list byte) (w0 : Sink) :
  serve_all (done ++ [p]) w0
  = (fst (serve_all done w0) ++ [snd (serve (snd (serve_all done w0)) p)],
     fst (serve (snd (serve_all done w0)) p)).
Proof.
  revert w0. induction done as [|q done IH]; intros w0.
  - cbn. destruct (serve w0 p) as [w res]. reflexivity.
  - cbn [app serve_all]. destruct (serve w0 q) as [w res].
    rewrite IH. destruct (serve_all done w) as [rs w']. reflexivity.
Qed.

(** The calls the underlying writer has seen once the messages are
    served: the non-empty messages, in their order, one call each. *)
Lemma serve_all_written (ps : list (list byte)) :
  forall w0,
    written (snd (serve_all ps w0))
    = written w0 ++ filter (fun p => negb (len p =? 0)) ps
    /\ length (fst (serve_all ps w0)) = length ps.
Proof.
  induction ps as [|p ps IH]; intros w0.
  - cbn. rewrite app_nil_r. split; reflexivity.
  - cbn [serve_all filter].
    destruct (serve_written w0 p) as [Hw _].
    destruct (serve w0 p) as [w res]. cbn [fst] in Hw.
    destruct (IH w) as [I1 I2].
    destruct (serve_all ps w) as [rs w']. cbn [fst snd] in *.
    rewrite I1, Hw. split; [|simpl; lia].
    destruct (len p =? 0); cbn [negb]; rewrite <- app_assoc; reflexivity.
Qed.

(* ================================================================== *)
(** * The goroutines and [main] *)

Lemma set_worker_split (st : System) (i : nat) (g0 : Worker) :
  nth_error (goroutines st) i = Some g0 ->
  goroutines st = firstn i (goroutines st) ++ g0 :: skipn (S i) (goroutines st)
  /\ length (firstn i (goroutines st)) = i.
Proof.
  intros H. generalize dependent i.
  induction (goroutines st) as [|x l IH]; intros [|i] H; try discriminate.
  - injection H as ->. split; reflexivity.
  - cbn [nth_error] in H. destruct (IH i H) as [E L].
    cbn [firstn skipn app length]. rewrite L. split; [|reflexivity].
    f_equal. exact E.
Qed.

Lemma set_worker_same (st : System) (i : nat) (g g0 : Worker) :
  nth_error (goroutines st) i = Some g0 ->
  nth_error (set_worker st i g) i = Some g.
Proof.
  intros H. destruct (set_worker_split st i g0 H) as [_ L].
  unfold set_worker. rewrite nth_error_app2 by lia. rewrite L, Nat.sub_diag.
  reflexivity.
Qed.

Lemma set_worker_other (st : System) (i j : nat) (g g0 : Worker) :
  nth_error (goroutines st) i = Some g0 ->
  j <> i ->
  nth_error (set_worker st i g) j = nth_error (goroutines st) j.
Proof.
  intros H Hji. destruct (set_worker_split st i g0 H) as [E L].
  unfold set_worker. rewrite E at 3.
  destruct (Nat.lt_ge_cases j i) as [Hlt|Hge].
  - rewrite !nth_error_app1 by lia. reflexivity.
  - rewrite !nth_error_app2 by lia. rewrite L.
    destruct (j - i)%nat as [|k] eqn:Ek; [lia|]. reflexivity.
Qed.

Lemma Forall_set_worker (P : Worker -> Prop) (st : System) (i : nat) (g : Worker) :
  Forall P (goroutines st) -> P g -> Forall P (set_worker st i g).
Proof.
  intros H Hg. unfold set_worker. apply Forall_app. split.
  - rewrite <- (firstn_skipn i (goroutines st)) in H.
    apply Forall_app in H. apply H.
  - constructor; [exact Hg|].
    rewrite <- (firstn_skipn (S i) (goroutines st)) in H.
    apply Forall_app in H. apply H.
Qed.

Lemma Forall_nth_error_iff (P : Worker -> Prop) (l : list Worker) :
  Forall P l <-> forall j g, nth_error l j = Some g -> P g.
Proof.
  rewrite Forall_forall. split.
  - intros H j g Hj. apply H. apply nth_error_In with j. exact Hj.
  - intros H g Hin. apply In_nth_error in Hin as [j Hj]. apply (H j g Hj).
Qed.

Lemma quiet_worker_closed (g : Worker) : quiet_worker false g -> quiet_worker true g.
Proof. destruct g; cbn; auto. Qed.

(** Every step keeps the messages served one at a time, in order. *)
Lemma step_in_order (msgs : list (list byte)) (w0 : Sink) (g : nat)
      (st st' : System) :
  in_order msgs w0 st -> step g st = Some st' -> in_order msgs w0 st'.
Proof.
  intros HI Hs. destruct g as [|i]; cbn [step] in Hs.
  - (* main *)
    unfold step_main in Hs. unfold in_order in HI.
    destruct (main_at st) as [[|p todo]|todo| |] eqn:Hm; try discriminate Hs.
    + injection Hs as <-. unfold in_order. cbn [main_at results uw ch_closed goroutines].
      destruct HI as (done & Hmsgs & Hres & Hc & Hq).
      rewrite app_nil_r in Hmsgs. subst done.
      split; [exact Hres|]. split; [reflexivity|].
      revert Hq. apply Forall_impl. exact quiet_worker_closed.
    + destruct (forallb is_exited (goroutines st)) eqn:Hall; [|discriminate Hs].
      injection Hs as <-. unfold in_order. cbn [main_at results uw goroutines].
      destruct HI as (Hres & Hc & Hq). split; [exact Hres|].
      rewrite forallb_forall in Hall. apply Forall_forall.
      intros x Hx. specialize (Hall x Hx). destruct x; try discriminate Hall.
      reflexivity.
  - (* goroutine i *)
    unfold step_worker in Hs.
    destruct (nth_error (goroutines st) i) as [gi|] eqn:Hi; [|discriminate Hs].
    assert (Hquiet_keep :
      forall c g', Forall (quiet_worker c) (goroutines st) -> quiet_worker c g' ->
                   Forall (quiet_worker c) (set_worker st i g')).
    { intros c g' H Hg. apply Forall_set_worker; assumption. }
    assert (Hnot_quiet :
      forall c, Forall (quiet_worker c) (goroutines st) -> quiet_worker c gi).
    { intros c H. apply (proj1 (Forall_nth_error_iff _ _) H i gi Hi). }
    unfold in_order in HI.
    destruct gi as [b|b p|b res|b res|b|].
    + (* Idle *)
      destruct (ch_closed st) eqn:Hc.
      * injection Hs as <-.
        unfold in_order. cbn [main_at results uw ch_closed goroutines].
        destruct (main_at st) as [todo|todo| |] eqn:Hm.
        -- destruct HI as (_ & _ & _ & Hc' & _). congruence.
        -- destruct HI as (_ & _ & _ & _ & _ & _ & Hc' & _). congruence.
        -- destruct HI as (Hres & _ & Hq). split; [exact Hres|].
           split; [reflexivity|]. apply Hquiet_keep; [exact Hq | reflexivity].
        -- destruct HI as (_ & Hq).
           pose proof (proj1 (Forall_nth_error_iff _ _) Hq i _ Hi) as Hx.
           discriminate Hx.
      * destruct (main_at st) as [[|p todo]|todo| |] eqn:Hm; try discriminate Hs.
        injection Hs as <-.
        unfold in_order. cbn [main_at results uw ch_closed goroutines].
        destruct HI as (done & Hmsgs & Hres & _ & Hq).
        exists done, p, i, (Got b p).
        split; [exact Hmsgs|]. split; [rewrite Hres; reflexivity|].
        split; [reflexivity|].
        split; [apply (set_worker_same st i _ _ Hi)|].
        split.
        { cbn [active_worker]. rewrite Hres. cbn [snd].
          split; [exact (Hnot_quiet false Hq)|]. split; reflexivity. }
        intros j g' Hj Hg'. rewrite (set_worker_other st i j _ _ Hi Hj) in Hg'.
        apply (proj1 (Forall_nth_error_iff _ _) Hq j g' Hg').
    + (* Got *)
      destruct (bufio.Write b (uw st) p) as [[b' w'] res] eqn:EW.
      injection Hs as <-.
      unfold in_order. cbn [main_at results uw ch_closed goroutines].
      destruct (main_at st) as [todo|todo| |] eqn:Hm.
      * destruct HI as (_ & _ & _ & _ & Hq). destruct (Hnot_quiet false Hq).
      * destruct HI as (done & p0 & i0 & g0 & Hmsgs & Hres & Hc & Hi0 & Hact & Hoth).
        destruct (Nat.eq_dec i i0) as [->|Hne];
          [|destruct (Hoth i _ Hne Hi)].
        assert (g0 = Got b p) by congruence. subst g0.
        cbn [active_worker] in Hact. destruct Hact as (-> & -> & Huw).
        exists done, p0, i0, (Wrote b' res).
        split; [exact Hmsgs|]. split; [exact Hres|]. split; [exact Hc|].
        split; [apply (set_worker_same st i0 _ _ Hi)|].
        split; [cbn [active_worker]; rewrite <- Huw; exact EW|].
        intros j g' Hj Hg'. rewrite (set_worker_other st i0 j _ _ Hi Hj) in Hg'.
        apply (Hoth j g' Hj Hg').
      * destruct HI as (_ & _ & Hq). destruct (Hnot_quiet true Hq).
      * destruct HI as (_ & Hq).
        pose proof (proj1 (Forall_nth_error_iff _ _) Hq i _ Hi) as Hx.
        discriminate Hx.
    + (* Wrote *)
      destruct (bufio.Flush b (uw st)) as [[b' w'] e'] eqn:EF.
      injection Hs as <-.
      unfold in_order. cbn [main_at results uw ch_closed goroutines].
      destruct (main_at st) as [todo|todo| |] eqn:Hm.
      * destruct HI as (_ & _ & _ & _ & Hq). destruct (Hnot_quiet false Hq).
      * destruct HI as (done & p0 & i0 & g0 & Hmsgs & Hres & Hc & Hi0 & Hact & Hoth).
        destruct (Nat.eq_dec i i0) as [->|Hne];
          [|destruct (Hoth i _ Hne Hi)].
        assert (g0 = Wrote b res) by congruence. subst g0.
        cbn [active_worker] in Hact.
        exists done, p0, i0, (Flushed b' res).
        split; [exact Hmsgs|]. split; [exact Hres|]. split; [exact Hc|].
        split; [apply (set_worker_same st i0 _ _ Hi)|].
        split; [cbn [active_worker]; unfold serve; rewrite Hact, EF; reflexivity|].
        intros j g' Hj Hg'. rewrite (set_worker_other st i0 j _ _ Hi Hj) in Hg'.
        apply (Hoth j g' Hj Hg').
      * destruct HI as (_ & _ & Hq). destruct (Hnot_quiet true Hq).
      * destruct HI as (_ & Hq).
        pose proof (proj1 (Forall_nth_error_iff _ _) Hq i _ Hi) as Hx.
        discriminate Hx.
    + (* Flushed *)
      destruct (main_at st) as [todo|todo| |] eqn:Hm; try discriminate Hs.
      injection Hs as <-.
      unfold in_order. cbn [main_at results uw ch_closed goroutines].
      destruct HI as (done & p0 & i0 & g0 & Hmsgs & Hres & Hc & Hi0 & Hact & Hoth).
      destruct (Nat.eq_dec i i0) as [->|Hne];
        [|destruct (Hoth i _ Hne Hi)].
      assert (g0 = Flushed b res) by congruence. subst g0.
      cbn [active_worker] in Hact.
      exists (done ++ [p0]).
      split; [rewrite <- app_assoc; exact Hmsgs|].
      split; [rewrite serve_all_app, Hact, Hres; reflexivity|].
      split; [exact Hc|].
      apply Forall_nth_error_iff. intros j g' Hg'.
      destruct (Nat.eq_dec j i0) as [->|Hj].
      * rewrite (set_worker_same st i0 _ _ Hi) in Hg'. injection Hg' as <-. exact I.
      * rewrite (set_worker_other st i0 j _ _ Hi Hj) in Hg'. apply (Hoth j g' Hj Hg').
    + (* Resetting *)
      injection Hs as <-.
      unfold in_order. cbn [main_at results uw ch_closed goroutines].
      destruct (main_at st) as [todo|todo| |] eqn:Hm.
      * destruct HI as (done & Hmsgs & Hres & Hc & Hq).
        exists done. split; [exact Hmsgs|]. split; [exact Hres|]. split; [exact Hc|].
        apply Hquiet_keep; [exact Hq | reflexivity].
      * destruct HI as (done & p0 & i0 & g0 & Hmsgs & Hres & Hc & Hi0 & Hact & Hoth).
        destruct (Nat.eq_dec i i0) as [->|Hne].
        { assert (g0 = Resetting b) by congruence. subst g0. destruct Hact. }
        exists done, p0, i0, g0.
        split; [exact Hmsgs|]. split; [exact Hres|]. split; [exact Hc|].
        split; [rewrite (set_worker_other st i i0 _ _ Hi); [exact Hi0 | auto]|].
        split; [exact Hact|].
        intros j g' Hj Hg'.
        destruct (Nat.eq_dec j i) as [->|Hji].
        -- rewrite (set_worker_same st i _ _ Hi) in Hg'. injection Hg' as <-.
           reflexivity.
        -- rewrite (set_worker_other st i j _ _ Hi Hji) in Hg'. apply (Hoth j g' Hj Hg').
      * destruct HI as (Hres & Hc & Hq). split; [exact Hres|]. split; [exact Hc|].
        apply Hquiet_keep; [exact Hq | reflexivity].
      * destruct HI as (_ & Hq).
        pose proof (proj1 (Forall_nth_error_iff _ _) Hq i _ Hi) as Hx.
        discriminate Hx.
    + discriminate Hs.
Qed.

Lemma boot_in_order (capacity : Z) (msgs : list (list byte)) (w0 : Sink) :
  in_order msgs w0 (boot capacity msgs w0).
Proof.
  unfold in_order, boot. cbn [main_at results uw ch_closed goroutines].
  exists []. split; [reflexivity|]. split; [reflexivity|]. split; [reflexivity|].
  apply Forall_forall. intros g Hg. apply repeat_spec in Hg. subst g. reflexivity.
Qed.

Lemma runs_in_order (msgs : list (list byte)) (w0 : Sink) (st0 st : System) (n : nat) :
  in_order msgs w0 st0 -> runs st0 n st -> in_order msgs w0 st.
Proof.
  intros H0 Hr. induction Hr as [|n g st' st'' _ IH Hs]; [exact H0|].
  apply (step_in_order msgs w0 g st' st'' IH Hs).
Qed.

Lemma set_worker_length (st : System) (i : nat) (g g0 : Worker) :
  nth_error (goroutines st) i = Some g0 ->
  length (set_worker st i g) = length (goroutines st).
Proof.
  intros H. destruct (set_worker_split st i g0 H) as [E _].
  unfold set_worker. rewrite E at 3. rewrite !length_app. reflexivity.
Qed.

Lemma list_sum_head (x : nat) (l : list nat) :
  list_sum (x :: l) = (x + list_sum l)%nat.
Proof. reflexivity. Qed.

Lemma set_worker_weight (st : System) (i : nat) (g g0 : Worker) :
  nth_error (goroutines st) i = Some g0 ->
  (list_sum (map worker_weight (set_worker st i g)) + worker_weight g0
   = list_sum (map worker_weight (goroutines st)) + worker_weight g)%nat.
Proof.
  intros H. destruct (set_worker_split st i g0 H) as [E _].
  unfold set_worker. rewrite E at 3.
  rewrite !map_app, !list_sum_app. cbn [map]. rewrite !list_sum_head. lia.
Qed.

(** Every step uses up some of the weight, and keeps the number of
    goroutines. *)
Lemma step_weight (g : nat) (st st' : System) :
  step g st = Some st' ->
  (weight st' < weight st)%nat /\ length (goroutines st') = length (goroutines st).
Proof.
  intros Hs. unfold weight. destruct g as [|i]; cbn [step] in Hs.
  - unfold step_main in Hs.
    destruct (main_at st) as [[|p todo]|todo| |] eqn:Hm; try discriminate Hs.
    + injection Hs as <-. cbn [main_at goroutines main_weight length]. lia.
    + destruct (forallb is_exited (goroutines st)); [|discriminate Hs].
      injection Hs as <-. cbn [main_at goroutines main_weight]. lia.
  - unfold step_worker in Hs.
    destruct (nth_error (goroutines st) i) as [gi|] eqn:Hi; [|discriminate Hs].
    assert (HW := fun g' => set_worker_weight st i g' gi Hi).
    assert (HL := fun g' => set_worker_length st i g' gi Hi).
    destruct gi as [b|b p|b res|b res|b|].
    + destruct (ch_closed st).
      * injection Hs as <-. cbn [main_at goroutines].
        specialize (HW Exited). cbn [worker_weight] in HW. rewrite HL. lia.
      * destruct (main_at st) as [[|p todo]|todo| |] eqn:Hm; try discriminate Hs.
        injection Hs as <-. cbn [main_at goroutines main_weight length].
        specialize (HW (Got b p)). cbn [worker_weight] in HW. rewrite HL. lia.
    + destruct (bufio.Write b (uw st) p) as [[b' w'] res].
      injection Hs as <-. cbn [main_at goroutines].
      specialize (HW (Wrote b' res)). cbn [worker_weight] in HW. rewrite HL. lia.
    + destruct (bufio.Flush b (uw st)) as [[b' w'] e'].
      injection Hs as <-. cbn [main_at goroutines].
      specialize (HW (Flushed b' res)). cbn [worker_weight] in HW. rewrite HL. lia.
    + destruct (main_at st) as [todo|todo| |] eqn:Hm; try discriminate Hs.
      injection Hs as <-. cbn [main_at goroutines main_weight].
      specialize (HW (Resetting b)). cbn [worker_weight] in HW. rewrite HL. lia.
    + injection Hs as <-. cbn [main_at goroutines].
      specialize (HW (Idle (bufio.Reset b))). cbn [worker_weight] in HW. rewrite HL. lia.
    + discriminate Hs.
Qed.

Lemma runs_weight (st0 st : System) (n : nat) :
  runs st0 n st ->
  (n + weight st <= weight st0)%nat /\ length (goroutines st) = length (goroutines st0).
Proof.
  intros Hr. induction Hr as [|n g st' st'' _ [IH1 IH2] Hs]; [split; [lia | reflexivity]|].
  destruct (step_weight g st' st'' Hs) as [H1 H2]. split; [lia | congruence].
Qed.

Lemma boot_weight (capacity : Z) (msgs : list (list byte)) (w0 : Sink) :
  weight (boot capacity msgs w0) = (6 * length msgs + 2 + Z.to_nat capacity)%nat
  /\ length (goroutines (boot capacity msgs w0)) = Z.to_nat capacity.
Proof.
  unfold weight, boot. cbn [main_at goroutines main_weight].
  rewrite repeat_length. split; [|reflexivity].
  induction (Z.to_nat capacity) as [|k IH]; [cbn; lia|].
  cbn [repeat map worker_weight]. rewrite list_sum_head. lia.
Qed.

(** With a goroutine to take the message, a program that is not
    finished can move. *)
Lemma in_order_moves (msgs : list (list byte)) (w0 : Sink) (st : System) :
  in_order msgs w0 st ->
  goroutines st <> [] ->
  main_at st <> Finished ->
  exists g st', step g st = Some st'.
Proof.
  intros HI Hne Hnf. unfold in_order in HI.
  destruct (main_at st) as [[|p todo]|todo| |] eqn:Hm.
  - exists 0%nat. cbn [step]. unfold step_main. rewrite Hm. eexists. reflexivity.
  - destruct HI as (done & _ & _ & Hc & Hq).
    destruct (goroutines st) as [|g0 rest] eqn:Hg; [congruence|].
    exists 1%nat. cbn [step]. unfold step_worker. rewrite Hg. cbn [nth_error].
    inversion Hq as [|x l Hq0 _]; subst.
    destruct g0; cbn in Hq0; try contradiction; try discriminate.
    + rewrite Hc, Hm. eexists. reflexivity.
    + eexists. reflexivity.
  - destruct HI as (done & p & i & g & _ & _ & _ & Hi & Hact & _).
    exists (S i). cbn [step]. unfold step_worker. rewrite Hi.
    destruct g; cbn in Hact; try contradiction.
    + destruct (bufio.Write b (uw st) p0) as [[b' w'] res]. eexists. reflexivity.
    + destruct (bufio.Flush b (uw st)) as [[b' w'] e']. eexists. reflexivity.
    + rewrite Hm. eexists. reflexivity.
  - destruct HI as (_ & Hc & Hq).
    destruct (forallb is_exited (goroutines st)) eqn:Hall.
    + exists 0%nat. cbn [step]. unfold step_main. rewrite Hm, Hall. eexists. reflexivity.
    + assert (Hex : exists i g, nth_error (goroutines st) i = Some g
                                /\ is_exited g = false).
      { clear -Hall. induction (goroutines st) as [|x l IH]; [discriminate|].
        cbn [forallb] in Hall. destruct (is_exited x) eqn:Ex.
        - destruct (IH Hall) as (i & g & Hi & Hg). exists (S i), g. split; assumption.
        - exists 0%nat, x. split; [reflexivity | exact Ex]. }
      destruct Hex as (i & g & Hi & Hg).
      pose proof (proj1 (Forall_nth_error_iff _ _) Hq i g Hi) as Hqg.
      exists (S i). cbn [step]. unfold step_worker. rewrite Hi.
      destruct g; cbn in Hqg, Hg; try contradiction; try discriminate.
      * rewrite Hc. eexists. reflexivity.
      * eexists. reflexivity.
  - congruence.
Qed.

Lemma schedule_runs (picks : list nat) :
  forall st, exists n, runs st n (schedule picks st).
Proof.
  assert (Hgen : forall st0 st n, runs st0 n st ->
                                  exists m, runs st0 m (schedule picks st)).
  { induction picks as [|g picks IH]; intros st0 st n Hr.
    - exists n. exact Hr.
    - cbn [schedule]. destruct (step g st) as [st'|] eqn:Hs.
      + apply (IH st0 st' (S n)). apply (runs_S st0 n g st st' Hr Hs).
      + apply (IH st0 st n Hr). }
  intros st. apply (Hgen st st 0%nat). constructor.
Qed.

Lemma serve_all_fitting (ps : list (list byte)) :
  Forall (fun p => len p <= bufio.defaultBufSize) ps ->
  forall w0, fst (serve_all ps w0) = map (fun p => (len p, None)) ps.
Proof.
  induction 1 as [|p ps Hp _ IH]; intros w0; [reflexivity|].
  cbn [serve_all map].
  pose proof (serve_cases w0 p) as Hs.
  destruct (serve w0 p) as [w res].
  specialize (IH w). destruct (serve_all ps w) as [rs w']. cbn [fst] in *.
  f_equal; [|exact IH].
  apply Z.leb_le in Hp. rewrite Hp in Hs.
  destruct (len p =? 0) eqn:E0.
  - apply Z.eqb_eq in E0. rewrite E0. congruence.
  - congruence.
Qed.

(** X11.  One turn of a goroutine of [NewWriter], from a buffer just
    made or reset: [buf.Write(arg.p)] then [buf.Flush()].  An empty
    message makes no call of the underlying writer, any other makes one
    call, with the whole message.  For a message of at most 4096 bytes
    the result sent back is [(len(p), nil)] whatever the underlying
    writer answered: the error of [Flush] is dropped.  Only for a larger
    message, written through, is the answer of the underlying writer
    the result. *)
Theorem goroutine_turn (w : Sink) (p : list byte) :
  written (fst (serve w p)) = written w ++ (if len p =? 0 then [] else [p])
  /\ answer (fst (serve w p)) = answer w
  /\ (len p <= bufio.defaultBufSize -> snd (serve w p) = (len p, None))
  /\ (bufio.defaultBufSize < len p -> snd (serve w p) = snd (muxWriter_Write w p)).
Proof.
  destruct (serve_written w p) as [Hw Ha].
  split; [exact Hw|]. split; [exact Ha|].
  rewrite serve_cases. split.
  - intros Hfit. apply Z.leb_le in Hfit. rewrite Hfit.
    destruct (len p =? 0) eqn:E0; [|reflexivity].
    apply Z.eqb_eq in E0. rewrite E0. reflexivity.
  - intros Hbig.
    assert (E0 : (len p =? 0) = false).
    { apply Z.eqb_neq. unfold bufio.defaultBufSize in Hbig. lia. }
    apply Z.leb_gt in Hbig. rewrite E0, Hbig. reflexivity.
Qed.

(** X12.  Whatever the scheduler does, with any number of goroutines:
    when [main] is past [w.Close()], the messages have been served one
    at a time in their order.  The underlying writer has been called
    once for each non-empty message, in the order of [main], with the
    message itself; [w.Write] returned a pair for each message, and
    [(len(p), nil)] for each when all fit the buffer; every goroutine
    has left its loop. *)
Theorem workers_write_in_order (capacity : Z) (msgs : list (list byte)) (w0 : Sink)
        (n : nat) (st : System) :
  runs (boot capacity msgs w0) n st ->
  main_at st = Finished ->
  (results st, uw st) = serve_all msgs w0
  /\ written (uw st) = written w0 ++ filter (fun p => negb (len p =? 0)) msgs
  /\ length (results st) = length msgs
  /\ (Forall (fun p => len p <= bufio.defaultBufSize) msgs ->
      results st = map (fun p => (len p, None)) msgs)
  /\ Forall (fun g => g = Exited) (goroutines st).
Proof.
  intros Hr Hm.
  pose proof (runs_in_order msgs w0 _ st n (boot_in_order capacity msgs w0) Hr) as HI.
  unfold in_order in HI. rewrite Hm in HI. destruct HI as [Hres Hex].
  destruct (serve_all_written msgs w0) as [Hw Hl].
  pose proof (fun H => serve_all_fitting msgs H w0) as Hfit.
  rewrite Hres in Hw, Hl, Hfit. cbn [fst snd] in *.
  split; [symmetry; exact Hres|]. split; [exact Hw|]. split; [exact Hl|].
  split; [exact Hfit | exact Hex].
Qed.

(** X13.  The program neither runs for ever nor, with a goroutine to
    serve it, comes to a halt before [main] is past [w.Close()]: a run
    has at most [6 * len(messages) + 2 + capacity] steps, and a state it
    reaches is not stuck unless [main] has finished.  With no goroutine
    ([capacity <= 0]) the first [w.Write] blocks for ever. *)
Theorem workers_finish (capacity : Z) (msgs : list (list byte)) (w0 : Sink)
        (n : nat) (st : System) :
  runs (boot capacity msgs w0) n st ->
  (n + weight st <= 6 * length msgs + 2 + Z.to_nat capacity)%nat
  /\ (0 < capacity -> main_at st <> Finished -> ~ stuck st)
  /\ (capacity <= 0 -> msgs <> [] ->
      stuck (boot capacity msgs w0)
      /\ main_at (boot capacity msgs w0) <> Finished).
Proof.
  intros Hr.
  destruct (runs_weight _ st n Hr) as [Hw Hl].
  destruct (boot_weight capacity msgs w0) as [Hbw Hbl].
  rewrite Hbw in Hw. rewrite Hbl in Hl.
  split; [exact Hw|]. split.
  - intros Hcap Hnf Hstuck.
    pose proof (runs_in_order msgs w0 _ st n (boot_in_order capacity msgs w0) Hr) as HI.
    destruct (in_order_moves msgs w0 st HI) as (g & st' & Hs).
    + intros Hnil. rewrite Hnil in Hl. cbn in Hl. lia.
    + exact Hnf.
    + rewrite (Hstuck g) in Hs. discriminate Hs.
  - intros Hcap Hne. split; [|discriminate].
    intros [|i]; cbn [step].
    + unfold step_main, boot. cbn [main_at]. destruct msgs; [congruence | reflexivity].
    + unfold step_worker, boot. cbn [goroutines].
      replace (Z.to_nat capacity) with 0%nat by lia. cbn [repeat].
      destruct i; reflexivity.
Qed.

Lemma goroutine_turn_witness :
  snd (serve broken hello) = (8, None)
  /\ written (fst (serve broken hello)) = [hello].
Proof.
  destruct (goroutine_turn broken hello) as (Hw & _ & H & _).
  split; [apply H; vm_compute; discriminate | exact Hw].
Defined.

Lemma workers_write_in_order_witness :
  written (uw (schedule main_schedule (boot 3 messages stdout))) = messages.
Proof.
  destruct (schedule_runs main_schedule (boot 3 messages stdout)) as [n Hn].
  destruct (workers_write_in_order 3 messages stdout n _ Hn) as (_ & H & _).
  - vm_compute. reflexivity.
  - exact H.
Defined.

Lemma workers_finish_witness : ~ stuck (boot 3 messages stdout).
Proof.
  destruct (workers_finish 3 messages stdout 0 _ (runs_O _)) as (_ & H & _).
  apply H; [lia | discriminate].
Defined.
